(** * MICE: the round-robin imputation engine of fancyimpute

    A shallow embedding of [fancyimpute/mice.py] (class [MICE]), of the
    error measures of [fancyimpute/common.py] and of the NumPy operations
    they are written with, followed by the properties of the engine: visit
    scheduling, the frame of a round, the aggregation done by [complete],
    predictive mean matching, seeding, the guards of [complete_row]; then
    the configurations that are rejected and when, what the initialisation
    fills in, what a training leaves in the instance, the calls a training
    and a replay make, and the masked errors.

    Conventions.
    - A 2-d ndarray is a shape and an accessor ([matrix]); a 1-d ndarray is a
      list.  Memory layout ([order="F"]) is not observable and is left out.
    - NumPy's floats, its random stream and the regression model are
      interfaces ([Numerics], [RandomState], [Regressor]); the methods of the
      base class [Solver], which is not part of the sources, are the interface
      [SolverBase] and the function [clip].
    - Methods of [MICE] run in [Mx], a state and exception monad that also
      emits the calls made to the collaborators.  The state holds the three
      attributes the methods assign, NumPy's process-wide random stream and
      the store of model objects; model objects are references into the
      store, as in Python. *)

From Stdlib Require Import String.
From Stdlib Require Import List Arith Bool Lia ZArith Permutation Sorted.
From Stdlib Require Import PrimFloat Uint63.
Import ListNotations.

Set Implicit Arguments.

(* ================================================================== *)
(** ** NumPy arrays *)

Module Np.

Record matrix (A : Type) : Type :=
  Matrix { n_rows : nat; n_cols : nat; at2 : nat -> nat -> A }.

(** Arrays of the two ranks the program handles. *)
Inductive ndarray (A : Type) : Type :=
| Arr1 (v : list A)
| Arr2 (m : matrix A).

Arguments Arr1 {A} v.
Arguments Arr2 {A} m.

(** The right-hand side of an indexed assignment: a scalar or a 1-d array. *)
Inductive value (A : Type) : Type :=
| Scalar (a : A)
| Array (l : list A).

Arguments Scalar {A} a.
Arguments Array {A} l.

Section Ops.
Context {A : Type}.

(** [ndim] of an array. *)
Definition ndim (X : ndarray A) : nat :=
  match X with Arr1 _ => 1 | Arr2 _ => 2 end.

(** Builds a matrix from its rows; [c] is the number of columns. *)
Definition of_rows (d : A) (c : nat) (rows : list (list A)) : matrix A :=
  Matrix (length rows) c (fun i j => nth j (nth i rows []) d).

Definition to_rows (X : matrix A) : list (list A) :=
  map (fun i => map (fun j => at2 X i j) (seq 0 (n_cols X))) (seq 0 (n_rows X)).

(** [X[:, c]] *)
Definition column (X : matrix A) (c : nat) : list A :=
  map (fun i => at2 X i c) (seq 0 (n_rows X)).

(** [mask.sum()] of a 1-d boolean array. *)
Definition count_true (mask : list bool) : nat :=
  length (filter (fun b => b) mask).

(** [v[mask]] for a 1-d boolean mask. *)
Fixpoint compress (mask : list bool) (v : list A) : list A :=
  match mask, v with
  | b :: mask', x :: v' =>
      if b then x :: compress mask' v' else compress mask' v'
  | _, _ => []
  end.

(** [v[mask] = vals], with [vals] already broadcast to the number of
    selected positions. *)
Fixpoint put1 (v : list A) (mask : list bool) (vals : list A) : list A :=
  match v, mask with
  | x :: v', b :: mask' =>
      if b then
        match vals with
        | y :: vals' => y :: put1 v' mask' vals'
        | [] => x :: put1 v' mask' []
        end
      else x :: put1 v' mask' vals
  | _, _ => v
  end.

(** Broadcasting of an assigned value to [n] selected positions; [None]
    is NumPy's shape-mismatch [ValueError]. *)
Definition broadcast (n : nat) (v : value A) : option (list A) :=
  match v with
  | Scalar a => Some (repeat a n)
  | Array [a] => Some (repeat a n)
  | Array l => if length l =? n then Some l else None
  end.

(** [X[rowmask, c] = vals] *)
Definition put_column (X : matrix A) (rowmask : list bool) (c : nat)
    (vals : list A) : matrix A :=
  Matrix (n_rows X) (n_cols X)
    (fun i j =>
       if j =? c then nth i (put1 (column X c) rowmask vals) (at2 X i j)
       else at2 X i j).

(** [np.nonzero(mask)], the selected positions in row-major order. *)
Definition nonzero2 (mask : matrix bool) : list (nat * nat) :=
  flat_map
    (fun i =>
       flat_map (fun j => if at2 mask i j then [(i, j)] else [])
         (seq 0 (n_cols mask)))
    (seq 0 (n_rows mask)).

(** [X[mask]] for a 2-d boolean mask: a copy of the selected cells. *)
Definition take2 (X : matrix A) (mask : matrix bool) : list A :=
  map (fun p => at2 X (fst p) (snd p)) (nonzero2 mask).

Fixpoint index_of (p : nat * nat) (l : list (nat * nat)) : option nat :=
  match l with
  | [] => None
  | q :: l' =>
      if ((fst p =? fst q) && (snd p =? snd q))%bool then Some 0
      else option_map S (index_of p l')
  end.

(** [X[mask] = vals], with [vals] already broadcast. *)
Definition put2 (X : matrix A) (mask : matrix bool) (vals : list A)
    : matrix A :=
  Matrix (n_rows X) (n_cols X)
    (fun i j =>
       match index_of (i, j) (nonzero2 mask) with
       | Some k => nth k vals (at2 X i j)
       | None => at2 X i j
       end).

(** Indices of the selected entries of a 1-d mask. *)
Definition where1 (mask : list bool) : list nat :=
  filter (fun i => nth i mask false) (seq 0 (length mask)).

(** [X[:, idxs]]; [None] is the [IndexError] of an index past the last
    column. *)
Definition take_columns (X : matrix A) (idxs : list nat)
    : option (matrix A) :=
  if forallb (fun j => j <? n_cols X) idxs
  then Some (Matrix (n_rows X) (length idxs)
               (fun i k => at2 X i (nth k idxs 0)))
  else None.

(** [X[rowmask]] *)
Definition take_rows (X : matrix A) (rowmask : list bool) : matrix A :=
  let rows := where1 rowmask in
  Matrix (length rows) (n_cols X) (fun k j => at2 X (nth k rows 0) j).

(** [v[idxs]] for a list of integer indices. *)
Fixpoint take1 (v : list A) (idxs : list nat) : option (list A) :=
  match idxs with
  | [] => Some []
  | i :: idxs' =>
      match nth_error v i, take1 v idxs' with
      | Some x, Some xs => Some (x :: xs)
      | _, _ => None
      end
  end.

(** [v[i] = x] *)
Fixpoint set1 (v : list A) (i : nat) (x : A) : option (list A) :=
  match v, i with
  | [], _ => None
  | _ :: v', 0 => Some (x :: v')
  | y :: v', S i' => option_map (cons y) (set1 v' i' x)
  end.

(** [a[i][j] = x] on a matrix. *)
Definition set2 (X : matrix A) (i j : nat) (x : A) : option (matrix A) :=
  if ((i <? n_rows X) && (j <? n_cols X))%bool
  then Some (Matrix (n_rows X) (n_cols X)
               (fun i' j' =>
                  if ((i' =? i) && (j' =? j))%bool then x else at2 X i' j'))
  else None.

(** [a[i][j]] on a matrix. *)
Definition get2 (X : matrix A) (i j : nat) : option A :=
  if ((i <? n_rows X) && (j <? n_cols X))%bool
  then Some (at2 X i j) else None.

(** The [k]-th entries of the rows of a list of 1-d arrays. *)
Definition entries (rows : list (list A)) (k : nat) : list A :=
  flat_map (fun r => match nth_error r k with Some x => [x] | None => [] end)
    rows.

End Ops.

(** [mask.sum(0)]: the number of selected cells of every column. *)
Definition sum0 (mask : matrix bool) : list nat :=
  map (fun c => count_true (column mask c)) (seq 0 (n_cols mask)).

(** [~mask] *)
Definition invert (mask : matrix bool) : matrix bool :=
  Matrix (n_rows mask) (n_cols mask) (fun i j => negb (at2 mask i j)).

(** [np.argsort] of a 1-d integer array.  NumPy's default sort does not
    promise an order among equal keys (and is an insertion sort below 17
    elements); this one is the stable insertion sort. *)
Fixpoint insert_by (key : nat -> nat) (x : nat) (l : list nat) : list nat :=
  match l with
  | [] => [x]
  | y :: l' => if key x <=? key y then x :: l else y :: insert_by key x l'
  end.

Definition argsort (a : list nat) : list nat :=
  fold_right (insert_by (fun i => nth i a 0)) [] (seq 0 (length a)).

End Np.

Import Np.

(* ================================================================== *)
(** ** The collaborators *)

(** NumPy's float64 and the numeric routines the engine calls. *)
Class Numerics (F : Type) : Type := {
  isnan : F -> bool;
  flt : F -> F -> bool;
  fzero : F;
  feps : F;                                (* 0.0000001 *)
  fadd : F -> F -> F;
  fsub : F -> F -> F;
  fdiv : F -> F -> F;
  fabs : F -> F;
  fsqrt : F -> F;
  np_sum : list F -> F;
  np_mean : list F -> F;
  np_median : list F -> F;
  corrcoef : matrix F -> matrix F;         (* np.corrcoef(X, rowvar=0) *)
  argpartition : list F -> nat -> list nat
}.

(** [np.random]: the process-wide stream, of state [G].  A draw returns
    the advanced stream; [None] is the [ValueError] of the routine. *)
Class RandomState (F G : Type) : Type := {
  np_seed : Z -> G;
  randint : G -> nat -> nat * G;           (* randint(0, n) *)
  normal : G -> F -> F -> option F * G;
  normal_array : G -> list F -> list F -> option (list F) * G;
  choice_p : G -> list nat -> nat -> list F -> option (list nat) * G
}.

(** The regression model: an object of state [M] with [fit], [predict]
    and [predict_dist]; [None] is a failure of the routine. *)
Class Regressor (F G M : Type) : Type := {
  fit : M -> matrix F -> list F -> option M;
  predict : M -> G -> matrix F -> bool -> option (list F) * G;
  predict_dist : M -> matrix F -> option (list F * list F)
}.

(** The input checks of the base class [Solver], which the sources call
    and do not define: each accepts or rejects. *)
Class SolverBase (F : Type) : Type := {
  check_input : ndarray F -> bool;
  check_missing_value_mask : ndarray bool -> bool
}.

(** References to model objects. *)
Definition loc := nat.

Inductive exn : Type :=
| ValueError (msg : string)
| Exception (msg : string)
| UnboundLocalError (name : string)
| AttributeError (msg : string)
| TypeError (msg : string)
| IndexError (msg : string)
| SolverError            (* raised by a check of Solver *)
| ModelError.            (* raised by the model *)

Inductive result (A : Type) : Type :=
| Ok (a : A)
| Raise (e : exn).

Arguments Ok {A} a.
Arguments Raise {A} e.

(* ================================================================== *)
(** ** State, exceptions and emitted calls *)

Section Monad.

Context {S E : Type}.

Record outcome (A : Type) : Type :=
  Out { res : result A; final : S; events : list E }.

Definition Mx (A : Type) : Type := S -> outcome A.

Definition ret {A} (a : A) : Mx A := fun st => Out (Ok a) st [].

Definition bind {A B} (m : Mx A) (f : A -> Mx B) : Mx B :=
  fun st =>
    match m st with
    | Out (Ok a) st1 ev1 =>
        match f a st1 with
        | Out r st2 ev2 => Out r st2 (ev1 ++ ev2)
        end
    | Out (Raise e) st1 ev1 => Out (Raise e) st1 ev1
    end.

Definition raise {A} (e : exn) : Mx A := fun st => Out (Raise e) st [].

Definition emit (ev : E) : Mx unit := fun st => Out (Ok tt) st [ev].

Definition gets {A} (f : S -> A) : Mx A := fun st => Out (Ok (f st)) st [].

Definition modify (f : S -> S) : Mx unit := fun st => Out (Ok tt) (f st) [].

Definition lift_opt {A} (o : option A) (e : exn) : Mx A :=
  match o with Some a => ret a | None => raise e end.

Definition lift_res {A} (r : result A) : Mx A :=
  match r with Ok a => ret a | Raise e => raise e end.

Definition check (b : bool) (e : exn) : Mx unit :=
  if b then ret tt else raise e.

Definition when (b : bool) (m : Mx unit) : Mx unit :=
  if b then m else ret tt.

(** [for a in l: acc = body(acc, a)] *)
Fixpoint foldM {A B} (body : B -> A -> Mx B) (l : list A) (acc : B) : Mx B :=
  match l with
  | [] => ret acc
  | a :: l' => bind (body acc a) (fun acc' => foldM body l' acc')
  end.

(** [[f(a) for a in l]] *)
Fixpoint mapM {A B} (f : A -> Mx B) (l : list A) : Mx (list B) :=
  match l with
  | [] => ret []
  | a :: l' =>
      bind (f a) (fun b => bind (mapM f l') (fun bs => ret (b :: bs)))
  end.

(** [m], started in [st], returns [a] and leaves the state [st']. *)
Definition returns {A} (m : Mx A) (st : S) (a : A) (st' : S) : Prop :=
  res (m st) = Ok a /\ final (m st) = st'.

(** Two runs of [m] from states related by [R] have the same result and
    emit the same calls, and leave states related by [R'] when they
    return. *)
Definition related {A} (R R' : S -> S -> Prop) (m : Mx A) : Prop :=
  forall st1 st2,
    R st1 st2 ->
    res (m st1) = res (m st2) /\
    events (m st1) = events (m st2) /\
    (forall a, res (m st1) = Ok a -> R' (final (m st1)) (final (m st2))).

(** [m] keeps the property [I] of the state whenever it returns. *)
Definition preserves {A} (I : S -> Prop) (m : Mx A) : Prop :=
  forall st a st', returns m st a st' -> I st -> I st'.

End Monad.

Arguments outcome : clear implicits.
Arguments Mx : clear implicits.

Declare Scope mx_scope.
Delimit Scope mx_scope with mx.
Notation "x <- m ;; k" := (bind m (fun x => k))
  (at level 61, m at next level, right associativity) : mx_scope.
Notation "m ;; k" := (bind m (fun _ => k))
  (at level 61, right associativity) : mx_scope.
Open Scope mx_scope.

Section Outcomes.

Context {S E : Type}.

(** Whatever [m] does, return or raise, the state it leaves is related by
    [R] to the state it started in, and every call it emitted satisfies
    [P]. *)
Definition confined {A} (R : S -> S -> Prop) (P : E -> Prop) (m : Mx S E A)
    : Prop :=
  forall st, R st (final (m st)) /\ Forall P (events (m st)).

(** Every exception [m] raises satisfies [Q]. *)
Definition raises_only {A} (Q : exn -> Prop) (m : Mx S E A) : Prop :=
  forall st e, res (m st) = Raise e -> Q e.

(** [m] returns from no state. *)
Definition never_returns {A} (m : Mx S E A) : Prop :=
  forall st a st', ~ returns m st a st'.

(** [R] is reflexive and transitive. *)
Definition preorder (R : S -> S -> Prop) : Prop :=
  (forall st, R st st) /\
  (forall s1 s2 s3, R s1 s2 -> R s2 s3 -> R s1 s3).

End Outcomes.

(** The arguments of [MICE.__init__]. *)
Record MICE (F : Type) : Type := {
  visit_sequence : string;
  n_imputations : nat;
  n_burn_in : nat;
  n_pmm_neighbors : nat;
  impute_type : string;
  model : loc;
  n_nearest_columns : option nat;          (* None is np.infty *)
  fill_method : string;
  min_value : option F;
  max_value : option F;
  seed : option Z;
  verbose : bool
}.

(** What a call can change: the attributes assigned after construction,
    the random stream and the model objects. *)
Record state (F G M : Type) : Type := State {
  fitted_models : option (ndarray loc);
  visit_indices : option (list nat);
  column_init_values : option (list F);
  rng : G;
  heap : loc -> M
}.

(** Calls to the collaborators and printed lines. *)
Inductive event (M : Type) : Type :=
| EvPrint (msg : string)
| EvRound (m total : nat)              (* "[MICE] Starting imputation round" *)
| EvFit (brr : loc) (fitted : M)
| EvPredict (brr : loc) (random_draw : bool)
| EvPredictDist (brr : loc).

Arguments EvPrint {M} msg.
Arguments EvRound {M} m total.
Arguments EvFit {M} brr fitted.
Arguments EvPredict {M} brr random_draw.
Arguments EvPredictDist {M} brr.

(* ================================================================== *)
(** ** The class MICE *)

Section Engine.

Context {F G M : Type}.
Context {NUM : Numerics F} {RND : RandomState F G} {REG : Regressor F G M}
        {SOL : SolverBase F}.

Local Abbreviation Run := (Mx (state F G M) (event M)).

Definition set_fitted_models (x : option (ndarray loc)) (st : state F G M)
    : state F G M :=
  State x (visit_indices st) (column_init_values st) (rng st) (heap st).

Definition set_visit_indices (x : option (list nat)) (st : state F G M)
    : state F G M :=
  State (fitted_models st) x (column_init_values st) (rng st) (heap st).

Definition set_column_init_values (x : option (list F)) (st : state F G M)
    : state F G M :=
  State (fitted_models st) (visit_indices st) x (rng st) (heap st).

Definition set_rng (g : G) (st : state F G M) : state F G M :=
  State (fitted_models st) (visit_indices st) (column_init_values st) g
    (heap st).

Definition set_model (l : loc) (m : M) (st : state F G M) : state F G M :=
  State (fitted_models st) (visit_indices st) (column_init_values st) (rng st)
    (fun l' => if l' =? l then m else heap st l').

(** A draw from the random stream. *)
Definition draw {A} (f : G -> option A * G) (e : exn) : Run A :=
  fun st =>
    match f (rng st) with
    | (Some a, g) => Out (Ok a) (set_rng g st) []
    | (None, g) => Out (Raise e) (set_rng g st) []
    end.

Fixpoint randint_array (g : G) (n size : nat) : list nat * G :=
  match size with
  | 0 => ([], g)
  | S size' =>
      let (i, g1) := randint g n in
      let (rest, g2) := randint_array g1 n size' in
      (i :: rest, g2)
  end.

(** [np.random.choice(a, size)]: [size] uniform draws with replacement. *)
Definition random_choice {A} (a : list A) (size : nat) : Run (list A) :=
  if length a =? 0 then raise (ValueError "a must be non-empty")
  else
    idx <- draw (fun g => let (i, g') := randint_array g (length a) size in
                          (Some i, g')) (ValueError "choice");;
    lift_opt (take1 a idx) (IndexError "index out of bounds").

(** [np.random.choice(a)]: one uniform draw. *)
Definition random_choice1 {A} (a : list A) : Run A :=
  if length a =? 0 then raise (ValueError "a must be non-empty")
  else
    i <- draw (fun g => let (i, g') := randint g (length a) in (Some i, g'))
           (ValueError "choice");;
    lift_opt (nth_error a i) (IndexError "index out of bounds").

(** [brr.fit(X, y, inverse_covariance=None)]: the object is updated in
    place. *)
Definition model_fit (brr : loc) (X : matrix F) (y : list F) : Run unit :=
  m <- gets (fun st => heap st brr);;
  match fit m X y with
  | Some m' => modify (set_model brr m');; emit (EvFit brr m')
  | None => raise ModelError
  end.

(** [brr.predict(X, random_draw=b)] *)
Definition model_predict (brr : loc) (X : matrix F) (random_draw : bool)
    : Run (list F) :=
  m <- gets (fun st => heap st brr);;
  emit (EvPredict brr random_draw);;
  draw (fun g => predict m g X random_draw) ModelError.

(** [brr.predict_dist(X)] *)
Definition model_predict_dist (brr : loc) (X : matrix F)
    : Run (list F * list F) :=
  m <- gets (fun st => heap st brr);;
  emit (EvPredictDist brr);;
  lift_opt (predict_dist m X) ModelError.

(** Modelled from the spec: [Solver.clip], which the sources call and do
    not define; "Clip results to configured [min_value, max_value]
    (unbounded if unset)", applied to every entry. *)
Definition clip1 (self : MICE F) (x : F) : F :=
  let x := match min_value self with
           | Some a => if flt x a then a else x
           | None => x
           end in
  match max_value self with
  | Some b => if flt b x then b else x
  | None => x
  end.

Definition clip (self : MICE F) (v : list F) : list F := map (clip1 self) v.

(** [MICE.__init__]: the three attributes start as [None]; a seed, when
    given, reseeds the process-wide stream. *)
Definition init (self : MICE F) : Run unit :=
  modify (fun st =>
            State None None None
              (match seed self with
               | Some s => np_seed s
               | None => rng st
               end)
              (heap st)).

(** [n_cols > self.n_nearest_columns] *)
Definition exceeds (n : nat) (cap : option nat) : bool :=
  match cap with Some k => k <? n | None => false end.

(** [MICE.get_visit_indices] *)
Definition get_visit_indices (self : MICE F) (missing_mask : matrix bool)
    : result (list nat) :=
  let n_cols := n_cols missing_mask in
  if (visit_sequence self =? "roman")%string then
    Ok (seq 0 n_cols)
  else if (visit_sequence self =? "arabic")%string then
    Ok (rev (seq 0 n_cols))
  else if (visit_sequence self =? "monotone")%string then
    Ok (rev (argsort (sum0 missing_mask)))
  else if (visit_sequence self =? "revmonotone")%string then
    Ok (argsort (sum0 missing_mask))
  else Raise (ValueError "Invalid choice for visit order").

(** [self.column_init_values[col_idx] = fill_values]: a scalar, or an
    array of one element, fits the slot. *)
Definition store_column_init_value (col_idx : nat) (fill_values : value F)
    : Run unit :=
  civ <- gets (fun st => column_init_values st);;
  match civ with
  | None => raise (TypeError "'NoneType' object does not support item assignment")
  | Some civ =>
      x <- match fill_values with
           | Scalar a => ret a
           | Array [a] => ret a
           | Array _ =>
               raise (ValueError "setting an array element with a sequence.")
           end;;
      civ' <- lift_opt (set1 civ col_idx x) (IndexError "index out of bounds");;
      modify (set_column_init_values (Some civ'))
  end.

(** [MICE.initialize] *)
Definition initialize (self : MICE F) (X : matrix F)
    (missing_mask observed_mask : matrix bool) (visit_indices : list nat)
    : Run (matrix F) :=
  let X_filled := X in
  modify (set_column_init_values (Some (repeat fzero (n_cols X))));;
  foldM
    (fun X_filled col_idx =>
       check (col_idx <? n_cols missing_mask)
         (IndexError "index out of bounds");;
       let missing_mask_col := column missing_mask col_idx in
       let n_missing := count_true missing_mask_col in
       if 0 <? n_missing then
         let observed_row_mask_for_col := column observed_mask col_idx in
         let column_ := column X_filled col_idx in
         let observed_column := compress observed_row_mask_for_col column_ in
         fill_values <-
           (if (fill_method self =? "mean")%string then
              ret (Scalar (np_mean observed_column))
            else if (fill_method self =? "median")%string then
              ret (Scalar (np_median observed_column))
            else if (fill_method self =? "random")%string then
              (v <- random_choice observed_column n_missing;; ret (Array v))
            else raise (ValueError "Invalid fill method"));;
         store_column_init_value col_idx fill_values;;
         vals <- lift_opt (broadcast n_missing fill_values)
                   (ValueError "shape mismatch");;
         ret (put_column X_filled missing_mask_col col_idx vals)
       else ret X_filled)
    visit_indices X_filled.

(** [self.fitted_models[round_index][col_idx] = brr] *)
Definition store_fitted_model (round_index col_idx : nat) (brr : loc)
    : Run unit :=
  fm <- gets (fun st => fitted_models st);;
  match fm with
  | None => raise (TypeError "'NoneType' object is not subscriptable")
  | Some (Arr1 _) => raise (IndexError "index out of bounds")
  | Some (Arr2 a) =>
      a' <- lift_opt (set2 a round_index col_idx brr)
              (IndexError "index out of bounds");;
      modify (set_fitted_models (Some (Arr2 a')))
  end.

(** The predictors of column [col_idx]: every other column, or a draw of
    [n_nearest_columns] of them weighted by absolute correlation. *)
Definition other_columns (self : MICE F) (n_cols : nat)
    (abs_correlation_matrix : matrix F) (col_idx : nat) : Run (list nat) :=
  let ordered_column_indices := seq 0 n_cols in
  match n_nearest_columns self with
  | Some cap =>
      if n_cols <=? cap then
        ret (firstn col_idx ordered_column_indices
             ++ skipn (col_idx + 1) ordered_column_indices)
      else
        let p := map (fun j => at2 abs_correlation_matrix col_idx j)
                   (seq 0 (Np.n_cols abs_correlation_matrix)) in
        let p := map (fun x => fadd x feps) p in
        p <- lift_opt (set1 p col_idx fzero) (IndexError "index out of bounds");;
        let total := np_sum p in
        let p := map (fun x => fdiv x total) p in
        draw (fun g => choice_p g ordered_column_indices cap p)
          (ValueError "choice")
  | None =>
      ret (firstn col_idx ordered_column_indices
           ++ skipn (col_idx + 1) ordered_column_indices)
  end.

(** The predictive-mean-matching branch of a column step. *)
Definition pmm_values (self : MICE F) (brr : loc) (X_other_cols : matrix F)
    (missing_row_mask observed_row_mask : list bool)
    (column_values_observed : list F) : Run (list F) :=
  let X_missing := take_rows X_other_cols missing_row_mask in
  col_preds_missing <- model_predict brr X_missing true;;
  let X_observed := take_rows X_other_cols observed_row_mask in
  col_preds_observed <- model_predict brr X_observed false;;
  let D := map (fun pm => map (fun po => fabs (fsub pm po)) col_preds_observed)
             col_preds_missing in
  (* k = min(n_pmm_neighbors, len(col_preds_observed) - 1); with no
     observed prediction k is -1, which argpartition rejects *)
  check (negb (length col_preds_observed =? 0))
    (ValueError "kth out of bounds");;
  let k := Nat.min (n_pmm_neighbors self) (length col_preds_observed - 1) in
  let k_nearest_indices := map (fun d => firstn k (argpartition d k)) D in
  imputed_indices <- mapM (fun neighbor_index => random_choice1 neighbor_index)
                       k_nearest_indices;;
  lift_opt (take1 column_values_observed imputed_indices)
    (IndexError "index out of bounds").

(** The posterior-predictive branch of a column step. *)
Definition col_values (brr : loc) (X_other_cols : matrix F)
    (missing_row_mask : list bool) : Run (list F) :=
  let X_other_cols_missing := take_rows X_other_cols missing_row_mask in
  d <- model_predict_dist brr X_other_cols_missing;;
  let mus := fst d in
  let sigmas_squared := snd d in
  let sigmas := map fsqrt sigmas_squared in
  draw (fun g => normal_array g mus sigmas) (ValueError "normal").

(** The body of the loop of [perform_imputation_round], for one column. *)
Definition impute_column (self : MICE F) (missing_mask observed_mask : matrix bool)
    (abs_correlation_matrix : matrix F) (n_missing_for_each_column : list nat)
    (round_index : option nat) (X_filled : matrix F) (col_idx : nat)
    : Run (matrix F) :=
  check (col_idx <? n_cols missing_mask) (IndexError "index out of bounds");;
  let missing_row_mask_for_this_col := column missing_mask col_idx in
  n_missing_for_this_col <-
    lift_opt (nth_error n_missing_for_each_column col_idx)
      (IndexError "index out of bounds");;
  if 0 <? n_missing_for_this_col then
    let observed_row_mask_for_this_col := column observed_mask col_idx in
    let column_values := column X_filled col_idx in
    let column_values_observed :=
      compress observed_row_mask_for_this_col column_values in
    other_column_indices <-
      other_columns self (n_cols X_filled) abs_correlation_matrix col_idx;;
    X_other_cols <- lift_opt (take_columns X_filled other_column_indices)
                      (IndexError "index out of bounds");;
    let X_other_cols_observed :=
      take_rows X_other_cols observed_row_mask_for_this_col in
    let brr := model self in
    model_fit brr X_other_cols_observed column_values_observed;;
    match round_index with
    | Some m => store_fitted_model m col_idx brr
    | None => ret tt
    end;;
    imputed_values <-
      (if (impute_type self =? "pmm")%string then
         (v <- pmm_values self brr X_other_cols missing_row_mask_for_this_col
                 observed_row_mask_for_this_col column_values_observed;;
          ret (Some v))
       else if (impute_type self =? "col")%string then
         (v <- col_values brr X_other_cols missing_row_mask_for_this_col;;
          ret (Some v))
       else ret None);;
    (* with neither branch taken the name is unbound at the call of clip *)
    imputed_values <- lift_opt imputed_values
                        (UnboundLocalError "imputed_values");;
    let imputed_values := clip self imputed_values in
    vals <- lift_opt
              (broadcast (count_true missing_row_mask_for_this_col)
                 (Array imputed_values))
              (ValueError "shape mismatch");;
    ret (put_column X_filled missing_row_mask_for_this_col col_idx vals)
  else ret X_filled.

(** [MICE.perform_imputation_round] *)
Definition perform_imputation_round (self : MICE F) (X_filled : matrix F)
    (missing_mask observed_mask : matrix bool) (visit_indices : list nat)
    (round_index : option nat) : Run (matrix F) :=
  (* the correlation matrix is computed once, before the loop, and read
     only when n_cols > n_nearest_columns *)
  let correlation_matrix := corrcoef X_filled in
  let abs_correlation_matrix :=
    Matrix (n_rows correlation_matrix) (n_cols correlation_matrix)
      (fun i j => fabs (at2 correlation_matrix i j)) in
  let n_missing_for_each_column := sum0 missing_mask in
  foldM
    (impute_column self missing_mask observed_mask abs_correlation_matrix
       n_missing_for_each_column round_index)
    visit_indices X_filled.

(** [np.isnan(X)] *)
Definition isnan2 (X : matrix F) : matrix bool :=
  Matrix (n_rows X) (n_cols X) (fun i j => isnan (at2 X i j)).

Definition isnan_array (X : ndarray F) : ndarray bool :=
  match X with
  | Arr1 v => Arr1 (map isnan v)
  | Arr2 m => Arr2 (isnan2 m)
  end.

(** One pass of the loop over rounds in [multiple_imputations]. *)
Definition imputation_round (self : MICE F)
    (missing_mask observed_mask : matrix bool) (visit_indices : list nat)
    (total_rounds : nat) (acc : matrix F * list (list F)) (m : nat)
    : Run (matrix F * list (list F)) :=
  let X_filled := fst acc in
  let results_list := snd acc in
  when (verbose self) (emit (EvRound (m + 1) total_rounds));;
  X_filled <- perform_imputation_round self X_filled missing_mask
                observed_mask visit_indices (Some m);;
  if n_burn_in self <=? m then
    ret (X_filled, results_list ++ [take2 X_filled missing_mask])
  else ret (X_filled, results_list).

(** [MICE.multiple_imputations] *)
Definition multiple_imputations (self : MICE F) (X : ndarray F)
    : Run (list (list F) * matrix bool) :=
  check (check_input X) SolverError;;
  check (check_missing_value_mask (isnan_array X)) SolverError;;
  match X with
  | Arr1 _ =>
      (* n_rows, n_cols = missing_mask.shape *)
      raise (ValueError "not enough values to unpack")
  | Arr2 X =>
      let missing_mask := isnan2 X in
      visit_indices <- lift_res (get_visit_indices self missing_mask);;
      modify (set_visit_indices (Some visit_indices));;
      let observed_mask := invert missing_mask in
      X_filled <- initialize self X missing_mask observed_mask visit_indices;;
      let total_rounds := n_burn_in self + n_imputations self in
      acc <- foldM
               (imputation_round self missing_mask observed_mask visit_indices
                  total_rounds)
               (seq 0 total_rounds) (X_filled, []);;
      ret (snd acc, missing_mask)
  end.

(** [imputed_arrays.mean(axis=0)]: an empty list of samples is an array of
    shape (0,), whose mean is a scalar. *)
Definition mean_axis0 (imputed_arrays : list (list F)) : value F :=
  match imputed_arrays with
  | [] => Scalar (np_mean [])
  | r :: _ =>
      Array (map (fun k => np_mean (entries imputed_arrays k))
               (seq 0 (length r)))
  end.

(** [MICE.complete] *)
Definition complete (self : MICE F) (X : ndarray F) : Run (matrix F) :=
  match X with
  | Arr1 _ =>
      when (verbose self) (emit (EvPrint "[MICE] Completing matrix"));;
      (* X.shape[1] *)
      raise (IndexError "tuple index out of range")
  | Arr2 Xm =>
      when (verbose self) (emit (EvPrint "[MICE] Completing matrix"));;
      let total_rounds := n_burn_in self + n_imputations self in
      modify (set_fitted_models
                (Some (if total_rounds =? 0 then Arr1 []
                       else Arr2 (Matrix total_rounds (n_cols Xm)
                                    (fun _ _ => model self)))));;
      let X_completed := Xm in
      r <- multiple_imputations self X;;
      let imputed_arrays := fst r in
      let missing_mask := snd r in
      let average_imputated_values := mean_axis0 imputed_arrays in
      vals <- lift_opt
                (broadcast (length (nonzero2 missing_mask))
                   average_imputated_values)
                (ValueError "shape mismatch");;
      ret (put2 X_completed missing_mask vals)
  end.

(** [fitted_models[m][col_idx]] *)
Definition load_model (fitted_models : ndarray loc) (m col_idx : nat)
    : Run loc :=
  match fitted_models with
  | Arr1 v =>
      _ <- lift_opt (nth_error v m) (IndexError "index out of bounds");;
      raise (TypeError "object is not subscriptable")
  | Arr2 a => lift_opt (get2 a m col_idx) (IndexError "index out of bounds")
  end.

(** The body of the inner loop of [complete_row], for one column. *)
Definition replay_column (self : MICE F) (fitted_models : ndarray loc)
    (missing_mask : list bool) (ordered_column_indices : list nat) (m : nat)
    (X_filled : list F) (col_idx : nat) : Run (list F) :=
  b <- lift_opt (nth_error missing_mask col_idx)
         (IndexError "index out of bounds");;
  if b : bool then
    let other_column_indices :=
      firstn col_idx ordered_column_indices
      ++ skipn (col_idx + 1) ordered_column_indices in
    X_other_cols <- lift_opt (take1 X_filled other_column_indices)
                      (IndexError "index out of bounds");;
    brr <- load_model fitted_models m col_idx;;
    let X_other_cols_missing :=
      Matrix 1 (length X_other_cols) (fun _ j => nth j X_other_cols fzero) in
    d <- model_predict_dist brr X_other_cols_missing;;
    let mus := fst d in
    let sigmas := map fsqrt (snd d) in
    mus <- lift_opt (nth_error mus 0) (IndexError "index out of bounds");;
    sigmas <- lift_opt (nth_error sigmas 0) (IndexError "index out of bounds");;
    imputed_value <- draw (fun g => normal g mus sigmas) (ValueError "normal");;
    let imputed_value := clip1 self imputed_value in
    lift_opt (set1 X_filled col_idx imputed_value)
      (IndexError "index out of bounds")
  else ret X_filled.

(** [MICE.complete_row] *)
Definition complete_row (self : MICE F) (X : ndarray F)
    (fitted_models_arg : option (ndarray loc)) (seed_arg : option Z)
    : Run (list F) :=
  self_fitted_models <- gets (fun st => fitted_models st);;
  let fitted_models := match fitted_models_arg with
                       | None => self_fitted_models
                       | Some fm => Some fm
                       end in
  match fitted_models with
  | None => raise (Exception "No saved fitted models!")
  | Some fitted_models =>
  match X with
  | Arr2 _ => raise (Exception "Input array is not row-like!")
  | Arr1 x =>
  (* X.shape[0] != self.fitted_models.shape[1] *)
  width <- match self_fitted_models with
           | None =>
               raise (AttributeError
                        "'NoneType' object has no attribute 'shape'")
           | Some (Arr1 _) => raise (IndexError "tuple index out of range")
           | Some (Arr2 a) => ret (n_cols a)
           end;;
  if negb (length x =? width) then
    raise (Exception "Input array has incorrect length!")
  else if negb (impute_type self =? "col")%string then
    raise (Exception "Rows can only be completed if impute_type is 'col'!")
  else
  let X_filled := x in
  let missing_mask := map isnan X_filled in
  let n_missing := count_true missing_mask in
  if n_missing =? 0 then
    emit (EvPrint "The input row contains no missing data!");;
    ret X_filled
  else
  let n_cols := length X_filled in
  let ordered_column_indices := seq 0 n_cols in
  saved_visit_indices <- gets (fun st => visit_indices st);;
  match saved_visit_indices with
  | None => raise (Exception "No saved visit indices!")
  | Some visit_indices =>
  saved_init_values <- gets (fun st => column_init_values st);;
  match saved_init_values with
  | None => raise (Exception "No saved initial column values!")
  | Some column_init_values =>
  X_filled <-
    foldM
      (fun X_filled col_idx =>
         b <- lift_opt (nth_error missing_mask col_idx)
                (IndexError "index out of bounds");;
         if b : bool then
           v <- lift_opt (nth_error column_init_values col_idx)
                  (IndexError "index out of bounds");;
           lift_opt (set1 X_filled col_idx v)
             (IndexError "index out of bounds")
         else ret X_filled)
      visit_indices X_filled;;
  let seed := match seed_arg with None => seed self | Some s => Some s end in
  match seed with
  | Some s => modify (set_rng (np_seed s))
  | None =>
      emit (EvPrint "Random seed not set, results will not be reproducible!")
  end;;
  acc <-
    foldM
      (fun acc m =>
         X_filled <-
           foldM
             (replay_column self fitted_models missing_mask
                ordered_column_indices m)
             visit_indices (fst acc);;
         if n_burn_in self <=? m then
           ret (X_filled, snd acc ++ [compress missing_mask X_filled])
         else ret (X_filled, snd acc))
      (seq 0 (n_burn_in self + n_imputations self)) (X_filled, []);;
  let imputed_arrays := snd acc in
  let X_completed := x in
  let average_imputed_values := mean_axis0 imputed_arrays in
  vals <- lift_opt
            (broadcast (count_true missing_mask) average_imputed_values)
            (ValueError "shape mismatch");;
  ret (put1 X_completed missing_mask vals)
  end end end end.

(** The working matrix after each of the rounds [ms], the first of which
    starts from [X_filled]. *)
Fixpoint round_matrices (self : MICE F)
    (missing_mask observed_mask : matrix bool) (visit_indices : list nat)
    (ms : list nat) (X_filled : matrix F) : Run (list (matrix F)) :=
  match ms with
  | [] => ret []
  | m :: ms' =>
      X_filled' <- perform_imputation_round self X_filled missing_mask
                     observed_mask visit_indices (Some m);;
      rest <- round_matrices self missing_mask observed_mask visit_indices
                ms' X_filled';;
      ret (X_filled' :: rest)
  end.

(** The working matrix after every round of [complete] on [X]: the calls
    of [complete], in the same order, with each round's matrix kept whole
    instead of its missing cells gathered. *)
Definition working_matrices (self : MICE F) (X : matrix F)
    : Run (list (matrix F)) :=
  let total_rounds := n_burn_in self + n_imputations self in
  modify (set_fitted_models
            (Some (if total_rounds =? 0 then Arr1 []
                   else Arr2 (Matrix total_rounds (n_cols X)
                                (fun _ _ => model self)))));;
  let missing_mask := isnan2 X in
  visit_indices <- lift_res (get_visit_indices self missing_mask);;
  modify (set_visit_indices (Some visit_indices));;
  let observed_mask := invert missing_mask in
  X_filled <- initialize self X missing_mask observed_mask visit_indices;;
  round_matrices self missing_mask observed_mask visit_indices
    (seq 0 total_rounds) X_filled.

(** Construction followed by [complete]: one run. *)
Definition seeded_run (self : MICE F) (X : ndarray F)
    : Run (matrix F) :=
  init self;; complete self X.

(** Two states with the same attributes and the same random stream. *)
Definition same_stream (st1 st2 : state F G M) : Prop :=
  fitted_models st1 = fitted_models st2 /\
  visit_indices st1 = visit_indices st2 /\
  column_init_values st1 = column_init_values st2 /\
  rng st1 = rng st2.

(** Moreover the model object [l] is in the same state in both. *)
Definition same_model (l : loc) (st1 st2 : state F G M) : Prop :=
  same_stream st1 st2 /\ heap st1 l = heap st2 l.

(** [fit] builds the fitted model from the data alone. *)
Definition fit_memoryless : Prop :=
  forall (m m' : M) (X : matrix F) (y : list F), fit m X y = fit m' X y.

(** Two states from which runs that use the model object [l] agree: the
    object is in the same state, or it does not matter what state it is
    in. *)
Definition start_alike (l : loc) (st1 st2 : state F G M) : Prop :=
  same_stream st1 st2 /\ (fit_memoryless \/ heap st1 l = heap st2 l).

(** [v] is the clipped copy of a value observed in column [c] of [X]. *)
Definition observed_copy (self : MICE F) (X : matrix F) (c : nat) (v : F)
    : Prop :=
  exists i', i' < n_rows X /\ isnan (at2 X i' c) = false /\
             v = clip1 self (at2 X i' c).

End Engine.

(* ================================================================== *)
(** ** The error measures of common.py *)

(** The elementwise square, [x ** 2]. *)
Class Elementwise (F : Type) : Type := {
  fsquare : F -> F
}.

Section Common.

Context {F : Type}.
Context {NUM : Numerics F} {ELT : Elementwise F}.

(** [X[mask]] for a 2-d boolean mask: the mask must have the shape of
    [X], or the indexing raises [IndexError]. *)
Definition select (X : matrix F) (mask : matrix bool) : result (list F) :=
  if ((n_rows mask =? n_rows X) && (n_cols mask =? n_cols X))%bool
  then Ok (take2 X mask)
  else Raise (IndexError "boolean index did not match indexed array").

(** [masked_diff = X_true[mask] - X_pred[mask]] *)
Definition masked_diff (X_true X_pred : matrix F) (mask : matrix bool)
    : result (list F) :=
  match select X_true mask with
  | Raise e => Raise e
  | Ok t =>
      match select X_pred mask with
      | Raise e => Raise e
      | Ok p => Ok (map (fun q => fsub (fst q) (snd q)) (combine t p))
      end
  end.

(** [masked_mae] *)
Definition masked_mae (X_true X_pred : matrix F) (mask : matrix bool)
    : result F :=
  match masked_diff X_true X_pred mask with
  | Raise e => Raise e
  | Ok d => Ok (np_mean (map fabs d))
  end.

(** [masked_mse] *)
Definition masked_mse (X_true X_pred : matrix F) (mask : matrix bool)
    : result F :=
  match masked_diff X_true X_pred mask with
  | Raise e => Raise e
  | Ok d => Ok (np_mean (map fsquare d))
  end.

End Common.

(* ================================================================== *)
(** ** Collaborators to run the engine on *)

(** IEEE binary64, as NumPy's float64. *)
Module Float64.

Definition of_nat (n : nat) : float :=
  PrimFloat.of_uint63 (Uint63.of_Z (Z.of_nat n)).

Definition sum (l : list float) : float := fold_left PrimFloat.add l 0%float.

Definition mean (l : list float) : float :=
  PrimFloat.div (sum l) (of_nat (length l)).

Fixpoint insert (x : float) (l : list float) : list float :=
  match l with
  | [] => [x]
  | y :: l' => if PrimFloat.ltb y x then y :: insert x l' else x :: l
  end.

Definition sort (l : list float) : list float := fold_right insert [] l.

Definition median (l : list float) : float :=
  let s := sort l in
  let n := length l in
  if Nat.even n then
    PrimFloat.div
      (PrimFloat.add (nth (n / 2 - 1) s nan) (nth (n / 2) s nan)) 2%float
  else nth (n / 2) s nan.

(** Pearson correlation of the columns. *)
Definition pearson (X : matrix float) : matrix float :=
  let centred c :=
    let col := column X c in
    let mu := mean col in
    map (fun x => PrimFloat.sub x mu) col in
  let dot u v :=
    sum (map (fun p => PrimFloat.mul (fst p) (snd p)) (combine u v)) in
  Matrix (n_cols X) (n_cols X)
    (fun i j =>
       let u := centred i in
       let v := centred j in
       PrimFloat.div (dot u v)
         (PrimFloat.sqrt (PrimFloat.mul (dot u u) (dot v v)))).

Fixpoint insert_index (d : list float) (i : nat) (l : list nat) : list nat :=
  match l with
  | [] => [i]
  | j :: l' =>
      if PrimFloat.ltb (nth j d nan) (nth i d nan)
      then j :: insert_index d i l'
      else i :: l
  end.

(** A full sort of the indices partitions them at every position. *)
Definition argsort_float (d : list float) (kth : nat) : list nat :=
  fold_right (insert_index d) [] (seq 0 (length d)).

Definition numerics : Numerics float := {|
  isnan := PrimFloat.is_nan;
  flt := PrimFloat.ltb;
  fzero := 0%float;
  feps := 0x1.ad7f29abcaf48p-24%float;
  fadd := PrimFloat.add;
  fsub := PrimFloat.sub;
  fdiv := PrimFloat.div;
  fabs := PrimFloat.abs;
  fsqrt := PrimFloat.sqrt;
  np_sum := sum;
  np_mean := mean;
  np_median := median;
  corrcoef := pearson;
  argpartition := argsort_float
|}.

End Float64.

(** A linear congruential stream standing for NumPy's generator. *)
Module Lcg.

Definition next (s : Z) : Z := ((1103515245 * s + 12345) mod 2147483648)%Z.

Definition bits (s : Z) : Z := (s / 65536)%Z.

Definition lcg_randint (g : Z) (n : nat) : nat * Z :=
  let s := next g in (Z.to_nat (bits s) mod n, s).

(** A draw among the five values mu + sigma * {-1, -1/2, 0, 1/2, 1}. *)
Definition lcg_normal (g : Z) (mu sigma : float) : option float * Z :=
  if PrimFloat.ltb sigma 0%float then (None, g)
  else
    let s := next g in
    let u := PrimFloat.div
               (PrimFloat.sub (Float64.of_nat (Z.to_nat (bits s mod 5)))
                  2%float)
               2%float in
    (Some (PrimFloat.add mu (PrimFloat.mul sigma u)), s).

Fixpoint lcg_normal_array (g : Z) (mus sigmas : list float)
    : option (list float) * Z :=
  match mus, sigmas with
  | [], [] => (Some [], g)
  | mu :: mus', sigma :: sigmas' =>
      match lcg_normal g mu sigma with
      | (Some v, g1) =>
          match lcg_normal_array g1 mus' sigmas' with
          | (Some vs, g2) => (Some (v :: vs), g2)
          | (None, g2) => (None, g2)
          end
      | (None, g1) => (None, g1)
      end
  | _, _ => (None, g)
  end.

(** The first [size] candidates of positive weight, read from a random
    offset. *)
Definition lcg_choice_p (g : Z) (a : list nat) (size : nat) (p : list float)
    : option (list nat) * Z :=
  let cand := map fst
                (filter (fun q => PrimFloat.ltb 0%float (snd q))
                   (combine a p)) in
  if length cand <? size then (None, g)
  else
    let s := next g in
    let r := Z.to_nat (bits s) mod length cand in
    (Some (firstn size (skipn r cand ++ firstn r cand)), s).

Definition random_state : RandomState float Z := {|
  np_seed := fun s => s;
  randint := lcg_randint;
  normal := lcg_normal;
  normal_array := lcg_normal_array;
  choice_p := lcg_choice_p
|}.

End Lcg.

(** A regressor that predicts the mean of the targets it was fitted on,
    with their variance; a random draw moves the prediction by one of
    the stream's normal draws. *)
Module MeanModel.

Record t : Type := Fitted { mu : float; var : float }.

Definition unfitted : t := Fitted nan nan.

Definition fit_mean (m : t) (X : matrix float) (y : list float) : option t :=
  let mu := Float64.mean y in
  Some (Fitted mu
          (Float64.mean
             (map (fun v => PrimFloat.mul (PrimFloat.sub v mu)
                              (PrimFloat.sub v mu)) y))).

Definition predict_mean (m : t) (g : Z) (X : matrix float) (random_draw : bool)
    : option (list float) * Z :=
  if random_draw then
    match Lcg.lcg_normal g (mu m) (PrimFloat.sqrt (var m)) with
    | (Some v, g') => (Some (repeat v (n_rows X)), g')
    | (None, g') => (None, g')
    end
  else (Some (repeat (mu m) (n_rows X)), g).

Definition predict_dist_mean (m : t) (X : matrix float)
    : option (list float * list float) :=
  Some (repeat (mu m) (n_rows X), repeat (var m) (n_rows X)).

Definition regressor : Regressor float Z t := {|
  fit := fit_mean;
  predict := predict_mean;
  predict_dist := predict_dist_mean
|}.

End MeanModel.

Module SolverSpec.

(** Modelled from the spec: [Solver._check_input] is not part of the
    sources; it rejects "non-tabular input". *)
Definition is_tabular (X : ndarray float) : bool := ndim X =? 2.

(** Modelled from the spec: [Solver._check_missing_value_mask] is not part
    of the sources; it rejects a "fully-missing row/column". *)
Definition no_fully_missing (mask : ndarray bool) : bool :=
  match mask with
  | Arr1 v => negb (forallb (fun b => b) v)
  | Arr2 m =>
      (forallb (fun i => negb (forallb (fun j => at2 m i j)
                                 (seq 0 (n_cols m))))
         (seq 0 (n_rows m))
       && forallb (fun j => negb (forallb (fun i => at2 m i j)
                                    (seq 0 (n_rows m))))
            (seq 0 (n_cols m)))%bool
  end.

Definition solver : SolverBase float := {|
  check_input := is_tabular;
  check_missing_value_mask := no_fully_missing
|}.

End SolverSpec.

(* ================================================================== *)
(** ** Vocabulary of the properties *)

(** The number of missing cells of column [c]. *)
Definition missing_count (mask : matrix bool) (c : nat) : nat :=
  count_true (column mask c).

(** [W'] has the shape of [W] and differs from it on missing cells only. *)
Definition frame {A} (mask : matrix bool) (W W' : matrix A) : Prop :=
  n_rows W' = n_rows W /\ n_cols W' = n_cols W /\
  forall i j, at2 mask i j = false -> at2 W' i j = at2 W i j.

(** Every slot of the array of fitted models is the reference [l]. *)
Definition all_slots (l : loc) (fm : ndarray loc) : Prop :=
  match fm with
  | Arr1 v => Forall (eq l) v
  | Arr2 a => forall m c, at2 a m c = l
  end.

(** The state holds an array of fitted models whose every slot is [l]. *)
Definition slots_alias {F G M} (l : loc) (st : state F G M) : Prop :=
  exists fm, fitted_models st = Some fm /\ all_slots l fm.

(** The exception raised for a stored mode other than "col". *)
Definition impute_type_error : exn :=
  Exception "Rows can only be completed if impute_type is 'col'!".

(** The exception raised for a row of the wrong length. *)
Definition length_error : exn :=
  Exception "Input array has incorrect length!".

(** The exception raised for an unrecognised visit sequence. *)
Definition visit_order_error : exn :=
  ValueError "Invalid choice for visit order".

(** The exception raised for an unrecognised fill method. *)
Definition fill_method_error : exn := ValueError "Invalid fill method".

(** The array [complete] assigns to [self.fitted_models] before anything
    else: one slot per round and column, each the reference [self.model]. *)
Definition initial_models {F} (self : MICE F) (n_cols : nat) : ndarray loc :=
  if n_burn_in self + n_imputations self =? 0 then Arr1 []
  else Arr2 (Matrix (n_burn_in self + n_imputations self) n_cols
               (fun _ _ => model self)).

(** The observed values of column [c] of [X], in row order. *)
Definition observed_values {F} {NUM : Numerics F} (X : matrix F) (c : nat)
    : list F :=
  compress (column (invert (isnan2 X)) c) (column X c).

(** What the fill methods "mean" and "median" compute from the observed
    values of a column. *)
Definition fill_statistic {F} {NUM : Numerics F} (self : MICE F)
    (observed : list F) : F :=
  if (fill_method self =? "mean")%string then np_mean observed
  else np_median observed.

(** Column [c] has a missing cell. *)
Definition has_missing (mask : matrix bool) (c : nat) : bool :=
  0 <? missing_count mask c.

Definition is_fit {M} (ev : event M) : bool :=
  match ev with EvFit _ _ => true | _ => false end.

(** The number of calls of [fit] among the calls emitted. *)
Definition n_fits {M} (evs : list (event M)) : nat :=
  length (filter is_fit evs).

(** Every returning run of [m] calls [fit] [n] times. *)
Definition fits_by {S M A} (n : nat) (m : Mx S (event M) A) : Prop :=
  forall st a st', returns m st a st' -> n_fits (events (m st)) = n.

(** No call of [fit]. *)
Definition no_fit {M} (ev : event M) : Prop := is_fit ev = false.

(** The calls a run of [complete] can make: it prints only when verbose,
    it calls no model object but [self.model], [predict] only in mode
    "pmm" and [predict_dist] only in mode "col". *)
Definition complete_call {F M} (self : MICE F) (ev : event M) : Prop :=
  match ev with
  | EvPrint _ => verbose self = true
  | EvRound _ _ => verbose self = true
  | EvFit brr _ => brr = model self
  | EvPredict brr _ => brr = model self /\ impute_type self = "pmm"%string
  | EvPredictDist brr => brr = model self /\ impute_type self = "col"%string
  end.

(** Every model object other than [l] is as it was. *)
Definition others_untouched {F G M} (l : loc) (st st' : state F G M) : Prop :=
  forall l', l' <> l -> heap st' l' = heap st l'.

(** The calls a run of [complete_row] can make: it prints and it calls
    [predict_dist]. *)
Definition row_call {M} (ev : event M) : Prop :=
  match ev with
  | EvPrint _ => True
  | EvPredictDist _ => True
  | _ => False
  end.

(** [st'] differs from [st] by the random stream at most. *)
Definition only_stream_moved {F G M} (st st' : state F G M) : Prop :=
  fitted_models st' = fitted_models st /\
  visit_indices st' = visit_indices st /\
  column_init_values st' = column_init_values st /\
  heap st' = heap st.

(** Two states that hold the same attributes and the same model objects;
    their random streams may differ. *)
Definition same_instance {F G M} (st1 st2 : state F G M) : Prop :=
  fitted_models st1 = fitted_models st2 /\
  visit_indices st1 = visit_indices st2 /\
  column_init_values st1 = column_init_values st2 /\
  forall l, heap st1 l = heap st2 l.

(** Moreover their random streams are at the same point. *)
Definition same_instance_and_stream {F G M} (st1 st2 : state F G M) : Prop :=
  same_instance st1 st2 /\ rng st1 = rng st2.

(** [st'] differs from [st] by [column_init_values] at most. *)
Definition only_init_values_set {F G M} (st st' : state F G M) : Prop :=
  fitted_models st' = fitted_models st /\
  visit_indices st' = visit_indices st /\
  rng st' = rng st /\
  heap st' = heap st.

(** No call at all. *)
Definition no_call {M} (ev : event M) : Prop := False.

(** An exception that is none of the guards of [complete_row]. *)
Definition not_a_guard (e : exn) : Prop := forall msg, e <> Exception msg.

(** Two states whose random streams are at the same point and in which
    the model object [l] is in the same state, or in which it does not
    matter what state it is in.  The attributes of the instance may
    differ. *)
Definition same_stream_and_model {F G M} {REG : Regressor F G M} (l : loc)
    (st1 st2 : state F G M) : Prop :=
  rng st1 = rng st2 /\ (fit_memoryless \/ heap st1 l = heap st2 l).

(** The seed [complete_row] uses: its argument, else the one of the
    constructor. *)
Definition row_seed {F} (self : MICE F) (seed_arg : option Z) : option Z :=
  match seed_arg with None => seed self | Some s => Some s end.

(** The attributes hold what a training on a matrix of [n] columns
    leaves: an array of fitted models with a row per round and [n]
    columns, a visit order over the [n] columns and [n] initial values. *)
Definition trained {F G M} (self : MICE F) (n : nat) (st : state F G M)
    : Prop :=
  (exists a, fitted_models st = Some (Arr2 a) /\
             n_rows a = n_burn_in self + n_imputations self /\
             n_cols a = n) /\
  (exists vis, visit_indices st = Some vis /\ Permutation vis (seq 0 n)) /\
  (exists civ, column_init_values st = Some civ /\ length civ = n).

(** The square of IEEE binary64. *)
Definition float_elementwise : Elementwise float := {|
  fsquare := fun x => PrimFloat.mul x x
|}.

(* ================================================================== *)
(** ** A small run *)

(** Whether a result is a value. *)
Definition is_ok {A} (r : result A) : bool :=
  match r with Ok _ => true | Raise _ => false end.

(** The value returned, or [d] after an exception. *)
Definition value_of {S E A} (o : outcome S E A) (d : A) : A :=
  match res o with Ok a => a | Raise _ => d end.

Module Example.

#[local] Existing Instance Float64.numerics.
#[local] Existing Instance Lcg.random_state.
#[local] Existing Instance MeanModel.regressor.
#[local] Existing Instance SolverSpec.solver.

(** MICE(visit_sequence="monotone", n_burn_in=1, model=a MeanModel,
    seed=42, verbose=False), the other arguments left to the caller. *)
Definition config (impute_type : string) (n_imputations : nat)
    (max_value : option float) : MICE float := {|
  visit_sequence := "monotone";
  n_imputations := n_imputations;
  n_burn_in := 1;
  n_pmm_neighbors := 5;
  impute_type := impute_type;
  model := 0;
  n_nearest_columns := None;
  fill_method := "mean";
  min_value := None;
  max_value := max_value;
  seed := Some 42%Z;
  verbose := false
|}.

(** A process in which no model was fitted yet. *)
Definition fresh : state float Z MeanModel.t :=
  State None None None 0%Z (fun _ => MeanModel.unfitted).

(** A 4 x 2 matrix with one missing cell in each column. *)
Definition X : matrix float :=
  of_rows nan 2 [[1; nan]; [2; 10]; [3; 30]; [nan; 20]]%float.

(** A 2 x 2 matrix with no missing cell. *)
Definition X_full : matrix float := of_rows nan 2 [[1; 5]; [2; 10]]%float.

Definition complete_on (self : MICE float) (X : matrix float)
    : outcome (state float Z MeanModel.t) (event MeanModel.t) (matrix float) :=
  complete self (Arr2 X) fresh.

Definition trace_on (self : MICE float) (X : matrix float)
    : outcome (state float Z MeanModel.t) (event MeanModel.t)
        (list (matrix float)) :=
  working_matrices self X fresh.

(** impute_type="col" with two sampled rounds, and with one. *)
Definition col2 : MICE float := config "col" 2 None.
Definition col1 : MICE float := config "col" 1 None.

(** impute_type="pmm" with three sampled rounds; and with one sampled
    round and max_value=5. *)
Definition pmm3 : MICE float := config "pmm" 3 None.
Definition pmm_clipped : MICE float := config "pmm" 1 (Some 5%float).

(** An instance constructed with an impute_type that is neither "col"
    nor "pmm", verbose as by default. *)
Definition bad_mode : MICE float := {|
  visit_sequence := "monotone";
  n_imputations := 1;
  n_burn_in := 1;
  n_pmm_neighbors := 5;
  impute_type := "foo";
  model := 0;
  n_nearest_columns := None;
  fill_method := "mean";
  min_value := None;
  max_value := None;
  seed := Some 42%Z;
  verbose := true
|}.

(** The models the run fitted, in the order of the calls. *)
Definition fits (evs : list (event MeanModel.t)) : list MeanModel.t :=
  flat_map (fun ev => match ev with EvFit _ m => [m] | _ => [] end) evs.

(** The row completed from the state a run left. *)
Definition row_after (self : MICE float) (X : matrix float) (x : list float)
    : outcome (state float Z MeanModel.t) (event MeanModel.t) (list float) :=
  complete_row self (Arr1 x) None None (final (complete_on self X)).

End Example.

(** More instances and inputs. *)
Module Cases.

#[local] Existing Instance Float64.numerics.
#[local] Existing Instance Lcg.random_state.
#[local] Existing Instance MeanModel.regressor.
#[local] Existing Instance SolverSpec.solver.

(** MICE(..., visit_sequence=v, init_fill_method=f, impute_type=t,
    n_pmm_neighbors=k), the other arguments as in [Example.col2]. *)
Definition variant (v f t : string) (k : nat) : MICE float := {|
  visit_sequence := v;
  n_imputations := 2;
  n_burn_in := 1;
  n_pmm_neighbors := k;
  impute_type := t;
  model := 0;
  n_nearest_columns := None;
  fill_method := f;
  min_value := None;
  max_value := None;
  seed := Some 42%Z;
  verbose := false
|}.

Definition bad_order : MICE float := variant "greek" "mean" "col" 5.
Definition bad_fill : MICE float := variant "monotone" "mode" "col" 5.
Definition random_fill : MICE float := variant "monotone" "random" "col" 5.
Definition median_fill : MICE float := variant "roman" "median" "col" 5.
Definition bad_mode : MICE float := variant "monotone" "mean" "row" 5.
Definition no_neighbors : MICE float := variant "monotone" "mean" "pmm" 0.

(** A 4 x 2 matrix with two missing cells in column 1. *)
Definition X2 : matrix float :=
  of_rows nan 2 [[1; nan]; [2; nan]; [3; 30]; [nan; 20]]%float.

(** A mask that selects the diagonal of a 2 x 2 matrix, and one that
    selects nothing. *)
Definition diagonal : matrix bool :=
  of_rows false 2 [[true; false]; [false; true]].
Definition nothing : matrix bool :=
  of_rows false 2 [[false; false]; [false; false]].

(** The process in which [complete] has assigned the array of fitted
    models of [Example.col2] for a matrix of two columns. *)
Definition started : state float Z MeanModel.t :=
  State (Some (initial_models Example.col2 2)) None None 0%Z
    (fun _ => MeanModel.unfitted).

(** A process in which the attributes hold what some earlier call left. *)
Definition stale : state float Z MeanModel.t :=
  State (Some (Arr1 [5])) (Some [0]) (Some [3%float]) 0%Z
    (fun _ => MeanModel.unfitted).

Definition A : matrix float := of_rows nan 2 [[1; 5]; [2; 10]]%float.
Definition B : matrix float := of_rows nan 2 [[3; 7]; [9; 6]]%float.
Definition A' : matrix float := of_rows nan 2 [[1; nan]; [4; 10]]%float.
Definition B' : matrix float := of_rows nan 2 [[3; 8]; [nan; 6]]%float.

End Cases.

(* ================================================================== *)
(** ** Facts about the array operations *)

Section ArrayFacts.

Context {A : Type}.

Lemma insert_by_perm key x l : Permutation (insert_by key x l) (x :: l).
Proof.
  induction l as [|y l IH]; simpl; [reflexivity|].
  destruct (key x <=? key y); [reflexivity|].
  rewrite IH. apply perm_swap.
Qed.

Lemma insert_by_in key x y l : In y (insert_by key x l) -> y = x \/ In y l.
Proof.
  intros H. apply (Permutation_in _ (insert_by_perm key x l)) in H.
  destruct H; auto.
Qed.

Lemma insert_by_sorted key x l :
  StronglySorted (fun a b => key a <= key b) l ->
  StronglySorted (fun a b => key a <= key b) (insert_by key x l).
Proof.
  induction 1 as [|y l Hs IH Hall]; simpl.
  - constructor; constructor.
  - destruct (key x <=? key y) eqn:E.
    + apply Nat.leb_le in E. constructor.
      * constructor; assumption.
      * constructor; [assumption|].
        eapply Forall_impl; [|exact Hall]. simpl. intros; lia.
    + apply Nat.leb_gt in E. constructor; [assumption|].
      apply Forall_forall. intros z Hz.
      apply insert_by_in in Hz. destruct Hz as [->|Hz]; [lia|].
      rewrite Forall_forall in Hall. auto.
Qed.

Lemma fold_insert_perm key l :
  Permutation (fold_right (insert_by key) [] l) l.
Proof.
  induction l as [|x l IH]; simpl; [reflexivity|].
  rewrite insert_by_perm. constructor. exact IH.
Qed.

Lemma fold_insert_sorted key l :
  StronglySorted (fun a b => key a <= key b) (fold_right (insert_by key) [] l).
Proof.
  induction l as [|x l IH]; simpl; [constructor|].
  apply insert_by_sorted. exact IH.
Qed.

Lemma argsort_perm a : Permutation (argsort a) (seq 0 (length a)).
Proof. apply fold_insert_perm. Qed.

Lemma argsort_sorted a :
  StronglySorted (fun i j => nth i a 0 <= nth j a 0) (argsort a).
Proof. apply (fold_insert_sorted (fun i => nth i a 0)). Qed.

Lemma strongly_sorted_snoc (R : nat -> nat -> Prop) l x :
  StronglySorted R l -> Forall (fun y => R y x) l ->
  StronglySorted R (l ++ [x]).
Proof.
  induction 1 as [|y l Hs IH Hall]; intros Hx; simpl.
  - constructor; constructor.
  - inversion Hx; subst. constructor; [auto|].
    apply Forall_app. split; [assumption|]. constructor; [assumption|constructor].
Qed.

Lemma strongly_sorted_rev (R : nat -> nat -> Prop) l :
  StronglySorted R l -> StronglySorted (fun a b => R b a) (rev l).
Proof.
  induction 1 as [|x l Hs IH Hall]; simpl; [constructor|].
  apply strongly_sorted_snoc; [exact IH|].
  apply Forall_forall. intros y Hy. apply in_rev in Hy.
  rewrite Forall_forall in Hall. auto.
Qed.

End ArrayFacts.

Section MaskFacts.

Context {A : Type}.

Lemma put1_length (v : list A) mask vals :
  length (put1 v mask vals) = length v.
Proof.
  revert mask vals. induction v as [|x v IH]; intros mask vals; simpl.
  - reflexivity.
  - destruct mask as [|b mask]; [reflexivity|].
    destruct b; [destruct vals|]; simpl; rewrite IH; reflexivity.
Qed.

Lemma put1_unselected (v : list A) mask vals i d :
  nth i mask false = false -> nth i (put1 v mask vals) d = nth i v d.
Proof.
  revert mask vals i. induction v as [|x v IH]; intros mask vals i H; simpl.
  - reflexivity.
  - destruct mask as [|b mask]; [reflexivity|].
    destruct i as [|i]; simpl in H.
    + subst b. reflexivity.
    + destruct b; [destruct vals|]; simpl; apply IH; assumption.
Qed.

Lemma count_true_cons b mask :
  count_true (b :: mask) = (if b then 1 else 0) + count_true mask.
Proof. unfold count_true. simpl. destruct b; reflexivity. Qed.

Lemma put1_selected (v : list A) mask vals i d :
  count_true mask <= length vals ->
  nth i mask false = true -> i < length v ->
  In (nth i (put1 v mask vals) d) vals.
Proof.
  revert mask vals i. induction v as [|x v IH]; intros mask vals i Hc Hm Hi;
    simpl in Hi; [lia|].
  destruct mask as [|b mask]; [destruct i; discriminate|].
  rewrite count_true_cons in Hc. simpl.
  destruct i as [|i]; simpl in Hm.
  - subst b. destruct vals as [|y vals]; simpl in *; [lia|auto].
  - destruct b.
    + destruct vals as [|y vals]; simpl in *; [lia|].
      right. apply IH; [lia|assumption|lia].
    + simpl. apply IH; [simpl in Hc; lia|assumption|lia].
Qed.

Lemma compress_in mask (v : list A) y :
  In y (compress mask v) ->
  exists i, nth i mask false = true /\ nth_error v i = Some y.
Proof.
  revert v. induction mask as [|b mask IH]; intros v H; simpl in H; [easy|].
  destruct v as [|x v]; [easy|].
  destruct b.
  - destruct H as [<-|H].
    + exists 0. auto.
    + destruct (IH _ H) as (i & H1 & H2). exists (S i). auto.
  - destruct (IH _ H) as (i & H1 & H2). exists (S i). auto.
Qed.

Lemma column_length (X : matrix A) c : length (column X c) = n_rows X.
Proof. unfold column. rewrite length_map, length_seq. reflexivity. Qed.

Lemma column_nth (X : matrix A) c i d :
  i < n_rows X -> nth i (column X c) d = at2 X i c.
Proof.
  intros H. unfold column.
  rewrite (nth_indep _ d (at2 X 0 c))
    by (rewrite length_map, length_seq; assumption).
  rewrite (map_nth (fun i => at2 X i c) (seq 0 (n_rows X)) 0 i).
  rewrite seq_nth by assumption. reflexivity.
Qed.

Lemma column_nth_error (X : matrix A) c i y :
  nth_error (column X c) i = Some y -> i < n_rows X /\ y = at2 X i c.
Proof.
  intros H.
  assert (Hi : i < n_rows X).
  { rewrite <- (column_length X c). apply nth_error_Some. congruence. }
  split; [assumption|].
  rewrite (nth_error_nth' _ y) in H by (rewrite column_length; assumption).
  injection H as <-. apply column_nth. assumption.
Qed.

Lemma take1_in (v : list A) idxs l :
  take1 v idxs = Some l -> forall x, In x l -> In x v.
Proof.
  revert l. induction idxs as [|i idxs IH]; intros l H x Hx; simpl in H.
  - injection H as <-. destruct Hx.
  - destruct (nth_error v i) as [y|] eqn:E; [|discriminate].
    destruct (take1 v idxs) as [ys|]; [|discriminate].
    injection H as <-. destruct Hx as [<-|Hx].
    + eapply nth_error_In; eassumption.
    + eapply IH; [reflexivity|assumption].
Qed.

Lemma broadcast_length n (v : value A) l :
  broadcast n v = Some l -> length l = n.
Proof.
  destruct v as [a|l']; simpl.
  - intros [= <-]. apply repeat_length.
  - destruct l' as [|a [|b l'']].
    + destruct n; simpl; [intros [= <-]; reflexivity | discriminate].
    + intros [= <-]. apply repeat_length.
    + destruct (length (a :: b :: l'') =? n) eqn:E; [|discriminate].
      intros [= <-]. apply Nat.eqb_eq. exact E.
Qed.

Lemma broadcast_array_in n (l' l : list A) x :
  broadcast n (Array l') = Some l -> In x l -> In x l'.
Proof.
  simpl. destruct l' as [|a [|b l'']].
  - destruct (length (@nil A) =? n); [|discriminate].
    intros [= <-]. auto.
  - intros [= <-] H. apply repeat_spec in H. subst. left. reflexivity.
  - destruct (length (a :: b :: l'') =? n); [|discriminate].
    intros [= <-]. auto.
Qed.

End MaskFacts.

Lemma mask_column_true (mask : matrix bool) c i :
  nth i (column mask c) false = true <-> i < n_rows mask /\ at2 mask i c = true.
Proof.
  split.
  - intros H. destruct (Nat.lt_ge_cases i (n_rows mask)) as [Hi|Hi].
    + rewrite column_nth in H by assumption. auto.
    + rewrite nth_overflow in H by (rewrite column_length; assumption).
      discriminate.
  - intros [Hi H]. rewrite column_nth by assumption. exact H.
Qed.

Lemma count_true_pos mask i : nth i mask false = true -> 0 < count_true mask.
Proof.
  revert i. induction mask as [|b mask IH]; intros i H.
  - destruct i; discriminate.
  - rewrite count_true_cons. destruct i as [|i]; simpl in H.
    + subst. simpl. lia.
    + specialize (IH _ H). lia.
Qed.

Lemma count_true_zero mask i : count_true mask = 0 -> nth i mask false = false.
Proof.
  intros H. destruct (nth i mask false) eqn:E; [|reflexivity].
  apply count_true_pos in E. lia.
Qed.

Lemma nonzero2_in (mask : matrix bool) i j :
  In (i, j) (nonzero2 mask) <->
  i < n_rows mask /\ j < n_cols mask /\ at2 mask i j = true.
Proof.
  unfold nonzero2. rewrite in_flat_map. split.
  - intros (i' & Hi & H). apply in_flat_map in H. destruct H as (j' & Hj & H).
    apply in_seq in Hi. apply in_seq in Hj.
    destruct (at2 mask i' j') eqn:E; [|destruct H].
    destruct H as [[= -> ->]|[]]. repeat split; [lia|lia|assumption].
  - intros (Hi & Hj & H). exists i. split; [apply in_seq; lia|].
    apply in_flat_map. exists j. split; [apply in_seq; lia|].
    rewrite H. left. reflexivity.
Qed.

Lemma index_of_some p l k : index_of p l = Some k -> nth_error l k = Some p.
Proof.
  revert k. induction l as [|q l IH]; intros k H; simpl in H; [discriminate|].
  destruct ((fst p =? fst q) && (snd p =? snd q))%bool eqn:E.
  - injection H as <-. apply andb_prop in E. destruct E as [E1 E2].
    apply Nat.eqb_eq in E1. apply Nat.eqb_eq in E2.
    destruct p, q; simpl in *. subst. reflexivity.
  - destruct (index_of p l) as [k'|]; [|discriminate].
    injection H as <-. simpl. auto.
Qed.

Lemma index_of_none p l : index_of p l = None -> ~ In p l.
Proof.
  induction l as [|q l IH]; intros H; simpl in H; [easy|].
  destruct ((fst p =? fst q) && (snd p =? snd q))%bool eqn:E; [discriminate|].
  destruct (index_of p l); [discriminate|].
  intros [->|Hin]; [|apply IH; auto].
  rewrite !Nat.eqb_refl in E. discriminate.
Qed.

Lemma index_of_in p l : In p l -> exists k, index_of p l = Some k.
Proof.
  intros H. destruct (index_of p l) as [k|] eqn:E; [eauto|].
  apply index_of_none in E. contradiction.
Qed.

(* ================================================================== *)
(** ** Facts about runs *)

Section MonadFacts.

Context {S E : Type}.

Local Abbreviation returns := (returns (S := S) (E := E)).

Lemma returns_bind {A B} (m : Mx S E A) (f : A -> Mx S E B) st b st2 :
  returns (bind m f) st b st2 ->
  exists a st1, returns m st a st1 /\ returns (f a) st1 b st2.
Proof.
  unfold returns, bind. intros [H1 H2].
  destruct (m st) as [[a|e] st1 ev1]; simpl in *; [|discriminate].
  exists a, st1. destruct (f a st1) as [r s2 ev2]; simpl in *. auto.
Qed.

Lemma bind_returns {A B} (m : Mx S E A) (f : A -> Mx S E B) st a st1 b st2 :
  returns m st a st1 -> returns (f a) st1 b st2 ->
  returns (bind m f) st b st2.
Proof.
  unfold returns, bind. intros [H1 H2] [H3 H4].
  destruct (m st) as [[a'|e] s1 ev1]; simpl in *; [|discriminate].
  injection H1 as ->. subst s1.
  destruct (f a st1) as [r s2 ev2]; simpl in *. auto.
Qed.

Lemma returns_ret {A} (a b : A) st st' :
  returns (ret a) st b st' <-> b = a /\ st' = st.
Proof.
  unfold returns, ret; simpl. split.
  - intros [[= ->] <-]. auto.
  - intros [-> ->]. auto.
Qed.

Lemma returns_raise {A} e st (a : A) st' : ~ returns (raise e) st a st'.
Proof. unfold returns, raise; simpl. intros [H _]. discriminate. Qed.

Lemma returns_emit ev st u st' : returns (emit ev) st u st' <-> st' = st.
Proof.
  unfold returns, emit; simpl. destruct u. split.
  - intros [_ <-]. reflexivity.
  - intros ->. auto.
Qed.

Lemma returns_gets {A} (f : S -> A) st a st' :
  returns (gets f) st a st' <-> a = f st /\ st' = st.
Proof.
  unfold returns, gets; simpl. split.
  - intros [[= <-] <-]. auto.
  - intros [-> ->]. auto.
Qed.

Lemma returns_modify (f : S -> S) st u st' :
  returns (modify f) st u st' <-> st' = f st.
Proof.
  unfold returns, modify; simpl. destruct u. split.
  - intros [_ <-]. reflexivity.
  - intros ->. auto.
Qed.

Lemma returns_lift_opt {A} (o : option A) e st a st' :
  returns (lift_opt o e) st a st' <-> o = Some a /\ st' = st.
Proof.
  unfold lift_opt. destruct o as [x|].
  - rewrite returns_ret. split; intros [H1 H2]; split; congruence.
  - split; [intros H; exfalso; eapply returns_raise; exact H|].
    intros [H _]. discriminate.
Qed.

Lemma returns_lift_res {A} (r : result A) st a st' :
  returns (lift_res r) st a st' <-> r = Ok a /\ st' = st.
Proof.
  unfold lift_res. destruct r as [x|e].
  - rewrite (returns_ret x a st st'). split; intros [H1 H2]; split; congruence.
  - split; [intros H; exfalso; eapply returns_raise; exact H|].
    intros [H _]. discriminate.
Qed.

Lemma returns_check b e st u st' :
  returns (check b e) st u st' <-> b = true /\ st' = st.
Proof.
  unfold check. destruct b.
  - rewrite returns_ret. destruct u. split; intros [H1 H2]; auto.
  - split; [intros H; exfalso; eapply returns_raise; exact H|].
    intros [H _]. discriminate.
Qed.

Lemma returns_when b (m : Mx S E unit) st u st' :
  returns (when b m) st u st' ->
  (b = true /\ returns m st u st') \/ (b = false /\ st' = st).
Proof.
  unfold when. destruct b; [auto|].
  rewrite returns_ret. intros [_ ->]. auto.
Qed.

(** An invariant of the accumulator and the state, indexed by the part of
    the list already visited, holds after the loop. *)
Lemma foldM_invariant {A B} (P : list A -> B -> S -> Prop)
    (body : B -> A -> Mx S E B) l :
  (forall pre a acc s acc' s',
      In a l -> P pre acc s -> returns (body acc a) s acc' s' ->
      P (pre ++ [a]) acc' s') ->
  forall b0 st b st',
    P [] b0 st -> returns (foldM body l b0) st b st' -> P l b st'.
Proof.
  intros Hstep.
  assert (H : forall l', incl l' l -> forall pre b0 st b st',
             P pre b0 st -> returns (foldM body l' b0) st b st' ->
             P (pre ++ l') b st').
  { induction l' as [|a l' IH]; intros Hincl pre b0 st b st' HP Hr;
      cbn [foldM] in Hr.
    - apply (proj1 (returns_ret _ _ _ _)) in Hr. destruct Hr as [-> ->].
      rewrite app_nil_r. exact HP.
    - apply returns_bind in Hr. destruct Hr as (acc' & s' & H1 & H2).
      replace (pre ++ a :: l') with ((pre ++ [a]) ++ l')
        by (rewrite <- app_assoc; reflexivity).
      apply (IH (fun x Hx => Hincl x (or_intror Hx)) _ acc' s'); [|exact H2].
      eapply Hstep; [apply Hincl; left; reflexivity|exact HP|exact H1]. }
  intros b0 st b st' HP Hr. apply (H l (incl_refl l) [] b0 st b st' HP Hr).
Qed.


Lemma preserves_bind {A B} (I : S -> Prop) (m : Mx S E A)
    (f : A -> Mx S E B) :
  preserves I m -> (forall a, preserves I (f a)) -> preserves I (bind m f).
Proof.
  intros Hm Hf st b st' H HI. apply returns_bind in H.
  destruct H as (a & s1 & H1 & H2). eapply Hf; [exact H2|].
  eapply Hm; eassumption.
Qed.

Lemma preserves_ret {A} (I : S -> Prop) (a : A) :
  preserves I (ret (S := S) (E := E) a).
Proof.
  intros st b st' H HI. apply (proj1 (returns_ret _ _ _ _)) in H.
  destruct H as [_ ->]. exact HI.
Qed.

Lemma preserves_raise {A} (I : S -> Prop) e :
  preserves I (raise (S := S) (E := E) (A := A) e).
Proof. intros st b st' H. exfalso. exact (returns_raise H). Qed.

Lemma preserves_emit (I : S -> Prop) (ev : E) :
  preserves I (emit (S := S) ev).
Proof.
  intros st b st' H HI. apply (proj1 (returns_emit _ _ _ _)) in H.
  subst. exact HI.
Qed.

Lemma preserves_gets {A} (I : S -> Prop) (f : S -> A) :
  preserves I (gets (E := E) f).
Proof.
  intros st b st' H HI. apply (proj1 (returns_gets _ _ _ _)) in H.
  destruct H as [_ ->]. exact HI.
Qed.

Lemma preserves_modify (I : S -> Prop) (f : S -> S) :
  (forall st, I st -> I (f st)) -> preserves I (modify (E := E) f).
Proof.
  intros Hf st b st' H HI. apply (proj1 (returns_modify _ _ _ _)) in H.
  subst. apply Hf. exact HI.
Qed.

Lemma preserves_lift_opt {A} (I : S -> Prop) (o : option A) e :
  preserves I (lift_opt (S := S) (E := E) o e).
Proof.
  intros st b st' H HI. apply (proj1 (returns_lift_opt _ _ _ _ _)) in H.
  destruct H as [_ ->]. exact HI.
Qed.

Lemma preserves_lift_res {A} (I : S -> Prop) (r : result A) :
  preserves I (lift_res (S := S) (E := E) r).
Proof.
  intros st b st' H HI. apply (proj1 (returns_lift_res _ _ _ _)) in H.
  destruct H as [_ ->]. exact HI.
Qed.

Lemma preserves_check (I : S -> Prop) b e :
  preserves I (check (S := S) (E := E) b e).
Proof.
  intros st u st' H HI. apply (proj1 (returns_check _ _ _ _ _)) in H.
  destruct H as [_ ->]. exact HI.
Qed.

Lemma preserves_when (I : S -> Prop) b (m : Mx S E unit) :
  preserves I m -> preserves I (when b m).
Proof.
  intros Hm. unfold when. destruct b; [exact Hm|apply preserves_ret].
Qed.

Lemma preserves_foldM {A B} (I : S -> Prop) (body : B -> A -> Mx S E B) l :
  (forall acc a, preserves I (body acc a)) ->
  forall b0, preserves I (foldM body l b0).
Proof.
  intros Hbody. induction l as [|a l IH]; intros b0; cbn [foldM].
  - apply preserves_ret.
  - apply preserves_bind; [apply Hbody|exact IH].
Qed.

Lemma preserves_mapM {A B} (I : S -> Prop) (f : A -> Mx S E B) l :
  (forall a, preserves I (f a)) -> preserves I (mapM f l).
Proof.
  intros Hf. induction l as [|a l IH]; cbn [mapM].
  - apply preserves_ret.
  - apply preserves_bind; [apply Hf|]. intros b.
    apply preserves_bind; [exact IH|]. intros bs. apply preserves_ret.
Qed.

Lemma related_bind {A B} (R R' R'' : S -> S -> Prop) (m : Mx S E A)
    (f : A -> Mx S E B) :
  related R R' m -> (forall a, related R' R'' (f a)) ->
  related R R'' (bind m f).
Proof.
  intros Hm Hf st1 st2 HR. destruct (Hm st1 st2 HR) as (H1 & H2 & H3).
  unfold bind.
  destruct (m st1) as [[a|e] s1 ev1]; destruct (m st2) as [[a'|e'] s2 ev2];
    simpl in *; try discriminate.
  - injection H1 as <-. subst ev2.
    destruct (Hf a s1 s2 (H3 a eq_refl)) as (H4 & H5 & H6).
    destruct (f a s1) as [r1 t1 w1]; destruct (f a s2) as [r2 t2 w2];
      simpl in *.
    subst. repeat split. exact H6.
  - injection H1 as <-. subst. repeat split. discriminate.
Qed.

Lemma related_weaken {A} (R0 R R' R0' : S -> S -> Prop) (m : Mx S E A) :
  related R R' m ->
  (forall st1 st2, R0 st1 st2 -> R st1 st2) ->
  (forall st1 st2, R' st1 st2 -> R0' st1 st2) ->
  related R0 R0' m.
Proof.
  intros Hm Hpre Hpost st1 st2 HR.
  destruct (Hm st1 st2 (Hpre _ _ HR)) as (H1 & H2 & H3).
  split; [exact H1|]. split; [exact H2|].
  intros a Ha. apply Hpost. exact (H3 a Ha).
Qed.

Lemma related_ret {A} (R : S -> S -> Prop) (a : A) :
  related R R (ret (S := S) (E := E) a).
Proof. intros st1 st2 HR. simpl. auto. Qed.

Lemma related_raise {A} (R R' : S -> S -> Prop) e :
  related R R' (raise (S := S) (E := E) (A := A) e).
Proof. intros st1 st2 HR. simpl. repeat split. discriminate. Qed.

Lemma related_emit (R : S -> S -> Prop) (ev : E) :
  related R R (emit (S := S) ev).
Proof. intros st1 st2 HR. simpl. auto. Qed.

Lemma related_gets {A} (R : S -> S -> Prop) (f : S -> A) :
  (forall st1 st2, R st1 st2 -> f st1 = f st2) ->
  related R R (gets (E := E) f).
Proof. intros Hf st1 st2 HR. simpl. rewrite (Hf _ _ HR). auto. Qed.

Lemma related_modify (R R' : S -> S -> Prop) (f : S -> S) :
  (forall st1 st2, R st1 st2 -> R' (f st1) (f st2)) ->
  related R R' (modify (E := E) f).
Proof. intros Hf st1 st2 HR. simpl. auto. Qed.

Lemma related_lift_opt {A} (R : S -> S -> Prop) (o : option A) e :
  related R R (lift_opt (S := S) (E := E) o e).
Proof.
  unfold lift_opt. destruct o; [apply related_ret|apply related_raise].
Qed.

Lemma related_lift_res {A} (R : S -> S -> Prop) (r : result A) :
  related R R (lift_res (S := S) (E := E) r).
Proof.
  unfold lift_res. destruct r; [apply related_ret|apply related_raise].
Qed.

Lemma related_check (R : S -> S -> Prop) b e :
  related R R (check (S := S) (E := E) b e).
Proof.
  unfold check. destruct b; [apply related_ret|apply related_raise].
Qed.

Lemma related_when (R : S -> S -> Prop) b (m : Mx S E unit) :
  related R R m -> related R R (when b m).
Proof.
  intros Hm. unfold when. destruct b; [exact Hm|apply related_ret].
Qed.

Lemma related_foldM {A B} (R : S -> S -> Prop) (body : B -> A -> Mx S E B) l :
  (forall acc a, related R R (body acc a)) ->
  forall b0, related R R (foldM body l b0).
Proof.
  intros Hbody. induction l as [|a l IH]; intros b0; cbn [foldM].
  - apply related_ret.
  - eapply related_bind; [apply Hbody|exact IH].
Qed.

Lemma related_mapM {A B} (R : S -> S -> Prop) (f : A -> Mx S E B) l :
  (forall a, related R R (f a)) -> related R R (mapM f l).
Proof.
  intros Hf. induction l as [|a l IH]; cbn [mapM].
  - apply related_ret.
  - eapply related_bind; [apply Hf|]. intros b.
    eapply related_bind; [exact IH|]. intros bs. apply related_ret.
Qed.

End MonadFacts.

(** Inverts a hypothesis that a composed run returns. *)
Ltac returns_inv H :=
  match type of H with
  | returns (bind _ _) _ _ _ =>
      let a := fresh "a" in
      let s := fresh "s" in
      let H1 := fresh "Hr" in
      let H2 := fresh "Hr" in
      apply returns_bind in H; destruct H as (a & s & H1 & H2);
      returns_inv H1; returns_inv H2
  | returns (ret _) _ _ _ =>
      apply (proj1 (returns_ret _ _ _ _)) in H; destruct H as [? ?]; subst
  | returns (raise _) _ _ _ => exfalso; exact (returns_raise H)
  | returns (emit _) _ _ _ => apply (proj1 (returns_emit _ _ _ _)) in H; subst
  | returns (gets _) _ _ _ =>
      apply (proj1 (returns_gets _ _ _ _)) in H; destruct H as [? ?]; subst
  | returns (modify _) _ _ _ => apply (proj1 (returns_modify _ _ _ _)) in H; subst
  | returns (lift_opt _ _) _ _ _ =>
      apply (proj1 (returns_lift_opt _ _ _ _ _)) in H; destruct H as [? ?]; subst
  | returns (lift_res _) _ _ _ =>
      apply (proj1 (returns_lift_res _ _ _ _)) in H; destruct H as [? ?]; subst
  | returns (check _ _) _ _ _ =>
      apply (proj1 (returns_check _ _ _ _ _)) in H; destruct H as [? ?]; subst
  | _ => idtac
  end.

(** One step of a proof that a composed run keeps a property. *)
Ltac preserves_step :=
  lazymatch goal with
  | |- preserves _ (bind _ _) => apply preserves_bind; [|intros ?]
  | |- preserves _ (ret _) => apply preserves_ret
  | |- preserves _ (raise _) => apply preserves_raise
  | |- preserves _ (emit _) => apply preserves_emit
  | |- preserves _ (gets _) => apply preserves_gets
  | |- preserves _ (lift_opt _ _) => apply preserves_lift_opt
  | |- preserves _ (lift_res _) => apply preserves_lift_res
  | |- preserves _ (check _ _) => apply preserves_check
  | |- preserves _ (when _ _) => apply preserves_when
  | |- preserves _ (foldM _ _ _) => apply preserves_foldM; intros ? ?
  | |- preserves _ (mapM _ _) => apply preserves_mapM; intros ?
  | |- preserves _ (if ?b then _ else _) => destruct b
  | |- preserves _ (match ?x with _ => _ end) => destruct x
  end.

(** One step of a proof that two runs of a composed computation agree,
    the relation between the states staying the same. *)
Ltac related_step :=
  lazymatch goal with
  | |- related ?R ?R (bind _ _) =>
      apply related_bind with (R' := R); [|intros ?]
  | |- related _ _ (ret _) => apply related_ret
  | |- related _ _ (raise _) => apply related_raise
  | |- related _ _ (emit _) => apply related_emit
  | |- related _ _ (lift_opt _ _) => apply related_lift_opt
  | |- related _ _ (lift_res _) => apply related_lift_res
  | |- related _ _ (check _ _) => apply related_check
  | |- related _ _ (when _ _) => apply related_when
  | |- related _ _ (foldM _ _ _) => apply related_foldM; intros ? ?
  | |- related _ _ (mapM _ _) => apply related_mapM; intros ?
  | |- related _ _ (if ?b then _ else _) => destruct b
  | |- related _ _ (match ?x with _ => _ end) => destruct x
  end.

(** Splits on the test of a conditional that returns. *)
Ltac returns_if :=
  match goal with
  | H : returns (if ?b then _ else _) _ _ _ |- _ =>
      destruct b eqn:?; returns_inv H
  end.

(* ================================================================== *)
(** ** Properties of the engine *)

Lemma strongly_sorted_in_impl (R R' : nat -> nat -> Prop) l :
  (forall a b, In a l -> In b l -> R a b -> R' a b) ->
  StronglySorted R l -> StronglySorted R' l.
Proof.
  intros H Hs. induction Hs as [|x l Hs IH Hall]; constructor.
  - apply IH. intros a b Ha Hb. apply H; right; assumption.
  - rewrite Forall_forall in *. intros y Hy.
    apply H; [left; reflexivity|right; assumption|auto].
Qed.

Lemma sum0_nth mask c :
  c < n_cols mask -> nth c (sum0 mask) 0 = missing_count mask c.
Proof.
  intros H. unfold sum0, missing_count.
  rewrite (nth_indep _ 0 (count_true (column mask 0)))
    by (rewrite length_map, length_seq; assumption).
  rewrite (map_nth (fun c => count_true (column mask c)) (seq 0 (n_cols mask))
             0 c).
  rewrite seq_nth by assumption. reflexivity.
Qed.

Lemma sum0_length mask : length (sum0 mask) = n_cols mask.
Proof. unfold sum0. rewrite length_map, length_seq. reflexivity. Qed.

Lemma argsort_sum0_sorted mask :
  StronglySorted (fun a b => missing_count mask a <= missing_count mask b)
    (argsort (sum0 mask)).
Proof.
  apply strongly_sorted_in_impl
    with (R := fun i j => nth i (sum0 mask) 0 <= nth j (sum0 mask) 0).
  - intros a b Ha Hb H.
    apply (Permutation_in _ (argsort_perm _)) in Ha, Hb.
    rewrite sum0_length in Ha, Hb. apply in_seq in Ha, Hb.
    rewrite !sum0_nth in H by lia. exact H.
  - apply argsort_sorted.
Qed.

Section VisitOrder.

Context {F : Type}.

(** C7.  For a recognised strategy [get_visit_indices] returns a
    permutation of the column indices [0 .. n_cols-1]: "roman" is the
    ascending order, "arabic" the descending one, "monotone" lists the
    columns by descending number of missing cells and "revmonotone" by
    ascending number of missing cells. *)
Theorem get_visit_indices_spec (self : MICE F) (missing_mask : matrix bool) :
  In (visit_sequence self) ["roman"; "arabic"; "monotone"; "revmonotone"]%string ->
  exists vis,
    get_visit_indices self missing_mask = Ok vis /\
    Permutation vis (seq 0 (n_cols missing_mask)) /\
    (visit_sequence self = "roman"%string ->
       vis = seq 0 (n_cols missing_mask)) /\
    (visit_sequence self = "arabic"%string ->
       vis = rev (seq 0 (n_cols missing_mask))) /\
    (visit_sequence self = "monotone"%string ->
       StronglySorted
         (fun a b => missing_count missing_mask a >= missing_count missing_mask b)
         vis) /\
    (visit_sequence self = "revmonotone"%string ->
       StronglySorted
         (fun a b => missing_count missing_mask a <= missing_count missing_mask b)
         vis).
Proof.
  intros H. unfold get_visit_indices.
  pose proof (argsort_perm (sum0 missing_mask)) as Hp.
  rewrite sum0_length in Hp.
  simpl in H. destruct H as [H|[H|[H|[H|[]]]]]; rewrite <- H; simpl.
  - eexists. split; [reflexivity|]. repeat split; try discriminate; auto.
  - eexists. split; [reflexivity|].
    repeat split; try discriminate; auto.
    symmetry. apply Permutation_rev.
  - eexists. split; [reflexivity|].
    repeat split; try discriminate.
    + rewrite <- Hp. symmetry. apply Permutation_rev.
    + intros _. apply (strongly_sorted_rev (argsort_sum0_sorted missing_mask)).
  - eexists. split; [reflexivity|].
    repeat split; try discriminate; auto.
    intros _. apply argsort_sum0_sorted.
Qed.

(** An unrecognised strategy is rejected. *)
Lemma get_visit_indices_ok_in (self : MICE F) mask vis :
  get_visit_indices self mask = Ok vis ->
  Permutation vis (seq 0 (n_cols mask)).
Proof.
  unfold get_visit_indices. intros H.
  pose proof (argsort_perm (sum0 mask)) as Hp. rewrite sum0_length in Hp.
  destruct (visit_sequence self =? "roman")%string.
  { injection H as <-. reflexivity. }
  destruct (visit_sequence self =? "arabic")%string.
  { injection H as <-. symmetry. apply Permutation_rev. }
  destruct (visit_sequence self =? "monotone")%string.
  { injection H as <-. rewrite <- Hp. symmetry. apply Permutation_rev. }
  destruct (visit_sequence self =? "revmonotone")%string.
  { injection H as <-. exact Hp. }
  discriminate.
Qed.

End VisitOrder.

Lemma frame_refl {A} mask (W : matrix A) : frame mask W W.
Proof. unfold frame. auto. Qed.

Lemma frame_trans {A} mask (W1 W2 W3 : matrix A) :
  frame mask W1 W2 -> frame mask W2 W3 -> frame mask W1 W3.
Proof.
  unfold frame. intros (H1 & H2 & H3) (H4 & H5 & H6).
  repeat split; try congruence.
  intros i j H. rewrite H6, H3 by assumption. reflexivity.
Qed.

Lemma put_column_other {A} (W : matrix A) rowmask c vals i j :
  j <> c -> at2 (put_column W rowmask c vals) i j = at2 W i j.
Proof.
  intros H. simpl. destruct (j =? c) eqn:E; [|reflexivity].
  apply Nat.eqb_eq in E. contradiction.
Qed.

Lemma put_column_unselected {A} (W : matrix A) mask c vals i j :
  at2 mask i j = false ->
  at2 (put_column W (column mask c) c vals) i j = at2 W i j.
Proof.
  intros H. simpl. destruct (j =? c) eqn:E; [|reflexivity].
  apply Nat.eqb_eq in E. subst j.
  rewrite put1_unselected.
  - destruct (Nat.lt_ge_cases i (n_rows W)) as [Hi|Hi].
    + apply column_nth. assumption.
    + apply nth_overflow. rewrite column_length. assumption.
  - destruct (nth i (column mask c) false) eqn:E; [|reflexivity].
    apply mask_column_true in E. destruct E as [_ E]. congruence.
Qed.

Lemma put_column_frame {A} (W : matrix A) mask c vals :
  frame mask W (put_column W (column mask c) c vals).
Proof.
  unfold frame. repeat split. intros i j H.
  apply put_column_unselected. assumption.
Qed.

Section Frame.

Context {F G M : Type}.
Context {NUM : Numerics F} {RND : RandomState F G} {REG : Regressor F G M}
        {SOL : SolverBase F}.

Lemma impute_column_frame (self : MICE F) mask omask absC counts ri W c
    (st : state F G M) W' st' :
  returns (impute_column self mask omask absC counts ri W c) st W' st' ->
  frame mask W W'.
Proof.
  unfold impute_column. intros H. returns_inv H. returns_if.
  - apply put_column_frame.
  - apply frame_refl.
Qed.

Lemma perform_imputation_round_frame (self : MICE F) W mask omask vis ri
    (st : state F G M) W' st' :
  returns (perform_imputation_round self W mask omask vis ri) st W' st' ->
  frame mask W W'.
Proof.
  unfold perform_imputation_round. intros H.
  refine (foldM_invariant (fun _ acc _ => frame mask W acc) _ _ _ _ _ H).
  - intros pre a acc s acc' s' _ HP Hstep.
    eapply frame_trans; [exact HP|]. eapply impute_column_frame. exact Hstep.
  - apply frame_refl.
Qed.

Lemma initialize_frame (self : MICE F) X mask omask vis
    (st : state F G M) W st' :
  returns (initialize self X mask omask vis) st W st' -> frame mask X W.
Proof.
  unfold initialize. intros H.
  apply returns_bind in H. destruct H as (u & s1 & _ & H).
  refine (foldM_invariant (fun _ acc _ => frame mask X acc) _ _ _ _ _ H).
  - intros pre a acc s acc' s' _ HP Hstep.
    eapply frame_trans; [exact HP|]. clear HP H.
    returns_inv Hstep. returns_if.
    + apply put_column_frame.
    + apply frame_refl.
  - apply frame_refl.
Qed.

End Frame.

Lemma broadcast_array_exact {A} (l : list A) :
  broadcast (length l) (Array l) = Some l.
Proof.
  simpl. destruct l as [|a [|b l]]; simpl.
  - reflexivity.
  - reflexivity.
  - rewrite Nat.eqb_refl. reflexivity.
Qed.

Lemma nth_map_seq {B} (f : nat -> B) n k d :
  k < n -> nth k (map f (seq 0 n)) d = f k.
Proof.
  intros H. rewrite (nth_indep _ d (f 0))
    by (rewrite length_map, length_seq; assumption).
  rewrite (map_nth f (seq 0 n) 0 k). rewrite seq_nth by assumption.
  reflexivity.
Qed.

Lemma entries_take2 {A} (Ws : list (matrix A)) mask k i j :
  nth_error (nonzero2 mask) k = Some (i, j) ->
  entries (map (fun W => take2 W mask) Ws) k = map (fun W => at2 W i j) Ws.
Proof.
  intros H. unfold entries. induction Ws as [|W Ws IH]; simpl; [reflexivity|].
  rewrite IH. unfold take2 at 1. rewrite nth_error_map, H. reflexivity.
Qed.

Lemma returns_when_emit {S E} b (ev : E) (st : S) u st' :
  returns (when b (emit ev)) st u st' -> st' = st.
Proof.
  intros H. apply returns_when in H. destruct H as [[_ H]|[_ H]].
  - apply (proj1 (returns_emit _ _ _ _)) in H. exact H.
  - exact H.
Qed.

Section Aggregation.

Context {F G M : Type}.
Context {NUM : Numerics F} {RND : RandomState F G} {REG : Regressor F G M}
        {SOL : SolverBase F}.

Lemma imputation_rounds_trace (self : MICE F) mask omask vis total n :
  forall a W rs (st : state F G M) acc st',
    returns (foldM (imputation_round self mask omask vis total) (seq a n)
               (W, rs)) st acc st' ->
    exists Ws,
      returns (round_matrices self mask omask vis (seq a n) W) st Ws st' /\
      length Ws = n /\
      snd acc = rs ++ map (fun W => take2 W mask)
                        (skipn (n_burn_in self - a) Ws).
Proof.
  induction n as [|n IH]; intros a W rs st acc st' H; cbn [seq foldM] in H.
  - apply (proj1 (returns_ret _ _ _ _)) in H. destruct H as [-> ->].
    exists []. cbn [seq round_matrices]. split; [apply returns_ret; auto|].
    split; [reflexivity|]. rewrite skipn_nil. simpl. rewrite app_nil_r.
    reflexivity.
  - apply returns_bind in H. destruct H as (acc1 & s1 & H1 & H2).
    unfold imputation_round in H1. cbn [fst snd] in H1.
    apply returns_bind in H1. destruct H1 as (u & s0 & Hw & H1).
    apply returns_when_emit in Hw. subst s0.
    apply returns_bind in H1. destruct H1 as (W1 & s2 & Hp & H1).
    assert (Hacc : acc1 = (W1, if n_burn_in self <=? a
                               then rs ++ [take2 W1 mask] else rs)
                   /\ s1 = s2).
    { destruct (n_burn_in self <=? a);
        apply (proj1 (returns_ret _ _ _ _)) in H1; destruct H1; subst; auto. }
    destruct Hacc as [-> ->]. clear H1.
    destruct (IH _ _ _ _ _ _ H2) as (Ws & Hr & Hlen & Hs).
    exists (W1 :: Ws). cbn [seq round_matrices]. split.
    { eapply bind_returns; [exact Hp|].
      eapply bind_returns; [exact Hr|]. apply returns_ret. auto. }
    split; [simpl; congruence|].
    rewrite Hs. destruct (n_burn_in self <=? a) eqn:E.
    + apply Nat.leb_le in E.
      replace (n_burn_in self - a) with 0 by lia.
      replace (n_burn_in self - S a) with 0 by lia.
      simpl. rewrite <- app_assoc. reflexivity.
    + apply Nat.leb_gt in E.
      replace (n_burn_in self - a) with (S (n_burn_in self - S a)) by lia.
      reflexivity.
Qed.

(** What a returning call of [complete] went through. *)
Lemma complete_inv (self : MICE F) (X : matrix F) (st : state F G M) Y st' :
  returns (complete self (Arr2 X)) st Y st' ->
  exists vis W0 s0 Ws vals,
    get_visit_indices self (isnan2 X) = Ok vis /\
    returns (initialize self X (isnan2 X) (invert (isnan2 X)) vis)
      (set_visit_indices (Some vis)
         (set_fitted_models
            (Some (if n_burn_in self + n_imputations self =? 0 then Arr1 []
                   else Arr2 (Matrix (n_burn_in self + n_imputations self)
                                (n_cols X) (fun _ _ => model self))))
            st))
      W0 s0 /\
    returns (round_matrices self (isnan2 X) (invert (isnan2 X)) vis
               (seq 0 (n_burn_in self + n_imputations self)) W0) s0 Ws st' /\
    length Ws = n_burn_in self + n_imputations self /\
    broadcast (length (nonzero2 (isnan2 X)))
      (mean_axis0 (map (fun W => take2 W (isnan2 X))
                     (skipn (n_burn_in self) Ws))) = Some vals /\
    Y = put2 X (isnan2 X) vals.
Proof.
  unfold complete, multiple_imputations. intros H.
  apply returns_bind in H. destruct H as (u0 & s0 & Hw & H).
  apply returns_when_emit in Hw. subst s0.
  returns_inv H.
  match goal with
  | H : returns (foldM _ _ _) _ _ _ |- _ =>
      apply imputation_rounds_trace in H;
      destruct H as (Ws & Htrace & Hlen & Hsamples)
  end.
  rewrite Nat.sub_0_r in Hsamples. simpl in Hsamples.
  match goal with
  | H : broadcast _ _ = Some _ |- _ =>
      cbn [fst snd] in H; rewrite Hsamples in H
  end.
  cbn [fst snd]. eauto 12.
Qed.

Lemma working_matrices_intro (self : MICE F) (X : matrix F)
    (st : state F G M) vis W0 s0 Ws st' :
  get_visit_indices self (isnan2 X) = Ok vis ->
  returns (initialize self X (isnan2 X) (invert (isnan2 X)) vis)
    (set_visit_indices (Some vis)
       (set_fitted_models
          (Some (if n_burn_in self + n_imputations self =? 0 then Arr1 []
                 else Arr2 (Matrix (n_burn_in self + n_imputations self)
                              (n_cols X) (fun _ _ => model self))))
          st))
    W0 s0 ->
  returns (round_matrices self (isnan2 X) (invert (isnan2 X)) vis
             (seq 0 (n_burn_in self + n_imputations self)) W0) s0 Ws st' ->
  returns (working_matrices self X) st Ws st'.
Proof.
  intros Hv Hi Hr. unfold working_matrices.
  eapply bind_returns with (a := tt); [apply returns_modify; reflexivity|].
  eapply bind_returns;
    [apply returns_lift_res; split; [exact Hv|reflexivity]|].
  eapply bind_returns with (a := tt); [apply returns_modify; reflexivity|].
  eapply bind_returns; [exact Hi|]. exact Hr.
Qed.

(** The cell [(i, j)] of the matrix assembled by [complete]. *)
Lemma put2_mean_axis0 (X : matrix F) (Ws : list (matrix F)) vals i j :
  broadcast (length (nonzero2 (isnan2 X)))
    (mean_axis0 (map (fun W => take2 W (isnan2 X)) Ws)) = Some vals ->
  i < n_rows X -> j < n_cols X ->
  at2 (put2 X (isnan2 X) vals) i j =
    if isnan (at2 X i j) then np_mean (map (fun W => at2 W i j) Ws)
    else at2 X i j.
Proof.
  intros Hb Hi Hj. cbn [put2 at2].
  destruct (isnan (at2 X i j)) eqn:Enan.
  - assert (Hin : In (i, j) (nonzero2 (isnan2 X))).
    { apply nonzero2_in. simpl. auto. }
    destruct (index_of_in _ _ Hin) as (k & Hk). rewrite Hk.
    apply index_of_some in Hk.
    assert (Hklt : k < length (nonzero2 (isnan2 X))).
    { apply nth_error_Some. congruence. }
    destruct Ws as [|W1 Ws1].
    + simpl in Hb. injection Hb as <-.
      rewrite nth_indep with (d' := np_mean [])
        by (rewrite repeat_length; assumption).
      rewrite nth_repeat. reflexivity.
    + cbn [map mean_axis0] in Hb.
      match type of Hb with
      | broadcast _ (Array ?l) = Some _ =>
          assert (Hl : length l = length (nonzero2 (isnan2 X)))
            by (rewrite length_map, length_seq; unfold take2;
                rewrite length_map; reflexivity);
          rewrite <- Hl, broadcast_array_exact in Hb; injection Hb as <-
      end.
      rewrite nth_map_seq by (unfold take2; rewrite length_map; assumption).
      f_equal.
      apply (entries_take2 (W1 :: Ws1) _ _ Hk).
  - destruct (index_of (i, j) (nonzero2 (isnan2 X))) as [k|] eqn:Ek;
      [|reflexivity].
    apply index_of_some in Ek. apply nth_error_In in Ek.
    apply nonzero2_in in Ek. simpl in Ek. destruct Ek as (_ & _ & Ek).
    congruence.
Qed.

(** C1.  When [complete] returns, its result has the shape of the input,
    holds at every missing position (NaN in the input) the mean of the
    values that position had in the working matrix after each of the
    [n_imputations] rounds that follow the burn-in, and holds the input
    at every other position. *)
Theorem complete_mean_of_samples (self : MICE F) (X : matrix F)
    (st : state F G M) Y st' :
  returns (complete self (Arr2 X)) st Y st' ->
  exists Ws,
    returns (working_matrices self X) st Ws st' /\
    length Ws = n_burn_in self + n_imputations self /\
    length (skipn (n_burn_in self) Ws) = n_imputations self /\
    n_rows Y = n_rows X /\ n_cols Y = n_cols X /\
    forall i j, i < n_rows X -> j < n_cols X ->
      at2 Y i j =
        if isnan (at2 X i j)
        then np_mean (map (fun W => at2 W i j) (skipn (n_burn_in self) Ws))
        else at2 X i j.
Proof.
  intros H. apply complete_inv in H.
  destruct H as (vis & W0 & s0 & Ws & vals & Hv & Hi & Hr & Hlen & Hb & ->).
  exists Ws. split; [eapply working_matrices_intro; eassumption|].
  split; [exact Hlen|].
  split; [rewrite length_skipn, Hlen; lia|].
  split; [reflexivity|]. split; [reflexivity|].
  intros i j Hi' Hj. apply put2_mean_axis0; assumption.
Qed.

End Aggregation.

Lemma put2_unselected {A} (X : matrix A) mask vals i j :
  at2 mask i j = false -> at2 (put2 X mask vals) i j = at2 X i j.
Proof.
  intros H. cbn [put2 at2].
  destruct (index_of (i, j) (nonzero2 mask)) as [k|] eqn:Ek; [|reflexivity].
  apply index_of_some in Ek. apply nth_error_In in Ek.
  apply nonzero2_in in Ek. destruct Ek as (_ & _ & Ek). congruence.
Qed.

Section ObservedCells.

Context {F G M : Type}.
Context {NUM : Numerics F} {RND : RandomState F G} {REG : Regressor F G M}
        {SOL : SolverBase F}.

Lemma round_matrices_frame (self : MICE F) mask omask vis ms :
  forall W (st : state F G M) Ws st',
    returns (round_matrices self mask omask vis ms W) st Ws st' ->
    Forall (frame mask W) Ws.
Proof.
  induction ms as [|m ms IH]; intros W st Ws st' H;
    cbn [round_matrices] in H; returns_inv H.
  - constructor.
  - match goal with
    | H1 : returns (perform_imputation_round _ _ _ _ _ _) _ _ _,
      H2 : returns (round_matrices _ _ _ _ _ _) _ _ _ |- _ =>
        apply perform_imputation_round_frame in H1; apply IH in H2;
        constructor; [exact H1|];
        eapply Forall_impl; [|exact H2];
        intros W2 HW2; eapply frame_trans; eassumption
    end.
Qed.

(** C8.  Through a run of [complete] every cell observed in the input
    keeps its value: the working matrix after each round, and the matrix
    returned, hold the input's value at every position that is not NaN in
    the input. *)
Theorem observed_cells_preserved (self : MICE F) (X : matrix F)
    (st : state F G M) Y st' :
  returns (complete self (Arr2 X)) st Y st' ->
  exists Ws,
    returns (working_matrices self X) st Ws st' /\
    (forall W, In W Ws ->
       forall i j, isnan (at2 X i j) = false -> at2 W i j = at2 X i j) /\
    (forall i j, isnan (at2 X i j) = false -> at2 Y i j = at2 X i j).
Proof.
  intros H. apply complete_inv in H.
  destruct H as (vis & W0 & s0 & Ws & vals & Hv & Hi & Hr & Hlen & Hb & ->).
  exists Ws. split; [eapply working_matrices_intro; eassumption|].
  split.
  - apply initialize_frame in Hi. apply round_matrices_frame in Hr.
    intros W HW i j Hobs. rewrite Forall_forall in Hr.
    destruct (frame_trans Hi (Hr W HW)) as (_ & _ & Hcells).
    apply Hcells. exact Hobs.
  - intros i j Hobs. apply put2_unselected. exact Hobs.
Qed.

End ObservedCells.

Lemma sum0_nth_error mask c :
  c < n_cols mask -> nth_error (sum0 mask) c = Some (missing_count mask c).
Proof.
  intros H. rewrite (nth_error_nth' _ 0) by (rewrite sum0_length; assumption).
  rewrite sum0_nth by assumption. reflexivity.
Qed.


Lemma nonzero2_nil mask :
  (forall i j, i < n_rows mask -> j < n_cols mask -> at2 mask i j = false) ->
  nonzero2 mask = [].
Proof.
  intros H. destruct (nonzero2 mask) as [|[i j] l] eqn:E; [reflexivity|].
  assert (Hin : In (i, j) (nonzero2 mask)) by (rewrite E; left; reflexivity).
  apply nonzero2_in in Hin. destruct Hin as (Hi & Hj & Hm).
  rewrite H in Hm by assumption. discriminate.
Qed.


Section NoMissing.

Context {F G M : Type}.
Context {NUM : Numerics F} {RND : RandomState F G} {REG : Regressor F G M}
        {SOL : SolverBase F}.

Lemma get_visit_indices_total (self : MICE F) mask :
  In (visit_sequence self)
    ["roman"; "arabic"; "monotone"; "revmonotone"]%string ->
  exists vis, get_visit_indices self mask = Ok vis.
Proof.
  intros H. unfold get_visit_indices. simpl in H.
  destruct H as [H|[H|[H|[H|[]]]]]; rewrite <- H; simpl; eauto.
Qed.




End NoMissing.


Section NoMissingComplete.

Context {F G M : Type}.
Context {NUM : Numerics F} {RND : RandomState F G} {REG : Regressor F G M}
        {SOL : SolverBase F}.


End NoMissingComplete.

Section MeanMatching.

Context {F G M : Type}.
Context {NUM : Numerics F} {RND : RandomState F G} {REG : Regressor F G M}
        {SOL : SolverBase F}.

Lemma pmm_values_in (self : MICE F) brr Xo mm om cvo (st : state F G M) v st' :
  returns (pmm_values self brr Xo mm om cvo) st v st' ->
  forall y, In y v -> In y cvo.
Proof.
  unfold pmm_values. intros H. returns_inv H.
  match goal with
  | H : take1 _ _ = Some _ |- _ => exact (take1_in _ _ H)
  end.
Qed.

Lemma impute_column_other (self : MICE F) mask omask absC counts ri W c
    (st : state F G M) W' st' :
  returns (impute_column self mask omask absC counts ri W c) st W' st' ->
  forall i j, j <> c -> at2 W' i j = at2 W i j.
Proof.
  unfold impute_column. intros H i j Hj. returns_inv H. returns_if.
  - apply put_column_other. exact Hj.
  - reflexivity.
Qed.

Lemma impute_column_pmm (self : MICE F) (X : matrix F) absC ri W c
    (st : state F G M) W' st' :
  impute_type self = "pmm"%string ->
  frame (isnan2 X) X W ->
  returns (impute_column self (isnan2 X) (invert (isnan2 X)) absC
             (sum0 (isnan2 X)) ri W c) st W' st' ->
  forall i, i < n_rows X -> isnan (at2 X i c) = true ->
            observed_copy self X c (at2 W' i c).
Proof.
  intros Hpmm (Hrows & Hcols & Hobs) H i Hi Hnan.
  unfold impute_column in H. rewrite Hpmm, String.eqb_refl in H.
  cbv iota in H. returns_inv H.
  match goal with
  | H : (c <? n_cols (isnan2 X)) = true |- _ =>
      apply Nat.ltb_lt in H; rename H into Hc
  end.
  match goal with
  | H : nth_error (sum0 (isnan2 X)) c = Some _ |- _ =>
      rewrite sum0_nth_error in H by exact Hc; injection H as <-
  end.
  assert (Hsel : nth i (column (isnan2 X) c) false = true).
  { apply mask_column_true. simpl. auto. }
  returns_if.
  - repeat match goal with
           | H : Some _ = Some _ |- _ => injection H as H; subst
           end.
    match goal with
    | H : returns (pmm_values _ _ _ _ _ _) _ _ _ |- _ =>
        pose proof (pmm_values_in H) as Hin
    end.
    match goal with
    | H : broadcast _ (Array _) = Some ?vals |- _ =>
        pose proof (broadcast_length _ _ H) as Hlen;
        pose proof (fun x => broadcast_array_in _ _ x H) as Hvals
    end.
    cbn [put_column at2]. rewrite Nat.eqb_refl.
    match goal with
    | |- observed_copy _ _ _ (nth i (put1 ?v ?m ?vals) ?d) =>
        assert (Hput : In (nth i (put1 v m vals) d) vals)
          by (apply put1_selected;
              [rewrite Hlen; reflexivity | exact Hsel
              | rewrite column_length, Hrows; exact Hi])
    end.
    apply Hvals in Hput. unfold clip in Hput. apply in_map_iff in Hput.
    destruct Hput as (y & Hy & Hyin). apply Hin in Hyin.
    apply compress_in in Hyin. destruct Hyin as (i' & Hi' & Hnth).
    apply mask_column_true in Hi'. destruct Hi' as [Hi'1 Hi'2].
    simpl in Hi'1, Hi'2. apply negb_true_iff in Hi'2.
    apply column_nth_error in Hnth. destruct Hnth as [_ ->].
    exists i'. split; [exact Hi'1|]. split; [exact Hi'2|].
    rewrite <- Hy. f_equal. apply Hobs. simpl. exact Hi'2.
  - match goal with
    | H : (0 <? missing_count _ _) = false |- _ =>
        apply Nat.ltb_ge in H; unfold missing_count in H;
        apply count_true_pos in Hsel; lia
    end.
Qed.

End MeanMatching.

Section MeanMatchingRun.

Context {F G M : Type}.
Context {NUM : Numerics F} {RND : RandomState F G} {REG : Regressor F G M}
        {SOL : SolverBase F}.

Lemma perform_imputation_round_pmm (self : MICE F) (X : matrix F) W vis ri
    (st : state F G M) W' st' :
  impute_type self = "pmm"%string ->
  frame (isnan2 X) X W ->
  returns (perform_imputation_round self W (isnan2 X) (invert (isnan2 X))
             vis ri) st W' st' ->
  forall c, In c vis ->
  forall i, i < n_rows X -> isnan (at2 X i c) = true ->
            observed_copy self X c (at2 W' i c).
Proof.
  intros Hpmm Hframe H. unfold perform_imputation_round in H.
  refine (proj2 (foldM_invariant
            (fun pre acc _ =>
               frame (isnan2 X) X acc /\
               forall c, In c pre ->
               forall i, i < n_rows X -> isnan (at2 X i c) = true ->
                         observed_copy self X c (at2 acc i c))
            _ _ _ _ _ H)).
  - intros pre a acc s acc' s' _ [Hf Hpre] Hstep. split.
    + eapply frame_trans; [exact Hf|]. eapply impute_column_frame. exact Hstep.
    + intros c Hc i Hi Hnan. destruct (Nat.eq_dec c a) as [->|Hne].
      * eapply impute_column_pmm; eassumption.
      * rewrite (impute_column_other Hstep i Hne).
        apply in_app_or in Hc. destruct Hc as [Hc|[Hc|[]]]; [|congruence].
        apply Hpre; assumption.
  - split; [exact Hframe|]. intros c [].
Qed.

Lemma round_matrices_pmm (self : MICE F) (X : matrix F) vis ms :
  impute_type self = "pmm"%string ->
  forall W0 (st : state F G M) Ws st',
    frame (isnan2 X) X W0 ->
    returns (round_matrices self (isnan2 X) (invert (isnan2 X)) vis ms W0)
      st Ws st' ->
    forall W, In W Ws ->
    forall c, In c vis ->
    forall i, i < n_rows X -> isnan (at2 X i c) = true ->
              observed_copy self X c (at2 W i c).
Proof.
  intros Hpmm. induction ms as [|m ms IH]; intros W0 st Ws st' Hf H;
    cbn [round_matrices] in H; returns_inv H.
  - intros W [].
  - match goal with
    | H1 : returns (perform_imputation_round _ _ _ _ _ _) _ ?W1 _,
      H2 : returns (round_matrices _ _ _ _ _ _) _ _ _ |- _ =>
        intros W [<-|HW];
        [ eapply perform_imputation_round_pmm; eassumption
        | eapply IH; [|exact H2|exact HW];
          eapply frame_trans;
          [exact Hf|eapply perform_imputation_round_frame; exact H1] ]
    end.
Qed.

Lemma clip1_unbounded (self : MICE F) x :
  min_value self = None -> max_value self = None -> clip1 self x = x.
Proof. unfold clip1. intros -> ->. reflexivity. Qed.

(** C3, as amended.  In a run of [complete] with impute_type "pmm", the
    value every round leaves in a missing cell of column [c] is the
    clipped copy of a value observed in column [c] of the input, and is
    that observed value itself when neither [min_value] nor [max_value]
    is set.  (The matrix returned holds the mean of these values over the
    sampled rounds.) *)
Theorem pmm_round_values_observed (self : MICE F) (X : matrix F)
    (st : state F G M) Y st' :
  impute_type self = "pmm"%string ->
  returns (complete self (Arr2 X)) st Y st' ->
  exists Ws,
    returns (working_matrices self X) st Ws st' /\
    forall W, In W Ws ->
    forall i j, i < n_rows X -> j < n_cols X -> isnan (at2 X i j) = true ->
    exists i',
      i' < n_rows X /\ isnan (at2 X i' j) = false /\
      at2 W i j = clip1 self (at2 X i' j) /\
      (min_value self = None -> max_value self = None ->
       at2 W i j = at2 X i' j).
Proof.
  intros Hpmm H. apply complete_inv in H.
  destruct H as (vis & W0 & s0 & Ws & vals & Hv & Hi & Hr & Hlen & Hb & ->).
  exists Ws. split; [eapply working_matrices_intro; eassumption|].
  intros W HW i j Hi' Hj Hnan.
  apply initialize_frame in Hi.
  assert (Hin : In j vis).
  { apply (Permutation_in _ (Permutation_sym (get_visit_indices_ok_in _ _ Hv))).
    apply in_seq. simpl. lia. }
  edestruct round_matrices_pmm as (i' & H1 & H2 & H3);
    [exact Hpmm|exact Hi|exact Hr|exact HW|exact Hin|exact Hi'|exact Hnan|].
  exists i'. repeat split; try assumption.
  intros Hmin Hmax. rewrite H3. apply clip1_unbounded; assumption.
Qed.

End MeanMatchingRun.

Section Agreement.

Context {F G M : Type}.
Context {NUM : Numerics F} {RND : RandomState F G} {REG : Regressor F G M}
        {SOL : SolverBase F}.

Variable l : loc.

Local Abbreviation weak := (start_alike (F := F) (G := G) (M := M) l).
Local Abbreviation strong := (same_model (F := F) (G := G) (M := M) l).

Lemma strong_weak st1 st2 : strong st1 st2 -> weak st1 st2.
Proof. intros [H1 H2]. split; auto. Qed.

Lemma related_draw_weak {A} (f : G -> option A * G) e :
  related weak weak (draw f e).
Proof.
  intros st1 st2 ((H1 & H2 & H3 & H4) & H5). unfold draw. rewrite H4.
  destruct (f (rng st2)) as [[a|] g]; simpl; repeat split; auto;
    discriminate.
Qed.

Lemma related_draw_strong {A} (f : G -> option A * G) e :
  related strong strong (draw f e).
Proof.
  intros st1 st2 ((H1 & H2 & H3 & H4) & H5). unfold draw. rewrite H4.
  destruct (f (rng st2)) as [[a|] g]; simpl; repeat split; auto;
    discriminate.
Qed.

(** After [fit] the model object is in the same state in both runs. *)
Lemma related_model_fit X y : related weak strong (model_fit l X y).
Proof.
  intros st1 st2 ((H1 & H2 & H3 & H4) & H5).
  assert (Hfit : fit (heap st1 l) X y = fit (heap st2 l) X y).
  { destruct H5 as [H5|H5]; [apply H5|rewrite H5; reflexivity]. }
  unfold model_fit, bind, gets. cbn [res final events]. rewrite Hfit.
  destruct (fit (heap st2 l) X y) as [m'|]; simpl.
  - repeat split; auto; cbn [set_model heap];
      rewrite ?Nat.eqb_refl; auto.
  - split; [reflexivity|]. split; [reflexivity|].
    intros a Ha. discriminate Ha.
Qed.

Lemma related_random_choice {A} (a : list A) n :
  related weak weak (random_choice a n).
Proof.
  unfold random_choice. repeat related_step. apply related_draw_weak.
Qed.

Lemma related_random_choice1 {A} (a : list A) :
  related strong strong (random_choice1 a).
Proof.
  unfold random_choice1. repeat related_step. apply related_draw_strong.
Qed.

Lemma related_store_column_init_value c v :
  related weak weak (store_column_init_value c v).
Proof.
  unfold store_column_init_value.
  apply related_bind with (R' := weak).
  { apply related_gets. intros st1 st2 ((H1 & H2 & H3 & H4) & H5). exact H3. }
  intros civ. repeat related_step.
  all: apply related_modify;
    intros st1 st2 ((H1 & H2 & H3 & H4) & H5); repeat split; auto.
Qed.

Lemma related_store_fitted_model m c :
  related strong strong (store_fitted_model m c l).
Proof.
  unfold store_fitted_model.
  apply related_bind with (R' := strong).
  { apply related_gets. intros st1 st2 ((H1 & H2 & H3 & H4) & H5). exact H1. }
  intros fm. repeat related_step.
  apply related_modify.
  intros st1 st2 ((H1 & H2 & H3 & H4) & H5); repeat split; auto.
Qed.

Lemma related_model_predict X b : related strong strong (model_predict l X b).
Proof.
  unfold model_predict.
  apply related_bind with (R' := strong).
  { apply related_gets. intros st1 st2 (_ & H5). exact H5. }
  intros m. repeat related_step. apply related_draw_strong.
Qed.

Lemma related_model_predict_dist X :
  related strong strong (model_predict_dist l X).
Proof.
  unfold model_predict_dist.
  apply related_bind with (R' := strong).
  { apply related_gets. intros st1 st2 (_ & H5). exact H5. }
  intros m. repeat related_step.
Qed.

Lemma related_other_columns (self : MICE F) n absC c :
  related weak weak (other_columns self n absC c).
Proof.
  unfold other_columns. repeat related_step. apply related_draw_weak.
Qed.

Lemma related_pmm_values (self : MICE F) Xo mm om cvo :
  related strong strong (pmm_values self l Xo mm om cvo).
Proof.
  unfold pmm_values. repeat related_step.
  all: first [apply related_model_predict | apply related_random_choice1].
Qed.

Lemma related_col_values Xo mm : related strong strong (col_values l Xo mm).
Proof.
  unfold col_values. repeat related_step.
  - apply related_model_predict_dist.
  - apply related_draw_strong.
Qed.

Lemma related_impute_column (self : MICE F) mask omask absC counts ri W c :
  model self = l ->
  related weak weak (impute_column self mask omask absC counts ri W c).
Proof.
  intros Hl. unfold impute_column. rewrite Hl.
  related_step; [related_step|]. related_step; [related_step|].
  related_step; [|related_step].
  related_step; [apply related_other_columns|].
  related_step; [related_step|].
  apply related_bind with (R' := strong); [apply related_model_fit|].
  intros u. apply related_weaken with (R := strong) (R' := strong);
    [|auto|apply strong_weak].
  repeat related_step.
  all: first [ apply related_store_fitted_model | apply related_pmm_values
             | apply related_col_values ].
Qed.

Lemma related_perform_imputation_round (self : MICE F) W mask omask vis ri :
  model self = l ->
  related weak weak (perform_imputation_round self W mask omask vis ri).
Proof.
  intros Hl. unfold perform_imputation_round. apply related_foldM.
  intros acc a. apply related_impute_column. exact Hl.
Qed.

Lemma related_initialize (self : MICE F) X mask omask vis :
  related weak weak (initialize self X mask omask vis).
Proof.
  unfold initialize. repeat related_step.
  all: first [ apply related_random_choice
             | apply related_store_column_init_value
             | apply related_modify;
               intros st1 st2 ((H1 & H2 & H3 & H4) & H5);
               repeat split; auto ].
Qed.

Lemma related_complete (self : MICE F) X :
  model self = l -> related weak weak (complete self X).
Proof.
  intros Hl. unfold complete, multiple_imputations, imputation_round.
  repeat related_step.
  all: first [ apply related_initialize
             | apply related_perform_imputation_round; exact Hl
             | apply related_modify;
               intros st1 st2 ((H1 & H2 & H3 & H4) & H5);
               repeat split; auto ].
Qed.

End Agreement.

Section Seeding.

Context {F G M : Type}.
Context {NUM : Numerics F} {RND : RandomState F G} {REG : Regressor F G M}
        {SOL : SolverBase F}.

(** C6.  Two runs on the same input, each made of the construction of an
    instance with the same configuration and the same seed followed by
    [complete], have the same result (the same completed matrix, or the
    same exception) and make the same calls, provided the model object is
    in the same state at the start of both or [fit] builds the model from
    the data alone.  What the random stream, the attributes of the
    instance and the other model objects held before does not matter. *)
Theorem seeded_runs_agree (self : MICE F) (X : ndarray F) (s : Z)
    (st1 st2 : state F G M) :
  seed self = Some s ->
  fit_memoryless \/ heap st1 (model self) = heap st2 (model self) ->
  res (seeded_run self X st1) = res (seeded_run self X st2) /\
  events (seeded_run self X st1) = events (seeded_run self X st2).
Proof.
  intros Hseed Hmodel.
  assert (Hrel : related (start_alike (model self))
                         (start_alike (model self)) (complete self X))
    by (apply related_complete; reflexivity).
  destruct (Hrel (State None None None (np_seed s) (heap st1))
                 (State None None None (np_seed s) (heap st2)))
    as (H1 & H2 & _).
  { split; [repeat split|exact Hmodel]. }
  unfold seeded_run, bind, init, modify. cbn [res final events].
  rewrite Hseed.
  destruct (complete self X (State None None None (np_seed s) (heap st1)))
    as [r1 t1 w1].
  destruct (complete self X (State None None None (np_seed s) (heap st2)))
    as [r2 t2 w2].
  simpl in *. subst. auto.
Qed.

End Seeding.

Section RowGuards.

Context {F G M : Type}.
Context {NUM : Numerics F} {RND : RandomState F G} {REG : Regressor F G M}
        {SOL : SolverBase F}.

(** C9, as amended.  With a stored impute_type other than "col",
    [complete_row] raises before any computation: the state is left as it
    was and no call is made.  The exception is the one of the impute-type
    guard whenever the guards before it pass, that is when the instance
    holds a 2-d array of fitted models whose number of columns is the
    length of a 1-d input. *)
Theorem complete_row_rejects_other_modes (self : MICE F) (X : ndarray F)
    (fitted_models_arg : option (ndarray loc)) (seed_arg : option Z)
    (st : state F G M) :
  (impute_type self =? "col")%string = false ->
  exists e,
    complete_row self X fitted_models_arg seed_arg st = Out (Raise e) st [] /\
    (forall x a, X = Arr1 x -> fitted_models st = Some (Arr2 a) ->
                 length x = n_cols a -> e = impute_type_error).
Proof.
  intros Hmode. unfold complete_row, bind, gets. cbn [res final events].
  destruct (fitted_models st) as [[v|a]|] eqn:Efm.
  - (* the instance holds a 1-d array *)
    assert (Hsome : exists fm,
              match fitted_models_arg with
              | Some fm0 => Some fm0
              | None => Some (Arr1 v)
              end = Some fm)
      by (destruct fitted_models_arg; eauto).
    destruct Hsome as (fm & ->).
    destruct X as [x|Xm]; cbn.
    + eexists. split; [reflexivity|]. intros x0 a _ [=].
    + eexists. split; [reflexivity|]. intros x0 a [=].
  - assert (Hsome : exists fm,
              match fitted_models_arg with
              | Some fm0 => Some fm0
              | None => Some (Arr2 a)
              end = Some fm)
      by (destruct fitted_models_arg; eauto).
    destruct Hsome as (fm & ->).
    destruct X as [x|Xm]; cbn.
    + destruct (length x =? n_cols a) eqn:Elen; cbn.
      * rewrite Hmode. cbn. eexists. split; [reflexivity|].
        intros; reflexivity.
      * eexists. split; [reflexivity|].
        intros x0 a0 [= <-] [= <-] Hlen.
        apply Nat.eqb_neq in Elen. contradiction.
    + eexists. split; [reflexivity|]. intros x0 a0 [=].
  - destruct fitted_models_arg as [fm|].
    + destruct X as [x|Xm]; cbn.
      * eexists. split; [reflexivity|]. intros x0 a _ [=].
      * eexists. split; [reflexivity|]. intros x0 a [=].
    + cbn. eexists. split; [reflexivity|]. intros x0 a _ [=].
Qed.

End RowGuards.

Section Aliasing.

Context {F G M : Type}.
Context {NUM : Numerics F} {RND : RandomState F G} {REG : Regressor F G M}
        {SOL : SolverBase F}.

Variable l : loc.

Local Abbreviation keeps :=
  (preserves (E := event M) (slots_alias (F := F) (G := G) (M := M) l)).

Lemma keeps_same_models {A} (m : Mx (state F G M) (event M) A) :
  (forall st a st', returns m st a st' ->
                    fitted_models st' = fitted_models st) ->
  keeps m.
Proof.
  intros H st a st' Hr (fm & Hfm & Hall). exists fm.
  rewrite (H _ _ _ Hr). auto.
Qed.

Lemma keeps_modify (f : state F G M -> state F G M) :
  (forall st, fitted_models (f st) = fitted_models st) -> keeps (modify f).
Proof.
  intros H. apply preserves_modify. intros st (fm & Hfm & Hall).
  exists fm. rewrite H. auto.
Qed.

Lemma keeps_draw {A} (f : G -> option A * G) e : keeps (draw f e).
Proof.
  apply keeps_same_models. unfold returns, draw. intros st a st' [H1 H2].
  destruct (f (rng st)) as [[x|] g]; simpl in *; subst; reflexivity.
Qed.

Lemma keeps_model_fit brr X y : keeps (model_fit brr X y).
Proof.
  unfold model_fit. repeat preserves_step.
  apply keeps_modify. reflexivity.
Qed.

Lemma keeps_model_predict brr X b : keeps (model_predict brr X b).
Proof. unfold model_predict. repeat preserves_step. apply keeps_draw. Qed.

Lemma keeps_model_predict_dist brr X : keeps (model_predict_dist brr X).
Proof. unfold model_predict_dist. repeat preserves_step. Qed.

Lemma keeps_random_choice {A} (a : list A) n : keeps (random_choice a n).
Proof. unfold random_choice. repeat preserves_step. apply keeps_draw. Qed.

Lemma keeps_random_choice1 {A} (a : list A) : keeps (random_choice1 a).
Proof. unfold random_choice1. repeat preserves_step. apply keeps_draw. Qed.

Lemma keeps_store_column_init_value c v :
  keeps (store_column_init_value c v).
Proof.
  unfold store_column_init_value. repeat preserves_step.
  all: try (apply keeps_modify; reflexivity).
Qed.

(** Storing the reference [l] in a slot leaves every slot equal to [l]. *)
Lemma keeps_store_fitted_model m c : keeps (store_fitted_model m c l).
Proof.
  intros st u st' H (fm & Hfm & Hall). unfold store_fitted_model in H.
  apply returns_bind in H. destruct H as (x & s1 & H1 & H2).
  apply (proj1 (returns_gets _ _ _ _)) in H1. destruct H1 as [-> ->].
  rewrite Hfm in H2. destruct fm as [v|a]; returns_inv H2.
  match goal with
  | H : set2 a m c l = Some ?a' |- _ =>
      exists (Arr2 a'); split; [reflexivity|];
      unfold set2 in H;
      destruct ((m <? n_rows a) && (c <? n_cols a))%bool; [|discriminate];
      injection H as <-
  end.
  simpl. intros m0 c0. destruct ((m0 =? m) && (c0 =? c))%bool; [reflexivity|].
  apply Hall.
Qed.

Lemma keeps_other_columns (self : MICE F) n absC c :
  keeps (other_columns self n absC c).
Proof.
  unfold other_columns. repeat preserves_step. apply keeps_draw.
Qed.

Lemma keeps_pmm_values (self : MICE F) brr Xo mm om cvo :
  keeps (pmm_values self brr Xo mm om cvo).
Proof.
  unfold pmm_values. repeat preserves_step.
  all: first [apply keeps_model_predict | apply keeps_random_choice1].
Qed.

Lemma keeps_col_values brr Xo mm : keeps (col_values brr Xo mm).
Proof.
  unfold col_values. repeat preserves_step.
  - apply keeps_model_predict_dist.
  - apply keeps_draw.
Qed.

Lemma keeps_impute_column (self : MICE F) mask omask absC counts ri W c :
  model self = l ->
  keeps (impute_column self mask omask absC counts ri W c).
Proof.
  intros Hl. unfold impute_column. rewrite Hl. repeat preserves_step.
  all: first [ apply keeps_other_columns | apply keeps_model_fit
             | apply keeps_store_fitted_model | apply keeps_pmm_values
             | apply keeps_col_values ].
Qed.

Lemma keeps_perform_imputation_round (self : MICE F) W mask omask vis ri :
  model self = l ->
  keeps (perform_imputation_round self W mask omask vis ri).
Proof.
  intros Hl. unfold perform_imputation_round. apply preserves_foldM.
  intros acc a. apply keeps_impute_column. exact Hl.
Qed.

Lemma keeps_initialize (self : MICE F) X mask omask vis :
  keeps (initialize self X mask omask vis).
Proof.
  unfold initialize. repeat preserves_step.
  all: first [ apply keeps_modify; reflexivity | apply keeps_random_choice
             | apply keeps_store_column_init_value ].
Qed.

Lemma keeps_multiple_imputations (self : MICE F) X :
  model self = l -> keeps (multiple_imputations self X).
Proof.
  intros Hl. unfold multiple_imputations, imputation_round.
  repeat preserves_step.
  all: first [ apply keeps_modify; reflexivity | apply keeps_initialize
             | apply keeps_perform_imputation_round; exact Hl ].
Qed.

End Aliasing.

Section AliasingComplete.

Context {F G M : Type}.
Context {NUM : Numerics F} {RND : RandomState F G} {REG : Regressor F G M}
        {SOL : SolverBase F}.

(** After [complete], whatever the input, the model and the draws, every
    slot of [self.fitted_models] is the one reference [self.model]. *)
Lemma complete_slots_alias (self : MICE F) (X : matrix F)
    (st : state F G M) Y st' :
  returns (complete self (Arr2 X)) st Y st' ->
  slots_alias (model self) st'.
Proof.
  unfold complete. intros H.
  apply returns_bind in H. destruct H as (u0 & s0 & Hw & H).
  apply returns_when_emit in Hw. subst s0.
  apply returns_bind in H. destruct H as (u1 & s1 & Hm & H).
  apply (proj1 (returns_modify _ _ _ _)) in Hm. subst s1.
  revert H.
  match goal with
  | |- returns ?m ?s _ _ -> _ =>
      assert (Hk : preserves (slots_alias (model self)) m);
      [|intros H; apply (Hk _ _ _ H)]
  end.
  - repeat preserves_step.
    apply keeps_multiple_imputations. reflexivity.
  - eexists. split; [reflexivity|].
    destruct (n_burn_in self + n_imputations self =? 0); simpl.
    + constructor.
    + reflexivity.
Qed.

End AliasingComplete.

(* ================================================================== *)
(** ** More facts about runs *)

Section OutcomeFacts.

Context {S E : Type}.

Local Abbreviation returns := (returns (S := S) (E := E)).

Lemma bind_ok {A B} (m : Mx S E A) (f : A -> Mx S E B) st a st1 ev1 r st2 ev2 :
  m st = Out (Ok a) st1 ev1 -> f a st1 = Out r st2 ev2 ->
  bind m f st = Out r st2 (ev1 ++ ev2).
Proof. intros H1 H2. unfold bind. rewrite H1, H2. reflexivity. Qed.

Lemma bind_raise {A B} (m : Mx S E A) (f : A -> Mx S E B) st e st1 ev1 :
  m st = Out (Raise e) st1 ev1 -> bind m f st = Out (Raise e) st1 ev1.
Proof. intros H1. unfold bind. rewrite H1. reflexivity. Qed.

Lemma bind_silent {A B} (m : Mx S E A) (f : A -> Mx S E B) st a st1 :
  m st = Out (Ok a) st1 [] -> bind m f st = f a st1.
Proof.
  intros H1. unfold bind. rewrite H1. destruct (f a st1); reflexivity.
Qed.

(** The calls of a composed run that returns are those of its two parts. *)
Lemma returns_bind_events {A B} (m : Mx S E A) (f : A -> Mx S E B) st b st2 :
  returns (bind m f) st b st2 ->
  exists a st1,
    returns m st a st1 /\ returns (f a) st1 b st2 /\
    events (bind m f st) = events (m st) ++ events (f a st1).
Proof.
  unfold returns, bind. intros [H1 H2].
  destruct (m st) as [[a|e] st1 ev1]; simpl in *; [|discriminate H1].
  exists a, st1. destruct (f a st1) as [r s2 ev2]; simpl in *. auto.
Qed.

(** Every pass of a loop that returns, returned. *)
Lemma foldM_returns_each {A B} (body : B -> A -> Mx S E B) l :
  forall b0 st b st',
    returns (foldM body l b0) st b st' ->
    forall a, In a l ->
    exists acc s acc' s', returns (body acc a) s acc' s'.
Proof.
  induction l as [|x l IH]; intros b0 st b st' H a Ha; [destruct Ha|].
  cbn [foldM] in H. apply returns_bind in H.
  destruct H as (acc' & s' & H1 & H2). destruct Ha as [<-|Ha].
  - eauto.
  - eapply IH; eassumption.
Qed.

Lemma never_returns_bind_l {A B} (m : Mx S E A) (f : A -> Mx S E B) :
  never_returns m -> never_returns (bind m f).
Proof.
  intros Hm st b st' H. apply returns_bind in H.
  destruct H as (a & s1 & H1 & _). exact (Hm _ _ _ H1).
Qed.

Lemma never_returns_bind_r {A B} (m : Mx S E A) (f : A -> Mx S E B) :
  (forall a, never_returns (f a)) -> never_returns (bind m f).
Proof.
  intros Hf st b st' H. apply returns_bind in H.
  destruct H as (a & s1 & _ & H2). exact (Hf _ _ _ _ H2).
Qed.

Lemma never_returns_foldM {A B} (body : B -> A -> Mx S E B) l a :
  In a l -> (forall acc, never_returns (body acc a)) ->
  forall b0, never_returns (foldM body l b0).
Proof.
  intros Ha Hbody b0 st b st' H.
  destruct (foldM_returns_each _ _ _ H a Ha) as (acc & s & acc' & s' & Hr).
  exact (Hbody _ _ _ _ Hr).
Qed.

Section Confined.

Variable R : S -> S -> Prop.
Variable P : E -> Prop.
Hypothesis HR : preorder R.

Lemma confined_bind {A B} (m : Mx S E A) (f : A -> Mx S E B) :
  confined R P m -> (forall a, confined R P (f a)) -> confined R P (bind m f).
Proof.
  intros Hm Hf st. destruct (Hm st) as [H1 H2]. unfold bind.
  destruct (m st) as [[a|e] s1 ev1]; simpl in *.
  - destruct (Hf a s1) as [H3 H4].
    destruct (f a s1) as [r s2 ev2]; simpl in *. split.
    + eapply (proj2 HR); eassumption.
    + apply Forall_app. auto.
  - auto.
Qed.

Lemma confined_ret {A} (a : A) : confined R P (ret (S := S) (E := E) a).
Proof. intros st. simpl. split; [apply (proj1 HR)|constructor]. Qed.

Lemma confined_raise {A} e : confined R P (raise (S := S) (E := E) (A := A) e).
Proof. intros st. simpl. split; [apply (proj1 HR)|constructor]. Qed.

Lemma confined_emit (ev : E) : P ev -> confined R P (emit (S := S) ev).
Proof. intros H st. simpl. split; [apply (proj1 HR)|auto]. Qed.

Lemma confined_gets {A} (f : S -> A) : confined R P (gets (E := E) f).
Proof. intros st. simpl. split; [apply (proj1 HR)|constructor]. Qed.

Lemma confined_modify (f : S -> S) :
  (forall st, R st (f st)) -> confined R P (modify (E := E) f).
Proof. intros H st. simpl. auto. Qed.

Lemma confined_lift_opt {A} (o : option A) e :
  confined R P (lift_opt (S := S) (E := E) o e).
Proof.
  unfold lift_opt. destruct o; [apply confined_ret|apply confined_raise].
Qed.

Lemma confined_lift_res {A} (r : result A) :
  confined R P (lift_res (S := S) (E := E) r).
Proof.
  unfold lift_res. destruct r; [apply confined_ret|apply confined_raise].
Qed.

Lemma confined_check b e : confined R P (check (S := S) (E := E) b e).
Proof.
  unfold check. destruct b; [apply confined_ret|apply confined_raise].
Qed.

Lemma confined_when b (m : Mx S E unit) :
  (b = true -> confined R P m) -> confined R P (when b m).
Proof.
  intros Hm. unfold when. destruct b; [auto|apply confined_ret].
Qed.

Lemma confined_foldM {A B} (body : B -> A -> Mx S E B) l :
  (forall acc a, confined R P (body acc a)) ->
  forall b0, confined R P (foldM body l b0).
Proof.
  intros Hbody. induction l as [|a l IH]; intros b0; cbn [foldM].
  - apply confined_ret.
  - apply confined_bind; [apply Hbody|exact IH].
Qed.

Lemma confined_mapM {A B} (f : A -> Mx S E B) l :
  (forall a, confined R P (f a)) -> confined R P (mapM f l).
Proof.
  intros Hf. induction l as [|a l IH]; cbn [mapM].
  - apply confined_ret.
  - apply confined_bind; [apply Hf|]. intros b.
    apply confined_bind; [exact IH|]. intros bs. apply confined_ret.
Qed.

End Confined.

Lemma confined_weaken {A} (R R' : S -> S -> Prop) (P P' : E -> Prop)
    (m : Mx S E A) :
  confined R P m ->
  (forall s1 s2, R s1 s2 -> R' s1 s2) -> (forall ev, P ev -> P' ev) ->
  confined R' P' m.
Proof.
  intros Hm HR HP st. destruct (Hm st) as [H1 H2]. split; [auto|].
  eapply Forall_impl; [|exact H2]. exact HP.
Qed.

Section RaisesOnly.

Variable Q : exn -> Prop.

Lemma raises_only_bind {A B} (m : Mx S E A) (f : A -> Mx S E B) :
  raises_only Q m -> (forall a, raises_only Q (f a)) ->
  raises_only Q (bind m f).
Proof.
  intros Hm Hf st e. unfold bind. pose proof (Hm st) as H1.
  destruct (m st) as [[a|e1] s1 ev1]; simpl in *.
  - pose proof (Hf a s1) as H2.
    destruct (f a s1) as [r s2 ev2]; simpl in *. apply H2.
  - intros [= <-]. apply H1. reflexivity.
Qed.

Lemma raises_only_ret {A} (a : A) : raises_only Q (ret (S := S) (E := E) a).
Proof. intros st e H. discriminate H. Qed.

Lemma raises_only_raise {A} e :
  Q e -> raises_only Q (raise (S := S) (E := E) (A := A) e).
Proof. intros H st e' [= <-]. exact H. Qed.

Lemma raises_only_emit (ev : E) : raises_only Q (emit (S := S) ev).
Proof. intros st e H. discriminate H. Qed.

Lemma raises_only_gets {A} (f : S -> A) : raises_only Q (gets (E := E) f).
Proof. intros st e H. discriminate H. Qed.

Lemma raises_only_modify (f : S -> S) : raises_only Q (modify (E := E) f).
Proof. intros st e H. discriminate H. Qed.

Lemma raises_only_lift_opt {A} (o : option A) e :
  Q e -> raises_only Q (lift_opt (S := S) (E := E) o e).
Proof.
  intros H. unfold lift_opt.
  destruct o; [apply raises_only_ret|apply raises_only_raise; exact H].
Qed.

Lemma raises_only_foldM {A B} (body : B -> A -> Mx S E B) l :
  (forall acc a, raises_only Q (body acc a)) ->
  forall b0, raises_only Q (foldM body l b0).
Proof.
  intros Hbody. induction l as [|a l IH]; intros b0; cbn [foldM].
  - apply raises_only_ret.
  - apply raises_only_bind; [apply Hbody|exact IH].
Qed.

End RaisesOnly.

End OutcomeFacts.

(** One step of a proof that a composed run is confined; the relation is
    known to be a preorder. *)
Ltac confined_step :=
  lazymatch goal with
  | |- confined _ _ (bind _ _) =>
      apply confined_bind; [solve [auto]| |intros ?]
  | |- confined _ _ (ret _) => apply confined_ret; solve [auto]
  | |- confined _ _ (raise _) => apply confined_raise; solve [auto]
  | |- confined _ _ (gets _) => apply confined_gets; solve [auto]
  | |- confined _ _ (lift_opt _ _) => apply confined_lift_opt; solve [auto]
  | |- confined _ _ (lift_res _) => apply confined_lift_res; solve [auto]
  | |- confined _ _ (check _ _) => apply confined_check; solve [auto]
  | |- confined _ _ (foldM _ _ _) =>
      apply confined_foldM; [solve [auto]|intros ? ?]
  | |- confined _ _ (mapM _ _) => apply confined_mapM; [solve [auto]|intros ?]
  | |- confined _ _ (if ?b then _ else _) => destruct b eqn:?
  | |- confined _ _ (match ?x with _ => _ end) => destruct x
  end.

(** One step of a proof on the exceptions of a composed run. *)
Ltac raises_step :=
  lazymatch goal with
  | |- raises_only _ (bind _ _) => apply raises_only_bind; [|intros ?]
  | |- raises_only _ (ret _) => apply raises_only_ret
  | |- raises_only _ (emit _) => apply raises_only_emit
  | |- raises_only _ (gets _) => apply raises_only_gets
  | |- raises_only _ (modify _) => apply raises_only_modify
  | |- raises_only _ (foldM _ _ _) => apply raises_only_foldM; intros ? ?
  | |- raises_only _ (if ?b then _ else _) => destruct b
  | |- raises_only _ (match ?x with _ => _ end) => destruct x
  end.

(* ================================================================== *)
(** ** Configurations that are rejected, and when *)

Lemma randint_array_length {F G} {RND : RandomState F G} (g : G) n size :
  length (fst (randint_array g n size)) = size.
Proof.
  revert g. induction size as [|size IH]; intros g; simpl; [reflexivity|].
  destruct (randint g n) as [i g1]. specialize (IH g1).
  destruct (randint_array g1 n size) as [rest g2]. simpl in *. congruence.
Qed.

Lemma take1_length {A} (v : list A) idxs l :
  take1 v idxs = Some l -> length l = length idxs.
Proof.
  revert l. induction idxs as [|i idxs IH]; intros l H; simpl in H.
  - injection H as <-. reflexivity.
  - destruct (nth_error v i); [|discriminate H].
    destruct (take1 v idxs); [|discriminate H].
    injection H as <-. simpl. f_equal. apply IH. reflexivity.
Qed.

Lemma has_missing_intro (mask : matrix bool) i c :
  i < n_rows mask -> at2 mask i c = true -> has_missing mask c = true.
Proof.
  intros Hi H. unfold has_missing, missing_count. apply Nat.ltb_lt.
  apply count_true_pos with (i := i). apply mask_column_true. auto.
Qed.

Section Rejections.

Context {F G M : Type}.
Context {NUM : Numerics F} {RND : RandomState F G} {REG : Regressor F G M}
        {SOL : SolverBase F}.

Lemma get_visit_indices_unknown (self : MICE F) mask :
  ~ In (visit_sequence self)
      ["roman"; "arabic"; "monotone"; "revmonotone"]%string ->
  get_visit_indices self mask = Raise visit_order_error.
Proof.
  intros H. unfold get_visit_indices.
  destruct (visit_sequence self =? "roman")%string eqn:E1.
  { apply String.eqb_eq in E1. exfalso. apply H. rewrite E1. simpl. auto. }
  destruct (visit_sequence self =? "arabic")%string eqn:E2.
  { apply String.eqb_eq in E2. exfalso. apply H. rewrite E2. simpl. auto. }
  destruct (visit_sequence self =? "monotone")%string eqn:E3.
  { apply String.eqb_eq in E3. exfalso. apply H. rewrite E3. simpl. auto. }
  destruct (visit_sequence self =? "revmonotone")%string eqn:E4.
  { apply String.eqb_eq in E4. exfalso. apply H. rewrite E4. simpl. auto. }
  reflexivity.
Qed.

(** An unrecognised visit sequence stops [complete] before the
    initialisation and the rounds, with the [ValueError] of
    [get_visit_indices]: no model is fitted, no value is drawn and only
    the opening line is printed.  By then [self.fitted_models] has been
    overwritten with the fresh array of references to [self.model]. *)
Theorem complete_rejects_unknown_visit_sequence (self : MICE F)
    (X : matrix F) (st : state F G M) :
  check_input (Arr2 X) = true ->
  check_missing_value_mask (isnan_array (Arr2 X)) = true ->
  ~ In (visit_sequence self)
      ["roman"; "arabic"; "monotone"; "revmonotone"]%string ->
  complete self (Arr2 X) st =
    Out (Raise visit_order_error)
      (set_fitted_models (Some (initial_models self (n_cols X))) st)
      (if verbose self then [EvPrint "[MICE] Completing matrix"] else []).
Proof.
  intros Hci Hcm Hv. unfold complete, multiple_imputations.
  rewrite Hci, Hcm, (get_visit_indices_unknown _ _ Hv).
  unfold initial_models, when, check, lift_res, bind, modify, emit, raise, ret.
  destruct (verbose self); reflexivity.
Qed.

(** The loop of [initialize] under an unrecognised fill method: the
    columns without a missing cell are passed over and the first column
    with one raises. *)
Lemma initialize_loop_unknown_fill (self : MICE F) (X : matrix F) mask omask
    vis (st : state F G M) :
  ~ In (fill_method self) ["mean"; "median"; "random"]%string ->
  (forall c, In c vis -> c < n_cols mask) ->
  (exists c, In c vis /\ has_missing mask c = true) ->
  initialize self X mask omask vis st =
    Out (Raise fill_method_error)
      (set_column_init_values (Some (repeat fzero (n_cols X))) st) [].
Proof.
  intros Hf Hin Hex. unfold initialize.
  assert (E1 : (fill_method self =? "mean")%string = false).
  { apply String.eqb_neq. intros E. apply Hf. rewrite E. simpl. auto. }
  assert (E2 : (fill_method self =? "median")%string = false).
  { apply String.eqb_neq. intros E. apply Hf. rewrite E. simpl. auto. }
  assert (E3 : (fill_method self =? "random")%string = false).
  { apply String.eqb_neq. intros E. apply Hf. rewrite E. simpl. auto. }
  rewrite E1, E2, E3.
  rewrite bind_silent with (a := tt)
    (st1 := set_column_init_values (Some (repeat fzero (n_cols X))) st)
    by reflexivity.
  generalize (set_column_init_values (Some (repeat fzero (n_cols X))) st).
  intros s. induction vis as [|a vis IH]; [destruct Hex as (c & [] & _)|].
  cbn [foldM].
  assert (Ha : (a <? n_cols mask) = true)
    by (apply Nat.ltb_lt; apply Hin; left; reflexivity).
  rewrite Ha. unfold check at 1.
  destruct (0 <? count_true (column mask a)) eqn:Em.
  - reflexivity.
  - rewrite bind_silent with (a := X) (st1 := s) by reflexivity.
    apply IH.
    + intros c Hc. apply Hin. right. exact Hc.
    + destruct Hex as (c & [<-|Hc] & Hm).
      * unfold has_missing, missing_count in Hm. congruence.
      * eauto.
Qed.

(** An unrecognised fill method stops [complete] on a matrix with a
    missing cell, with the [ValueError] of [initialize], once the visit
    order is computed and stored and before any round: no model is
    fitted and no value is drawn. *)
Theorem complete_rejects_unknown_fill_method (self : MICE F) (X : matrix F)
    (st : state F G M) i j :
  check_input (Arr2 X) = true ->
  check_missing_value_mask (isnan_array (Arr2 X)) = true ->
  In (visit_sequence self)
    ["roman"; "arabic"; "monotone"; "revmonotone"]%string ->
  ~ In (fill_method self) ["mean"; "median"; "random"]%string ->
  i < n_rows X -> j < n_cols X -> isnan (at2 X i j) = true ->
  exists vis,
    get_visit_indices self (isnan2 X) = Ok vis /\
    complete self (Arr2 X) st =
      Out (Raise fill_method_error)
        (set_column_init_values (Some (repeat fzero (n_cols X)))
           (set_visit_indices (Some vis)
              (set_fitted_models (Some (initial_models self (n_cols X))) st)))
        (if verbose self then [EvPrint "[MICE] Completing matrix"] else []).
Proof.
  intros Hci Hcm Hvs Hf Hi Hj Hnan.
  destruct (get_visit_indices_total self (isnan2 X) Hvs) as (vis & Hvis).
  pose proof (get_visit_indices_ok_in _ _ Hvis) as Hperm.
  exists vis. split; [exact Hvis|].
  unfold complete, multiple_imputations. rewrite Hci, Hcm, Hvis.
  assert (Hinit : forall s : state F G M,
            initialize self X (isnan2 X) (invert (isnan2 X)) vis s =
            Out (Raise fill_method_error)
              (set_column_init_values (Some (repeat fzero (n_cols X))) s) []).
  { intros s. apply initialize_loop_unknown_fill; [exact Hf| |].
    - intros c Hc. apply (Permutation_in _ Hperm) in Hc. apply in_seq in Hc.
      simpl in *. lia.
    - exists j. split.
      + apply (Permutation_in _ (Permutation_sym Hperm)). apply in_seq.
        simpl. lia.
      + apply has_missing_intro with (i := i); [exact Hi|exact Hnan]. }
  unfold initial_models, when, check, lift_res, bind, modify, emit, ret.
  destruct (verbose self); cbv beta iota zeta; rewrite Hinit; reflexivity.
Qed.

Lemma random_choice_length {A} (a : list A) n (st : state F G M) v st' :
  returns (random_choice a n) st v st' -> length v = n.
Proof.
  unfold random_choice. destruct (length a =? 0).
  { intros H. exfalso. exact (returns_raise H). }
  intros H. apply returns_bind in H. destruct H as (idx & s1 & H1 & H2).
  apply (proj1 (returns_lift_opt _ _ _ _ _)) in H2. destruct H2 as [H2 _].
  apply take1_length in H2. rewrite H2.
  unfold returns, draw in H1.
  pose proof (randint_array_length (rng st) (length a) n) as Hlen.
  destruct (randint_array (rng st) (length a) n) as [i g']. simpl in *.
  destruct H1 as [[= <-] _]. exact Hlen.
Qed.

(** Under the fill method "random" the draw for a column with two or
    more missing cells is an array of as many values, which the slot of
    [column_init_values] refuses. *)
Lemma initialize_random_never_returns (self : MICE F) (X : matrix F) mask
    omask vis c :
  fill_method self = "random"%string ->
  In c vis -> 2 <= count_true (column mask c) ->
  never_returns (S := state F G M) (initialize self X mask omask vis).
Proof.
  intros Hf Hc H2 st W st' H. unfold initialize in H.
  apply returns_bind in H. destruct H as (u & s0 & _ & H).
  destruct (foldM_returns_each _ _ _ H c Hc) as (acc & s & acc' & s' & Hr).
  clear H. cbv beta in Hr. rewrite Hf in Hr.
  assert (E1 : ("random" =? "mean")%string = false) by reflexivity.
  assert (E2 : ("random" =? "median")%string = false) by reflexivity.
  assert (E3 : ("random" =? "random")%string = true) by reflexivity.
  rewrite E1, E2, E3 in Hr.
  apply returns_bind in Hr. destruct Hr as (u1 & s1 & _ & Hr).
  assert (E : (0 <? count_true (column mask c)) = true)
    by (apply Nat.ltb_lt; lia).
  rewrite E in Hr.
  apply returns_bind in Hr. destruct Hr as (fv & s2 & Hfv & Hr).
  apply returns_bind in Hfv. destruct Hfv as (v & s3 & Hv & Hfv).
  apply (proj1 (returns_ret _ _ _ _)) in Hfv. destruct Hfv as [-> ->].
  apply random_choice_length in Hv.
  apply returns_bind in Hr. destruct Hr as (u2 & s4 & Hs & _).
  unfold store_column_init_value in Hs.
  apply returns_bind in Hs. destruct Hs as (civ & s5 & _ & Hs).
  destruct civ as [civ|]; [|exact (returns_raise Hs)].
  apply returns_bind in Hs. destruct Hs as (x & s6 & Hs & _).
  destruct v as [|a [|b v]]; simpl in Hv; try lia.
  exact (returns_raise Hs).
Qed.

(** With init_fill_method "random", [complete] never returns on a matrix
    one column of which has two or more missing cells. *)
Theorem random_fill_fails_on_two_missing (self : MICE F) (X : matrix F) c :
  fill_method self = "random"%string ->
  c < n_cols X -> 2 <= missing_count (isnan2 X) c ->
  never_returns (S := state F G M) (complete self (Arr2 X)).
Proof.
  intros Hf Hc H2 st Y st' H. apply complete_inv in H.
  destruct H as (vis & W0 & s0 & Ws & vals & Hv & Hi & _).
  apply get_visit_indices_ok_in in Hv.
  assert (Hc' : In c vis).
  { apply (Permutation_in _ (Permutation_sym Hv)). apply in_seq. simpl. lia. }
  assert (Hn : never_returns (S := state F G M)
                 (initialize self X (isnan2 X) (invert (isnan2 X)) vis)).
  { eapply initialize_random_never_returns; [exact Hf|exact Hc'|exact H2]. }
  exact (Hn _ _ _ Hi).
Qed.

Lemma first_round_returns (self : MICE F) mask omask vis a n W
    (st : state F G M) Ws st' :
  0 < n ->
  returns (round_matrices self mask omask vis (seq a n) W) st Ws st' ->
  exists W1 s1,
    returns (perform_imputation_round self W mask omask vis (Some a))
      st W1 s1.
Proof.
  intros Hn H. destruct n as [|n]; [lia|].
  cbn [seq round_matrices] in H. apply returns_bind in H.
  destruct H as (W1 & s1 & H & _). eauto.
Qed.

Lemma round_returns_each (self : MICE F) W mask omask vis ri
    (st : state F G M) W' st' c :
  returns (perform_imputation_round self W mask omask vis ri) st W' st' ->
  In c vis ->
  exists absC acc s acc' s',
    returns (impute_column self mask omask absC (sum0 mask) ri acc c)
      s acc' s'.
Proof.
  unfold perform_imputation_round. intros H Hc.
  destruct (foldM_returns_each _ _ _ H c Hc) as (acc & s & acc' & s' & Hr).
  eauto 6.
Qed.

(** A column step in a mode that is neither "pmm" nor "col" stops on the
    unbound name. *)
Lemma impute_column_unknown_mode (self : MICE F) mask omask absC ri W c :
  ~ In (impute_type self) ["pmm"; "col"]%string ->
  has_missing mask c = true ->
  never_returns (S := state F G M)
    (impute_column self mask omask absC (sum0 mask) ri W c).
Proof.
  intros Hm Hc st W' st' H. unfold impute_column in H.
  assert (E1 : (impute_type self =? "pmm")%string = false).
  { apply String.eqb_neq. intros E. apply Hm. rewrite E. simpl. auto. }
  assert (E2 : (impute_type self =? "col")%string = false).
  { apply String.eqb_neq. intros E. apply Hm. rewrite E. simpl. auto. }
  rewrite E1, E2 in H. returns_inv H.
  match goal with
  | H : (c <? n_cols mask) = true |- _ =>
      apply Nat.ltb_lt in H; rename H into Hlt
  end.
  match goal with
  | H : nth_error (sum0 mask) c = Some _ |- _ =>
      rewrite sum0_nth_error in H by exact Hlt; injection H as <-
  end.
  unfold has_missing in Hc. rewrite Hc in *.
  match goal with
  | H : returns _ _ _ _ |- _ => returns_inv H
  end.
  match goal with
  | H : None = Some _ |- _ => discriminate H
  end.
Qed.

(** With a mode that is neither "pmm" nor "col", [complete] never returns
    once there is a round to run and a cell to impute. *)
Theorem unknown_impute_type_never_completes (self : MICE F) (X : matrix F)
    i j :
  ~ In (impute_type self) ["pmm"; "col"]%string ->
  0 < n_burn_in self + n_imputations self ->
  i < n_rows X -> j < n_cols X -> isnan (at2 X i j) = true ->
  never_returns (S := state F G M) (complete self (Arr2 X)).
Proof.
  intros Hm Hn Hi Hj Hnan st Y st' H. apply complete_inv in H.
  destruct H as (vis & W0 & s0 & Ws & vals & Hv & _ & Hr & _).
  apply get_visit_indices_ok_in in Hv.
  assert (Hc : In j vis).
  { apply (Permutation_in _ (Permutation_sym Hv)). apply in_seq. simpl. lia. }
  edestruct first_round_returns as (W1 & s1 & H1); [exact Hn|exact Hr|].
  edestruct round_returns_each as (absC & acc & s & acc' & s' & H2);
    [exact H1|exact Hc|].
  eapply impute_column_unknown_mode; [exact Hm| |exact H2].
  apply has_missing_intro with (i := i); [exact Hi|exact Hnan].
Qed.

Lemma mapM_choice_of_nothing {A B} (l : list B) (st : state F G M) r st' :
  returns (mapM (fun neighbor_index : list A => random_choice1 neighbor_index)
             (map (fun _ => []) l)) st r st' ->
  r = [].
Proof.
  destruct l as [|b l]; cbn [map mapM]; intros H.
  - apply (proj1 (returns_ret _ _ _ _)) in H. destruct H as [-> _].
    reflexivity.
  - apply returns_bind in H. destruct H as (x & s1 & H & _).
    exfalso. exact (returns_raise H).
Qed.

(** With no neighbour to choose from, mean matching has no value to
    return. *)
Lemma pmm_values_no_neighbors (self : MICE F) brr Xo mm om cvo
    (st : state F G M) v st' :
  n_pmm_neighbors self = 0 ->
  returns (pmm_values self brr Xo mm om cvo) st v st' -> v = [].
Proof.
  intros Hk H. unfold pmm_values in H. rewrite Hk in H.
  cbn [Nat.min firstn] in H.
  apply returns_bind in H. destruct H as (pm & s1 & _ & H).
  apply returns_bind in H. destruct H as (po & s2 & _ & H).
  apply returns_bind in H. destruct H as (u & s3 & _ & H).
  apply returns_bind in H. destruct H as (idx & s4 & H1 & H2).
  rewrite map_map in H1. apply mapM_choice_of_nothing in H1. subst idx.
  apply (proj1 (returns_lift_opt _ _ _ _ _)) in H2. destruct H2 as [H2 _].
  simpl in H2. congruence.
Qed.

Lemma impute_column_no_neighbors (self : MICE F) mask omask absC ri W c :
  impute_type self = "pmm"%string -> n_pmm_neighbors self = 0 ->
  has_missing mask c = true ->
  never_returns (S := state F G M)
    (impute_column self mask omask absC (sum0 mask) ri W c).
Proof.
  intros Hm Hk Hc st W' st' H. unfold impute_column in H.
  rewrite Hm, String.eqb_refl in H. cbv iota in H. returns_inv H.
  match goal with
  | H : (c <? n_cols mask) = true |- _ =>
      apply Nat.ltb_lt in H; rename H into Hlt
  end.
  match goal with
  | H : nth_error (sum0 mask) c = Some _ |- _ =>
      rewrite sum0_nth_error in H by exact Hlt; injection H as <-
  end.
  unfold has_missing in Hc. rewrite Hc in *.
  match goal with
  | H : returns _ _ _ _ |- _ => returns_inv H
  end.
  repeat match goal with
         | H : Some _ = Some _ |- _ => injection H as H; subst
         end.
  match goal with
  | H : returns (pmm_values _ _ _ _ _ _) _ ?v _ |- _ =>
      assert (Ev : v = [])
        by (eapply pmm_values_no_neighbors; [exact Hk|exact H]);
      subst v
  end.
  apply Nat.ltb_lt in Hc. unfold missing_count in Hc.
  match goal with
  | H : broadcast ?n (Array _) = Some _ |- _ =>
      destruct n; [lia|discriminate H]
  end.
Qed.

(** With impute_type "pmm" and n_pmm_neighbors = 0, [complete] never
    returns once there is a round to run and a cell to impute: there is
    no neighbour to draw. *)
Theorem pmm_without_neighbors_never_completes (self : MICE F) (X : matrix F)
    i j :
  impute_type self = "pmm"%string -> n_pmm_neighbors self = 0 ->
  0 < n_burn_in self + n_imputations self ->
  i < n_rows X -> j < n_cols X -> isnan (at2 X i j) = true ->
  never_returns (S := state F G M) (complete self (Arr2 X)).
Proof.
  intros Hm Hk Hn Hi Hj Hnan st Y st' H. apply complete_inv in H.
  destruct H as (vis & W0 & s0 & Ws & vals & Hv & _ & Hr & _).
  apply get_visit_indices_ok_in in Hv.
  assert (Hc : In j vis).
  { apply (Permutation_in _ (Permutation_sym Hv)). apply in_seq. simpl. lia. }
  edestruct first_round_returns as (W1 & s1 & H1); [exact Hn|exact Hr|].
  edestruct round_returns_each as (absC & acc & s & acc' & s' & H2);
    [exact H1|exact Hc|].
  eapply impute_column_no_neighbors; [exact Hm|exact Hk| |exact H2].
  apply has_missing_intro with (i := i); [exact Hi|exact Hnan].
Qed.

End Rejections.

(* ================================================================== *)
(** ** What the initialisation fills in *)

Lemma compress_ext {A} (mask : list bool) (v v' : list A) :
  length v = length v' ->
  (forall i, nth i mask false = true -> nth_error v i = nth_error v' i) ->
  compress mask v = compress mask v'.
Proof.
  revert v v'. induction mask as [|b mask IH]; intros v v' Hlen H;
    [reflexivity|].
  destruct v as [|x v]; destruct v' as [|x' v']; simpl in Hlen;
    try discriminate Hlen; [reflexivity|].
  simpl. rewrite (IH v v').
  - destruct b; [|reflexivity].
    pose proof (H 0 eq_refl) as H0. simpl in H0. injection H0 as ->.
    reflexivity.
  - lia.
  - intros i Hi. apply (H (S i)). exact Hi.
Qed.

Lemma set1_length {A} (v : list A) i x v' :
  set1 v i x = Some v' -> length v' = length v.
Proof.
  revert i v'. induction v as [|y v IH]; intros i v' H; simpl in H;
    [discriminate H|].
  destruct i as [|i].
  - injection H as <-. reflexivity.
  - destruct (set1 v i x) as [w|] eqn:E; [|discriminate H].
    injection H as <-. simpl. f_equal. eapply IH. exact E.
Qed.

Lemma set1_nth_error_same {A} (v : list A) i x v' :
  set1 v i x = Some v' -> nth_error v' i = Some x.
Proof.
  revert i v'. induction v as [|y v IH]; intros i v' H; simpl in H;
    [discriminate H|].
  destruct i as [|i].
  - injection H as <-. reflexivity.
  - destruct (set1 v i x) as [w|] eqn:E; [|discriminate H].
    injection H as <-. simpl. eapply IH. exact E.
Qed.

Lemma set1_nth_error_other {A} (v : list A) i x v' j :
  set1 v i x = Some v' -> j <> i -> nth_error v' j = nth_error v j.
Proof.
  revert i v' j. induction v as [|y v IH]; intros i v' j H Hj; simpl in H;
    [discriminate H|].
  destruct i as [|i].
  - injection H as <-. destruct j; [contradiction|reflexivity].
  - destruct (set1 v i x) as [w|] eqn:E; [|discriminate H].
    injection H as <-. destruct j as [|j]; [reflexivity|]. simpl.
    eapply IH; [exact E|lia].
Qed.

(** The cell the column assignment writes a repeated value to. *)
Lemma put_column_repeat {A} (W : matrix A) (mask : matrix bool) c x i :
  n_rows mask = n_rows W -> i < n_rows W -> at2 mask i c = true ->
  at2 (put_column W (column mask c) c
         (repeat x (count_true (column mask c)))) i c = x.
Proof.
  intros Hrows Hi Hm. cbn [put_column at2]. rewrite Nat.eqb_refl.
  apply (repeat_spec (count_true (column mask c))).
  apply put1_selected.
  - rewrite repeat_length. reflexivity.
  - apply mask_column_true. rewrite Hrows. auto.
  - rewrite column_length. exact Hi.
Qed.

Section Initialisation.

Context {F G M : Type}.
Context {NUM : Numerics F} {RND : RandomState F G} {REG : Regressor F G M}
        {SOL : SolverBase F}.

(** The observed values of a column are read off any working matrix. *)
Lemma observed_values_frame (X W : matrix F) c :
  frame (isnan2 X) X W ->
  compress (column (invert (isnan2 X)) c) (column W c) = observed_values X c.
Proof.
  intros (Hrows & Hcols & Hobs). unfold observed_values.
  apply compress_ext.
  - rewrite !column_length. exact Hrows.
  - intros i Hi. apply mask_column_true in Hi. destruct Hi as [Hi Hm].
    simpl in Hi, Hm. apply negb_true_iff in Hm.
    rewrite !(nth_error_nth' _ fzero) by (rewrite column_length; lia).
    rewrite !column_nth by lia. f_equal. apply Hobs. exact Hm.
Qed.

Lemma fill_value_inv (self : MICE F) (observed : list F)
    (m : Mx (state F G M) (event M) (value F)) st fv st' :
  In (fill_method self) ["mean"; "median"]%string ->
  returns (if (fill_method self =? "mean")%string
           then ret (Scalar (np_mean observed))
           else if (fill_method self =? "median")%string
                then ret (Scalar (np_median observed))
                else m) st fv st' ->
  fv = Scalar (fill_statistic self observed) /\ st' = st.
Proof.
  intros Hf H. unfold fill_statistic.
  destruct (fill_method self =? "mean")%string eqn:E1.
  { apply (proj1 (returns_ret _ _ _ _)) in H. exact H. }
  destruct (fill_method self =? "median")%string eqn:E2.
  { apply (proj1 (returns_ret _ _ _ _)) in H. exact H. }
  apply String.eqb_neq in E1, E2. simpl in Hf.
  destruct Hf as [Hf|[Hf|[]]]; congruence.
Qed.

Lemma store_column_init_value_inv c (x : F) (st : state F G M) u st' :
  returns (store_column_init_value c (Scalar x)) st u st' ->
  exists civ civ',
    column_init_values st = Some civ /\ set1 civ c x = Some civ' /\
    st' = set_column_init_values (Some civ') st.
Proof.
  unfold store_column_init_value. intros H.
  apply returns_bind in H. destruct H as (o & s1 & H1 & H).
  apply (proj1 (returns_gets _ _ _ _)) in H1. destruct H1 as [-> ->].
  destruct (column_init_values st) as [civ|];
    [|exact (False_ind _ (returns_raise H))].
  returns_inv H. eauto.
Qed.

(** What the loop of [initialize] establishes, column after column. *)
Lemma initialize_statistic (self : MICE F) (X : matrix F) vis
    (st : state F G M) W st' :
  In (fill_method self) ["mean"; "median"]%string ->
  returns (initialize self X (isnan2 X) (invert (isnan2 X)) vis) st W st' ->
  let stat := fun c => fill_statistic self (observed_values X c) in
  frame (isnan2 X) X W /\
  (forall c, In c vis ->
     c < n_cols X /\
     forall i, i < n_rows X -> isnan (at2 X i c) = true ->
               at2 W i c = stat c) /\
  exists civ,
    column_init_values st' = Some civ /\ length civ = n_cols X /\
    (forall c, In c vis -> has_missing (isnan2 X) c = true ->
               nth_error civ c = Some (stat c)) /\
    (forall c, c < n_cols X -> has_missing (isnan2 X) c = false ->
               nth_error civ c = Some fzero).
Proof.
  intros Hf H. unfold initialize in H.
  apply returns_bind in H. destruct H as (u & s0 & H0 & H).
  apply (proj1 (returns_modify _ _ _ _)) in H0. subst s0.
  intros stat.
  refine (foldM_invariant
            (fun pre acc s =>
               frame (isnan2 X) X acc /\
               (forall c, In c pre ->
                  c < n_cols X /\
                  forall i, i < n_rows X -> isnan (at2 X i c) = true ->
                            at2 acc i c = stat c) /\
               exists civ,
                 column_init_values s = Some civ /\
                 length civ = n_cols X /\
                 (forall c, In c pre -> has_missing (isnan2 X) c = true ->
                            nth_error civ c = Some (stat c)) /\
                 (forall c, c < n_cols X ->
                            has_missing (isnan2 X) c = false ->
                            nth_error civ c = Some fzero))
            _ _ _ _ _ H).
  - clear H.
    intros pre a acc s acc' s' _
      (Hfr & Hcells & civ & Hciv & Hlen & Hset & Hzero) Hstep.
    apply returns_bind in Hstep. destruct Hstep as (u1 & s1 & Hck & Hstep).
    apply (proj1 (returns_check _ _ _ _ _)) in Hck.
    destruct Hck as [Hlt ->]. apply Nat.ltb_lt in Hlt. simpl in Hlt.
    destruct (0 <? count_true (column (isnan2 X) a)) eqn:Em.
    + (* the column has a missing cell *)
      apply returns_bind in Hstep. destruct Hstep as (fv & s2 & Hfv & Hstep).
      eapply fill_value_inv in Hfv; [|exact Hf]. destruct Hfv as [-> ->].
      rewrite (@observed_values_frame X acc a Hfr) in Hstep.
      apply returns_bind in Hstep. destruct Hstep as (u2 & s3 & Hst & Hstep).
      apply store_column_init_value_inv in Hst.
      destruct Hst as (civ0 & civ' & Hciv0 & Hset1 & ->).
      rewrite Hciv in Hciv0. injection Hciv0 as <-.
      returns_inv Hstep.
      match goal with
      | Hb : broadcast _ (Scalar _) = Some _ |- _ =>
          simpl in Hb; injection Hb as <-
      end.
      destruct Hfr as (Hrows & Hcols & Hobs).
      split; [|split].
      * eapply frame_trans;
          [split; [exact Hrows|split; [exact Hcols|exact Hobs]]|].
        apply put_column_frame.
      * intros c Hc. apply in_app_or in Hc.
        destruct (Nat.eq_dec c a) as [->|Hne].
        -- split; [exact Hlt|]. intros i Hi Hnan.
           apply put_column_repeat; [simpl; congruence|lia|exact Hnan].
        -- destruct Hc as [Hc|[Hc|[]]]; [|congruence].
           destruct (Hcells c Hc) as [Hc1 Hc2]. split; [exact Hc1|].
           intros i Hi Hnan. rewrite put_column_other by exact Hne.
           apply Hc2; assumption.
      * exists civ'. split; [reflexivity|].
        split; [erewrite set1_length by exact Hset1; exact Hlen|]. split.
        -- intros c Hc Hm. apply in_app_or in Hc.
           destruct (Nat.eq_dec c a) as [->|Hne].
           ++ eapply set1_nth_error_same. exact Hset1.
           ++ erewrite set1_nth_error_other; [|exact Hset1|exact Hne].
              destruct Hc as [Hc|[Hc|[]]]; [|congruence].
              apply Hset; assumption.
        -- intros c Hc Hm. destruct (Nat.eq_dec c a) as [->|Hne].
           ++ unfold has_missing, missing_count in Hm. congruence.
           ++ erewrite set1_nth_error_other; [|exact Hset1|exact Hne].
              apply Hzero; assumption.
    + (* the column has none *)
      apply (proj1 (returns_ret _ _ _ _)) in Hstep. destruct Hstep as [-> ->].
      split; [exact Hfr|]. split.
      * intros c Hc. apply in_app_or in Hc.
        destruct Hc as [Hc|[<-|[]]]; [apply Hcells; exact Hc|].
        split; [exact Hlt|]. intros i Hi Hnan. exfalso.
        apply Nat.ltb_ge in Em.
        assert (0 < count_true (column (isnan2 X) a)); [|lia].
        apply count_true_pos with (i := i). apply mask_column_true.
        simpl. auto.
      * exists civ. split; [exact Hciv|]. split; [exact Hlen|]. split.
        -- intros c Hc Hm. apply in_app_or in Hc.
           destruct Hc as [Hc|[<-|[]]]; [apply Hset; assumption|].
           unfold has_missing, missing_count in Hm. congruence.
        -- exact Hzero.
  - split; [apply frame_refl|]. split; [intros c []|].
    exists (repeat fzero (n_cols X)). split; [reflexivity|].
    split; [apply repeat_length|]. split; [intros c []|].
    intros c Hc _. apply nth_error_repeat. exact Hc.
Qed.

(** With the fill method "mean" or "median", [initialize] visits the
    columns it is given and leaves in every missing cell of a visited
    column the mean (or the median) of the values observed in that column
    of the input, and the input in every observed cell; it records in
    [column_init_values], for each visited column, that statistic when the
    column has a missing cell and 0 when it has none. *)
Theorem initialize_fills_with_statistic (self : MICE F) (X : matrix F) vis
    (st : state F G M) W st' :
  In (fill_method self) ["mean"; "median"]%string ->
  returns (initialize self X (isnan2 X) (invert (isnan2 X)) vis) st W st' ->
  (forall c i, In c vis -> i < n_rows X ->
     at2 W i c = if isnan (at2 X i c)
                 then fill_statistic self (observed_values X c)
                 else at2 X i c) /\
  exists civ,
    column_init_values st' = Some civ /\ length civ = n_cols X /\
    forall c, In c vis ->
      nth_error civ c =
        Some (if has_missing (isnan2 X) c
              then fill_statistic self (observed_values X c)
              else fzero).
Proof.
  intros Hf H.
  pose proof (initialize_statistic Hf H) as HP. cbv zeta in HP.
  destruct HP
    as ((Hrows & Hcols & Hobs) & Hcells & civ & Hciv & Hlen & Hset & Hzero).
  split.
  - intros c i Hc Hi. destruct (isnan (at2 X i c)) eqn:Enan.
    + apply Hcells; assumption.
    + apply Hobs. exact Enan.
  - exists civ. split; [exact Hciv|]. split; [exact Hlen|].
    intros c Hc. destruct (has_missing (isnan2 X) c) eqn:Em.
    + apply Hset; assumption.
    + apply Hzero; [apply Hcells; exact Hc|exact Em].
Qed.

Lemma only_init_values_set_preorder :
  preorder (only_init_values_set (F := F) (G := G) (M := M)).
Proof.
  split.
  - intros st. repeat split.
  - intros s1 s2 s3 (A1 & A2 & A3 & A4) (B1 & B2 & B3 & B4).
    repeat split; congruence.
Qed.

(** With the fill method "mean" or "median", [initialize] draws no value,
    calls no model and prints nothing, whether it returns or raises: of
    the state it changes [column_init_values] only. *)
Theorem initialize_draws_nothing (self : MICE F) (X : matrix F)
    (mask omask : matrix bool) vis :
  In (fill_method self) ["mean"; "median"]%string ->
  confined (only_init_values_set (F := F) (G := G) (M := M))
    (no_call (M := M)) (initialize self X mask omask vis).
Proof.
  intros Hf. pose proof only_init_values_set_preorder as HR.
  unfold initialize, store_column_init_value. repeat confined_step.
  all: try (apply confined_modify; intros st; repeat split).
  exfalso.
  match goal with
  | H1 : (fill_method self =? "mean")%string = false,
    H2 : (fill_method self =? "median")%string = false |- _ =>
      apply String.eqb_neq in H1, H2; simpl in Hf;
      destruct Hf as [Hf|[Hf|[]]]; congruence
  end.
Qed.

End Initialisation.

(* ================================================================== *)
(** ** What a training leaves in the instance *)

Section Invariant.

Context {F G M : Type}.
Context {NUM : Numerics F} {RND : RandomState F G} {REG : Regressor F G M}
        {SOL : SolverBase F}.

(** A property of the state that the random stream and the model objects
    do not bear on, and that the two stores keep. *)
Variable I : state F G M -> Prop.
Hypothesis I_rng : forall g st, I st -> I (set_rng g st).
Hypothesis I_model : forall l m st, I st -> I (set_model l m st).
Hypothesis I_init_values :
  forall c v, preserves (E := event M) I (store_column_init_value c v).
Hypothesis I_fitted_models :
  forall m c l, preserves (E := event M) I (store_fitted_model m c l).

Local Abbreviation keeps := (preserves (E := event M) I).

Lemma inv_draw {A} (f : G -> option A * G) e : keeps (draw f e).
Proof.
  unfold returns, draw. intros st a st' [H1 H2] HI.
  destruct (f (rng st)) as [[x|] g]; simpl in *; subst.
  - apply I_rng. exact HI.
  - discriminate H1.
Qed.

Lemma inv_model_fit brr X y : keeps (model_fit brr X y).
Proof.
  unfold model_fit. repeat preserves_step.
  apply preserves_modify. intros st. apply I_model.
Qed.

Lemma inv_model_predict brr X b : keeps (model_predict brr X b).
Proof. unfold model_predict. repeat preserves_step. apply inv_draw. Qed.

Lemma inv_model_predict_dist brr X : keeps (model_predict_dist brr X).
Proof. unfold model_predict_dist. repeat preserves_step. Qed.

Lemma inv_random_choice {A} (a : list A) n : keeps (random_choice a n).
Proof. unfold random_choice. repeat preserves_step. apply inv_draw. Qed.

Lemma inv_random_choice1 {A} (a : list A) : keeps (random_choice1 a).
Proof. unfold random_choice1. repeat preserves_step. apply inv_draw. Qed.

Lemma inv_other_columns (self : MICE F) n absC c :
  keeps (other_columns self n absC c).
Proof. unfold other_columns. repeat preserves_step. apply inv_draw. Qed.

Lemma inv_pmm_values (self : MICE F) brr Xo mm om cvo :
  keeps (pmm_values self brr Xo mm om cvo).
Proof.
  unfold pmm_values. repeat preserves_step.
  all: first [apply inv_model_predict | apply inv_random_choice1].
Qed.

Lemma inv_col_values brr Xo mm : keeps (col_values brr Xo mm).
Proof.
  unfold col_values. repeat preserves_step.
  - apply inv_model_predict_dist.
  - apply inv_draw.
Qed.

Lemma inv_impute_column (self : MICE F) mask omask absC counts ri W c :
  keeps (impute_column self mask omask absC counts ri W c).
Proof.
  unfold impute_column. repeat preserves_step.
  all: first [ apply inv_other_columns | apply inv_model_fit
             | apply I_fitted_models | apply inv_pmm_values
             | apply inv_col_values ].
Qed.

Lemma inv_perform_imputation_round (self : MICE F) W mask omask vis ri :
  keeps (perform_imputation_round self W mask omask vis ri).
Proof.
  unfold perform_imputation_round. apply preserves_foldM.
  intros acc a. apply inv_impute_column.
Qed.

Lemma inv_round_matrices (self : MICE F) mask omask vis ms :
  forall W, keeps (round_matrices self mask omask vis ms W).
Proof.
  induction ms as [|m ms IH]; intros W; cbn [round_matrices].
  - apply preserves_ret.
  - apply preserves_bind; [apply inv_perform_imputation_round|].
    intros W1. apply preserves_bind; [apply IH|]. intros rest.
    apply preserves_ret.
Qed.

(** [initialize] resets [column_init_values] and keeps the property from
    there on. *)
Lemma inv_initialize (self : MICE F) X mask omask vis st W st' :
  returns (initialize self X mask omask vis) st W st' ->
  I (set_column_init_values (Some (repeat fzero (n_cols X))) st) -> I st'.
Proof.
  unfold initialize. intros H.
  apply returns_bind in H. destruct H as (u & s0 & H0 & H).
  apply (proj1 (returns_modify _ _ _ _)) in H0. subst s0.
  revert H.
  match goal with
  | |- returns ?m ?s _ _ -> _ =>
      assert (Hk : keeps m); [|intros H; apply (Hk _ _ _ H)]
  end.
  repeat preserves_step.
  all: first [apply inv_random_choice | apply I_init_values].
Qed.

End Invariant.

Section Training.

Context {F G M : Type}.
Context {NUM : Numerics F} {RND : RandomState F G} {REG : Regressor F G M}
        {SOL : SolverBase F}.

Lemma store_column_init_value_length c (v : value F) (st : state F G M) u st' :
  returns (store_column_init_value c v) st u st' ->
  fitted_models st' = fitted_models st /\
  visit_indices st' = visit_indices st /\
  exists civ civ',
    column_init_values st = Some civ /\ column_init_values st' = Some civ' /\
    length civ' = length civ.
Proof.
  unfold store_column_init_value. intros H.
  apply returns_bind in H. destruct H as (o & s1 & H1 & H).
  apply (proj1 (returns_gets _ _ _ _)) in H1. destruct H1 as [-> ->].
  destruct (column_init_values st) as [civ|] eqn:E;
    [|exact (False_ind _ (returns_raise H))].
  apply returns_bind in H. destruct H as (x & s1 & Hx & H).
  assert (s1 = st) as ->.
  { destruct v as [a|[|a [|b l]]]; returns_inv Hx; reflexivity. }
  returns_inv H.
  match goal with
  | H : set1 civ c x = Some ?civ' |- _ =>
      split; [reflexivity|]; split; [reflexivity|]; exists civ, civ';
      split; [reflexivity|]; split; [reflexivity|];
      eapply set1_length; exact H
  end.
Qed.

Lemma store_fitted_model_shape m c l (st : state F G M) u st' :
  returns (store_fitted_model m c l) st u st' ->
  visit_indices st' = visit_indices st /\
  column_init_values st' = column_init_values st /\
  exists a a',
    fitted_models st = Some (Arr2 a) /\ fitted_models st' = Some (Arr2 a') /\
    n_rows a' = n_rows a /\ n_cols a' = n_cols a.
Proof.
  unfold store_fitted_model. intros H.
  apply returns_bind in H. destruct H as (o & s1 & H1 & H).
  apply (proj1 (returns_gets _ _ _ _)) in H1. destruct H1 as [-> ->].
  destruct (fitted_models st) as [[v|a]|] eqn:E;
    try exact (False_ind _ (returns_raise H)).
  returns_inv H.
  match goal with
  | H : set2 a m c l = Some ?a' |- _ =>
      split; [reflexivity|]; split; [reflexivity|]; exists a, a';
      unfold set2 in H;
      destruct ((m <? n_rows a) && (c <? n_cols a))%bool; [|discriminate H];
      injection H as <-; repeat split
  end.
Qed.

Lemma trained_store_column_init_value (self : MICE F) n c v :
  preserves (E := event M) (trained (G := G) (M := M) self n)
    (store_column_init_value c v).
Proof.
  intros st u st' H (Hfm & Hvi & civ & Hciv & Hlen).
  apply store_column_init_value_length in H.
  destruct H as (E1 & E2 & civ0 & civ' & H1 & H2 & H3).
  unfold trained. rewrite E1, E2. split; [exact Hfm|]. split; [exact Hvi|].
  exists civ'. split; [exact H2|]. congruence.
Qed.

Lemma trained_store_fitted_model (self : MICE F) n m c l :
  preserves (E := event M) (trained (G := G) (M := M) self n)
    (store_fitted_model m c l).
Proof.
  intros st u st' H ((a & Hfm & Hr & Hc) & Hvi & Hciv).
  apply store_fitted_model_shape in H.
  destruct H as (E1 & E2 & a0 & a' & H1 & H2 & H3 & H4).
  unfold trained. rewrite E1, E2. split; [|split; [exact Hvi|exact Hciv]].
  exists a'. split; [exact H2|]. rewrite Hfm in H1. injection H1 as <-.
  split; congruence.
Qed.

(** After [complete], with a round at least, the attributes hold an
    array of fitted models, a visit order and initial values for the
    columns of the input. *)
Lemma complete_trained (self : MICE F) (X : matrix F) (st : state F G M)
    Y st' :
  returns (complete self (Arr2 X)) st Y st' ->
  0 < n_burn_in self + n_imputations self ->
  trained self (n_cols X) st'.
Proof.
  intros H Hn. apply complete_inv in H.
  destruct H as (vis & W0 & s0 & Ws & vals & Hv & Hi & Hr & _).
  apply get_visit_indices_ok_in in Hv. simpl in Hv.
  assert (E : (n_burn_in self + n_imputations self =? 0) = false)
    by (apply Nat.eqb_neq; lia).
  rewrite E in Hi.
  assert (H0 : trained self (n_cols X) s0).
  { eapply inv_initialize with (I := trained self (n_cols X));
      [| |exact Hi|].
    - intros g s Hs. exact Hs.
    - intros c v. apply trained_store_column_init_value.
    - split; [|split].
      + eexists. split; [reflexivity|]. split; reflexivity.
      + exists vis. split; [reflexivity|exact Hv].
      + eexists. split; [reflexivity|]. apply repeat_length. }
  eapply inv_round_matrices with (I := trained self (n_cols X));
    [| | |exact Hr|exact H0].
  - intros g s Hs. exact Hs.
  - intros l m s Hs. exact Hs.
  - intros m c l. apply trained_store_fitted_model.
Qed.

Lemma complete_keeps_visit_indices (self : MICE F) (X : matrix F)
    (st : state F G M) Y st' :
  returns (complete self (Arr2 X)) st Y st' ->
  exists vis,
    get_visit_indices self (isnan2 X) = Ok vis /\
    visit_indices st' = Some vis.
Proof.
  intros H. apply complete_inv in H.
  destruct H as (vis & W0 & s0 & Ws & vals & Hv & Hi & Hr & _).
  exists vis. split; [exact Hv|].
  assert (H0 : visit_indices s0 = Some vis).
  { eapply inv_initialize with (I := fun s => visit_indices s = Some vis);
      [| |exact Hi|].
    - intros g s Hs. exact Hs.
    - intros c v s u s' Hst Hs.
      apply store_column_init_value_length in Hst.
      destruct Hst as (_ & E & _). congruence.
    - reflexivity. }
  eapply inv_round_matrices with (I := fun s => visit_indices s = Some vis);
    [| | |exact Hr|exact H0].
  - intros g s Hs. exact Hs.
  - intros l m s Hs. exact Hs.
  - intros m c l s u s' Hst Hs. apply store_fitted_model_shape in Hst.
    destruct Hst as (E & _). congruence.
Qed.

(** When [complete] returns after one round at least, the instance holds
    what [complete_row] reads: [visit_indices] is the order that
    [get_visit_indices] gave, a permutation of the columns;
    [column_init_values] has an entry per column; [fitted_models] has a
    row per round and a column per column of the input, and each of its
    slots is the one reference [self.model]. *)
Theorem complete_leaves_instance_trained (self : MICE F) (X : matrix F)
    (st : state F G M) Y st' :
  returns (complete self (Arr2 X)) st Y st' ->
  0 < n_burn_in self + n_imputations self ->
  (exists vis,
     get_visit_indices self (isnan2 X) = Ok vis /\
     visit_indices st' = Some vis /\
     Permutation vis (seq 0 (n_cols X))) /\
  (exists civ,
     column_init_values st' = Some civ /\ length civ = n_cols X) /\
  (exists a,
     fitted_models st' = Some (Arr2 a) /\
     n_rows a = n_burn_in self + n_imputations self /\
     n_cols a = n_cols X /\
     forall m c, at2 a m c = model self).
Proof.
  intros H Hn.
  destruct (complete_keeps_visit_indices H) as (vis & Hv & Hvi).
  destruct (complete_trained H Hn) as ((a & Hfm & Hr & Hc) & _ & Hciv).
  destruct (complete_slots_alias H) as (fm & Hfm' & Hall).
  split; [|split].
  - exists vis. split; [exact Hv|]. split; [exact Hvi|].
    apply get_visit_indices_ok_in in Hv. exact Hv.
  - exact Hciv.
  - exists a. split; [exact Hfm|]. split; [exact Hr|]. split; [exact Hc|].
    rewrite Hfm in Hfm'. injection Hfm' as <-. exact Hall.
Qed.

(** After a [complete] that returned, with the fill method "mean" or
    "median", [column_init_values] holds for every column the mean (or
    the median) of the values observed in that column of the training
    matrix when the column has a missing cell, and 0 when it has none:
    the rounds leave it as [initialize] set it.  These are the values
    [complete_row] starts a row from. *)
Theorem complete_records_initial_values (self : MICE F) (X : matrix F)
    (st : state F G M) Y st' :
  In (fill_method self) ["mean"; "median"]%string ->
  returns (complete self (Arr2 X)) st Y st' ->
  exists civ,
    column_init_values st' = Some civ /\ length civ = n_cols X /\
    forall c, c < n_cols X ->
      nth_error civ c =
        Some (if has_missing (isnan2 X) c
              then fill_statistic self (observed_values X c)
              else fzero).
Proof.
  intros Hf H. apply complete_inv in H.
  destruct H as (vis & W0 & s0 & Ws & vals & Hv & Hi & Hr & _).
  apply get_visit_indices_ok_in in Hv. simpl in Hv.
  pose proof (initialize_statistic Hf Hi) as HP. cbv zeta in HP.
  destruct HP as (_ & _ & civ & Hciv & Hlen & Hset & Hzero).
  exists civ. split; [|split; [exact Hlen|]].
  - eapply inv_round_matrices
      with (I := fun s => column_init_values s = Some civ);
      [| | |exact Hr|exact Hciv].
    + intros g s Hs. exact Hs.
    + intros l m s Hs. exact Hs.
    + intros m c l s u s' Hst Hs. apply store_fitted_model_shape in Hst.
      destruct Hst as (_ & E & _). congruence.
  - intros c Hc. destruct (has_missing (isnan2 X) c) eqn:Em.
    + apply Hset; [|exact Em].
      apply (Permutation_in _ (Permutation_sym Hv)). apply in_seq. lia.
    + apply Hzero; assumption.
Qed.

End Training.

(* ================================================================== *)
(** ** The replay of a row *)

Lemma bind_gets {S E A B} (f : S -> A) (k : A -> Mx S E B) st :
  bind (gets f) k st = k (f st) st.
Proof. apply bind_silent. reflexivity. Qed.

Lemma bind_ret {S E A B} (a : A) (k : A -> Mx S E B) st :
  bind (ret a) k st = k a st.
Proof. apply bind_silent. reflexivity. Qed.

Section RowReplay.

Context {F G M : Type}.
Context {NUM : Numerics F} {RND : RandomState F G} {REG : Regressor F G M}
        {SOL : SolverBase F}.

Lemma only_stream_moved_preorder :
  preorder (only_stream_moved (F := F) (G := G) (M := M)).
Proof.
  split.
  - intros st. repeat split.
  - intros s1 s2 s3 (A1 & A2 & A3 & A4) (B1 & B2 & B3 & B4).
    repeat split; congruence.
Qed.

Local Hint Resolve only_stream_moved_preorder : core.

Local Abbreviation reads_only :=
  (confined (only_stream_moved (F := F) (G := G) (M := M))
     (row_call (M := M))).

Lemma reads_only_draw {A} (f : G -> option A * G) e : reads_only (draw f e).
Proof.
  intros st. unfold draw.
  destruct (f (rng st)) as [[a|] g]; simpl; split; try constructor;
    repeat split.
Qed.

Lemma reads_only_model_predict_dist brr X :
  reads_only (model_predict_dist brr X).
Proof.
  unfold model_predict_dist. repeat confined_step.
  apply confined_emit; [auto|exact I].
Qed.

Lemma reads_only_load_model fm m c : reads_only (load_model fm m c).
Proof. unfold load_model. repeat confined_step. Qed.

Lemma reads_only_replay_column (self : MICE F) fm mask cols m x c :
  reads_only (replay_column self fm mask cols m x c).
Proof.
  unfold replay_column. repeat confined_step.
  all: first [ apply reads_only_load_model
             | apply reads_only_model_predict_dist
             | apply reads_only_draw ].
Qed.

(** Whatever its arguments and whether it returns or raises,
    [complete_row] leaves the attributes of the instance and every model
    object as they were: it moves the random stream only.  It fits no
    model and calls no [predict]: the calls it makes are prints and calls
    of [predict_dist]. *)
Theorem complete_row_only_reads (self : MICE F) (X : ndarray F)
    (fitted_models_arg : option (ndarray loc)) (seed_arg : option Z) :
  confined (only_stream_moved (F := F) (G := G) (M := M)) (row_call (M := M))
    (complete_row self X fitted_models_arg seed_arg).
Proof.
  unfold complete_row. repeat confined_step.
  all: first [ apply reads_only_replay_column
             | apply confined_emit; [auto|exact I]
             | apply confined_modify; intros st; repeat split ].
Qed.

Local Abbreviation no_guard :=
  (raises_only (S := state F G M) (E := event M) not_a_guard).

Lemma no_guard_lift_opt {A} (o : option A) msg :
  no_guard (lift_opt o (IndexError msg)).
Proof. apply raises_only_lift_opt. intros m. discriminate. Qed.

Lemma no_guard_draw {A} (f : G -> option A * G) msg :
  no_guard (draw f (ValueError msg)).
Proof.
  intros st e. unfold draw. destruct (f (rng st)) as [[a|] g]; simpl.
  - discriminate.
  - intros [= <-] m. discriminate.
Qed.

Lemma no_guard_model_predict_dist brr X : no_guard (model_predict_dist brr X).
Proof.
  unfold model_predict_dist. repeat raises_step.
  apply raises_only_lift_opt. intros m. discriminate.
Qed.

Lemma no_guard_load_model fm m c : no_guard (load_model fm m c).
Proof.
  unfold load_model. repeat raises_step.
  all: first [ apply no_guard_lift_opt
             | apply raises_only_raise; intros msg; discriminate ].
Qed.

Lemma no_guard_replay_column (self : MICE F) fm mask cols m x c :
  no_guard (replay_column self fm mask cols m x c).
Proof.
  unfold replay_column. repeat raises_step.
  all: first [ apply no_guard_lift_opt | apply no_guard_load_model
             | apply no_guard_model_predict_dist | apply no_guard_draw ].
Qed.

(** On an instance that holds what a training leaves, in mode "col" and
    for a row of the trained width, no guard of [complete_row] fires. *)
Lemma complete_row_trained (self : MICE F) n (x : list F)
    (fitted_models_arg : option (ndarray loc)) (seed_arg : option Z)
    (st : state F G M) e :
  trained self n st -> impute_type self = "col"%string -> length x = n ->
  res (complete_row self (Arr1 x) fitted_models_arg seed_arg st) = Raise e ->
  not_a_guard e.
Proof.
  intros ((a & Hfm & Hr & Hc) & (vis & Hvi & _) & (civ & Hciv & _)) Hm Hlen.
  unfold complete_row. rewrite bind_gets, Hfm.
  assert (Hsome : exists fm,
            match fitted_models_arg with
            | Some fm0 => Some fm0
            | None => Some (Arr2 a)
            end = Some fm)
    by (destruct fitted_models_arg; eauto).
  destruct Hsome as (fm & ->). cbv zeta.
  rewrite bind_ret, Hlen, Hc, Nat.eqb_refl, Hm, String.eqb_refl.
  cbn [negb].
  destruct (count_true (map isnan x) =? 0).
  { intros H. discriminate H. }
  rewrite bind_gets, Hvi, bind_gets, Hciv. revert e.
  match goal with
  | |- forall e, res (?m st) = Raise e -> _ =>
      assert (Hk : no_guard m); [|intros e; apply Hk]
  end.
  repeat raises_step.
  all: first [ apply no_guard_lift_opt | apply no_guard_replay_column
             | apply raises_only_lift_opt; intros msg; discriminate ].
Qed.

(** After a [complete] that returned, with one round at least and in mode
    "col", [complete_row] on a row of the width of the training matrix
    passes every one of its guards: it returns, or the exception it
    raises is none of theirs. *)
Theorem complete_row_after_complete_passes_guards (self : MICE F)
    (X : matrix F) (st : state F G M) Y st' (x : list F)
    (fitted_models_arg : option (ndarray loc)) (seed_arg : option Z) :
  returns (complete self (Arr2 X)) st Y st' ->
  0 < n_burn_in self + n_imputations self ->
  impute_type self = "col"%string ->
  length x = n_cols X ->
  match res (complete_row self (Arr1 x) fitted_models_arg seed_arg st') with
  | Ok _ => True
  | Raise e => forall msg, e <> Exception msg
  end.
Proof.
  intros H Hn Hm Hlen.
  destruct (res (complete_row self (Arr1 x) fitted_models_arg seed_arg st'))
    as [y|e] eqn:He; [exact I|].
  eapply complete_row_trained; [|exact Hm|exact Hlen|exact He].
  eapply complete_trained; [exact H|exact Hn].
Qed.

End RowReplay.

Section NoMissingOutcome.

Context {F G M : Type}.
Context {NUM : Numerics F} {RND : RandomState F G} {REG : Regressor F G M}
        {SOL : SolverBase F}.



End NoMissingOutcome.

Section RowLengthGuard.

Context {F G M : Type}.
Context {NUM : Numerics F} {RND : RandomState F G} {REG : Regressor F G M}
        {SOL : SolverBase F}.

Local Abbreviation no_length_error :=
  (raises_only (S := state F G M) (E := event M)
     (fun e => e <> length_error)).

Lemma raises_only_weaken {A} (Q Q' : exn -> Prop)
    (m : Mx (state F G M) (event M) A) :
  raises_only Q m -> (forall e, Q e -> Q' e) -> raises_only Q' m.
Proof. intros Hm H st e He. apply H. exact (Hm st e He). Qed.

Lemma no_length_error_of_no_guard {A} (m : Mx (state F G M) (event M) A) :
  raises_only not_a_guard m -> no_length_error m.
Proof.
  intros Hm. eapply raises_only_weaken; [exact Hm|].
  intros e He. apply He.
Qed.

(** Past the length guard, nothing in [complete_row] raises the length
    error. *)
Lemma complete_row_tail_no_length_error (self : MICE F) (x : list F)
    (fm : ndarray loc) (seed_arg : option Z) :
  no_length_error
    (saved_visit_indices <- gets (fun st => visit_indices st);;
     match saved_visit_indices with
     | None => raise (Exception "No saved visit indices!")
     | Some visit_indices =>
     saved_init_values <- gets (fun st => column_init_values st);;
     match saved_init_values with
     | None => raise (Exception "No saved initial column values!")
     | Some column_init_values =>
     X_filled <-
       foldM
         (fun X_filled col_idx =>
            b <- lift_opt (nth_error (map isnan x) col_idx)
                   (IndexError "index out of bounds");;
            if b : bool then
              v <- lift_opt (nth_error column_init_values col_idx)
                     (IndexError "index out of bounds");;
              lift_opt (set1 X_filled col_idx v)
                (IndexError "index out of bounds")
            else ret X_filled)
         visit_indices x;;
     match row_seed self seed_arg with
     | Some s => modify (set_rng (np_seed s))
     | None =>
         emit (EvPrint "Random seed not set, results will not be reproducible!")
     end;;
     acc <-
       foldM
         (fun acc m =>
            X_filled <-
              foldM
                (replay_column self fm (map isnan x) (seq 0 (length x)) m)
                visit_indices (fst acc);;
            if n_burn_in self <=? m then
              ret (X_filled, snd acc ++ [compress (map isnan x) X_filled])
            else ret (X_filled, snd acc))
         (seq 0 (n_burn_in self + n_imputations self)) (X_filled, []);;
     vals <- lift_opt
               (broadcast (count_true (map isnan x)) (mean_axis0 (snd acc)))
               (ValueError "shape mismatch");;
     ret (put1 x (map isnan x) vals)
     end end).
Proof.
  repeat raises_step.
  all: first [ apply raises_only_lift_opt; intros H; discriminate H
             | apply raises_only_raise; intros H; discriminate H
             | apply no_length_error_of_no_guard;
               apply no_guard_replay_column ].
Qed.

(** C10.  With an array of fitted models passed to [complete_row], the
    length of the row is compared with the number of columns of the
    instance's own [fitted_models], never with the array passed.  Without
    stored models the call stops on the missing attribute.  With stored
    models of another width than the row it raises the length error.
    With stored models of the row's width it never raises the length
    error, whatever the shape of the array passed: a stored mode other
    than "col" is what it reports, a row with no missing entry is
    returned as it is, and a row with a missing entry is replayed, with
    whatever outcome the replay has. *)
Theorem complete_row_length_guard_reads_self (self : MICE F) (x : list F)
    (passed : ndarray loc) (seed_arg : option Z) (st : state F G M) :
  match fitted_models st with
  | None =>
      complete_row self (Arr1 x) (Some passed) seed_arg st =
        Out (Raise (AttributeError
                      "'NoneType' object has no attribute 'shape'")) st []
  | Some (Arr1 _) =>
      complete_row self (Arr1 x) (Some passed) seed_arg st =
        Out (Raise (IndexError "tuple index out of range")) st []
  | Some (Arr2 a) =>
      if length x =? n_cols a then
        if (impute_type self =? "col")%string then
          if count_true (map isnan x) =? 0 then
            complete_row self (Arr1 x) (Some passed) seed_arg st =
              Out (Ok x) st [EvPrint "The input row contains no missing data!"]
          else
            res (complete_row self (Arr1 x) (Some passed) seed_arg st)
            <> Raise length_error
        else complete_row self (Arr1 x) (Some passed) seed_arg st =
               Out (Raise impute_type_error) st []
      else
        complete_row self (Arr1 x) (Some passed) seed_arg st =
          Out (Raise length_error) st []
  end.
Proof.
  destruct (fitted_models st) as [[v|a]|] eqn:Efm.
  - unfold complete_row, bind, gets. cbn [res final events]. rewrite Efm.
    reflexivity.
  - destruct (length x =? n_cols a) eqn:Elen.
    + destruct (impute_type self =? "col")%string eqn:Emode.
      * destruct (count_true (map isnan x) =? 0) eqn:Ecount.
        -- unfold complete_row, bind, gets. cbn [res final events].
           rewrite Efm. cbn. rewrite Elen. cbn. rewrite Emode. cbn.
           rewrite Ecount. reflexivity.
        -- unfold complete_row. cbv zeta.
           rewrite bind_gets, Efm. cbv iota. rewrite bind_ret.
           rewrite Elen, Emode. cbn [negb]. rewrite Ecount.
           change (match seed_arg with
                   | Some s0 => Some s0
                   | None => seed self
                   end) with (row_seed self seed_arg).
           intros H.
           exact (complete_row_tail_no_length_error self x passed seed_arg
                    st H eq_refl).
      * unfold complete_row, bind, gets. cbn [res final events].
        rewrite Efm. cbn. rewrite Elen. cbn. rewrite Emode. reflexivity.
    + unfold complete_row, bind, gets. cbn [res final events].
      rewrite Efm. cbn. rewrite Elen. reflexivity.
  - unfold complete_row, bind, gets. cbn [res final events]. rewrite Efm.
    reflexivity.
Qed.

End RowLengthGuard.

(* ================================================================== *)
(** ** The calls of a training *)

Section Calls.

Context {F G M : Type}.
Context {NUM : Numerics F} {RND : RandomState F G} {REG : Regressor F G M}
        {SOL : SolverBase F}.

Variable self : MICE F.

Lemma others_untouched_preorder l :
  preorder (others_untouched (F := F) (G := G) (M := M) l).
Proof.
  split.
  - intros st l' _. reflexivity.
  - intros s1 s2 s3 H1 H2 l' Hl. rewrite (H2 l' Hl). apply H1. exact Hl.
Qed.

Local Hint Resolve others_untouched_preorder : core.

Local Abbreviation own :=
  (confined (others_untouched (F := F) (G := G) (M := M) (model self))
     (complete_call (M := M) self)).

Lemma own_modify (f : state F G M -> state F G M) :
  (forall st, heap (f st) = heap st) -> own (modify f).
Proof.
  intros H. apply confined_modify. intros st l' _. rewrite H. reflexivity.
Qed.

Lemma own_draw {A} (f : G -> option A * G) e : own (draw f e).
Proof.
  intros st. unfold draw.
  destruct (f (rng st)) as [[a|] g]; simpl; split; try constructor;
    intros l' _; reflexivity.
Qed.

Lemma own_model_fit X y : own (model_fit (model self) X y).
Proof.
  unfold model_fit. repeat confined_step.
  - apply confined_modify. intros st l' Hl. simpl.
    apply Nat.eqb_neq in Hl. rewrite Hl. reflexivity.
  - apply confined_emit; [auto|reflexivity].
Qed.

Lemma own_model_predict X b :
  impute_type self = "pmm"%string -> own (model_predict (model self) X b).
Proof.
  intros Hm. unfold model_predict. repeat confined_step.
  - apply confined_emit; [auto|split; [reflexivity|exact Hm]].
  - apply own_draw.
Qed.

Lemma own_model_predict_dist X :
  impute_type self = "col"%string -> own (model_predict_dist (model self) X).
Proof.
  intros Hm. unfold model_predict_dist. repeat confined_step.
  apply confined_emit; [auto|split; [reflexivity|exact Hm]].
Qed.

Lemma own_random_choice {A} (a : list A) n : own (random_choice a n).
Proof. unfold random_choice. repeat confined_step. apply own_draw. Qed.

Lemma own_random_choice1 {A} (a : list A) : own (random_choice1 a).
Proof. unfold random_choice1. repeat confined_step. apply own_draw. Qed.

Lemma own_store_column_init_value c v : own (store_column_init_value c v).
Proof.
  unfold store_column_init_value. repeat confined_step.
  all: apply own_modify; reflexivity.
Qed.

Lemma own_store_fitted_model m c l : own (store_fitted_model m c l).
Proof.
  unfold store_fitted_model. repeat confined_step.
  apply own_modify. reflexivity.
Qed.

Lemma own_other_columns n absC c : own (other_columns self n absC c).
Proof. unfold other_columns. repeat confined_step. all: apply own_draw. Qed.

Lemma own_pmm_values Xo mm om cvo :
  impute_type self = "pmm"%string ->
  own (pmm_values self (model self) Xo mm om cvo).
Proof.
  intros Hm. unfold pmm_values. repeat confined_step.
  all: first [apply own_model_predict; exact Hm | apply own_random_choice1].
Qed.

Lemma own_col_values Xo mm :
  impute_type self = "col"%string -> own (col_values (model self) Xo mm).
Proof.
  intros Hm. unfold col_values. repeat confined_step.
  - apply own_model_predict_dist. exact Hm.
  - apply own_draw.
Qed.

Lemma own_impute_column mask omask absC counts ri W c :
  own (impute_column self mask omask absC counts ri W c).
Proof.
  unfold impute_column. repeat confined_step.
  all: first [ apply own_other_columns | apply own_model_fit
             | apply own_store_fitted_model
             | apply own_pmm_values; apply String.eqb_eq; assumption
             | apply own_col_values; apply String.eqb_eq; assumption ].
Qed.

Lemma own_perform_imputation_round W mask omask vis ri :
  own (perform_imputation_round self W mask omask vis ri).
Proof.
  unfold perform_imputation_round. apply confined_foldM; [auto|].
  intros acc a. apply own_impute_column.
Qed.

Lemma own_initialize X mask omask vis : own (initialize self X mask omask vis).
Proof.
  unfold initialize. repeat confined_step.
  all: first [ apply own_modify; reflexivity | apply own_random_choice
             | apply own_store_column_init_value ].
Qed.

Lemma own_multiple_imputations X : own (multiple_imputations self X).
Proof.
  unfold multiple_imputations, imputation_round. repeat confined_step.
  all: first [ apply own_modify; reflexivity | apply own_initialize
             | apply own_perform_imputation_round
             | apply confined_when; [auto|];
               intros Hv; apply confined_emit; [auto|exact Hv] ].
Qed.

End Calls.

Section CallsOfComplete.

Context {F G M : Type}.
Context {NUM : Numerics F} {RND : RandomState F G} {REG : Regressor F G M}
        {SOL : SolverBase F}.

(** Whatever the input and whether it returns or raises, [complete]
    touches no model object but [self.model], which is the only object it
    calls; it calls [predict] in mode "pmm" only and [predict_dist] in
    mode "col" only, and it prints nothing unless it is verbose. *)
Theorem complete_calls_only_its_model (self : MICE F) (X : ndarray F) :
  confined (others_untouched (F := F) (G := G) (M := M) (model self))
    (complete_call (M := M) self) (complete self X).
Proof.
  pose proof (others_untouched_preorder (F := F) (G := G) (M := M)
                (model self)) as HR.
  unfold complete. repeat confined_step.
  all: first [ apply own_modify; reflexivity
             | apply own_multiple_imputations
             | apply confined_when; [auto|];
               intros Hv; apply confined_emit; [auto|exact Hv] ].
Qed.

End CallsOfComplete.

(* ================================================================== *)
(** ** Seeding of the replay *)

Section RowSeeding.

Context {F G M : Type}.
Context {NUM : Numerics F} {RND : RandomState F G} {REG : Regressor F G M}
        {SOL : SolverBase F}.

Local Abbreviation apart := (same_instance (F := F) (G := G) (M := M)).
Local Abbreviation aligned :=
  (same_instance_and_stream (F := F) (G := G) (M := M)).

Lemma aligned_apart (st1 st2 : state F G M) : aligned st1 st2 -> apart st1 st2.
Proof. intros [H _]. exact H. Qed.

(** Moving the stream leaves the instance as it is. *)
Lemma same_instance_set_rng g (st : state F G M) : apart st (set_rng g st).
Proof. repeat split. Qed.

Lemma aligned_draw {A} (f : G -> option A * G) e :
  related aligned aligned (draw f e).
Proof.
  intros st1 st2 ((H1 & H2 & H3 & H4) & H5). unfold draw. rewrite H5.
  destruct (f (rng st2)) as [[a|] g]; simpl.
  - repeat split; auto.
  - split; [reflexivity|]. split; [reflexivity|]. intros a Ha. discriminate Ha.
Qed.

Lemma aligned_model_predict_dist brr X :
  related aligned aligned (model_predict_dist brr X).
Proof.
  unfold model_predict_dist.
  apply related_bind with (R' := aligned).
  { apply related_gets. intros st1 st2 ((_ & _ & _ & H) & _). apply H. }
  intros m. repeat related_step.
Qed.

Lemma aligned_load_model fm m c : related aligned aligned (load_model fm m c).
Proof. unfold load_model. repeat related_step. Qed.

Lemma aligned_replay_column (self : MICE F) fm mask cols m x c :
  related aligned aligned (replay_column self fm mask cols m x c).
Proof.
  unfold replay_column. repeat related_step.
  all: first [ apply aligned_load_model | apply aligned_model_predict_dist
             | apply aligned_draw ].
Qed.

(** The replay once the stream is reseeded: the rounds, the mean and the
    assignment. *)
Lemma aligned_rounds (self : MICE F) fm mask cols vis (x x0 : list F) :
  related aligned apart
    (acc <-
       foldM
         (fun acc m =>
            X_filled <-
              foldM (replay_column self fm mask cols m) vis (fst acc);;
            if n_burn_in self <=? m then
              ret (X_filled, snd acc ++ [compress mask X_filled])
            else ret (X_filled, snd acc))
         (seq 0 (n_burn_in self + n_imputations self)) (x0, []);;
     vals <- lift_opt (broadcast (count_true mask) (mean_axis0 (snd acc)))
               (ValueError "shape mismatch");;
     ret (put1 x mask vals)).
Proof.
  apply related_weaken with (R := aligned) (R' := aligned);
    [|auto|apply aligned_apart].
  repeat related_step. apply aligned_replay_column.
Qed.

(** Two calls of [complete_row] with the same arguments and a seed (its
    argument, or else the one of the constructor), on instances that hold
    the same attributes and the same model objects, give the same result
    (the same row or the same exception) and make the same calls,
    wherever the random stream stood before each call. *)
Theorem complete_row_seeded_agrees (self : MICE F) (X : ndarray F)
    (fitted_models_arg : option (ndarray loc)) (seed_arg : option Z) (s : Z)
    (st1 st2 : state F G M) :
  row_seed self seed_arg = Some s ->
  same_instance st1 st2 ->
  res (complete_row self X fitted_models_arg seed_arg st1) =
  res (complete_row self X fitted_models_arg seed_arg st2) /\
  events (complete_row self X fitted_models_arg seed_arg st1) =
  events (complete_row self X fitted_models_arg seed_arg st2).
Proof.
  intros Hseed Hsame.
  assert (Hrel : related apart apart
                   (complete_row self X fitted_models_arg seed_arg)).
  { unfold complete_row. cbv zeta.
    change (match seed_arg with
            | Some s0 => Some s0
            | None => seed self
            end) with (row_seed self seed_arg).
    rewrite Hseed.
    apply related_bind with (R' := apart).
    { apply related_gets. intros s1 s2 (H & _). exact H. }
    intros sfm.
    destruct (match fitted_models_arg with
              | Some fm => Some fm
              | None => sfm
              end) as [fm|]; [|apply related_raise].
    destruct X as [x|Xm]; [|apply related_raise].
    apply related_bind with (R' := apart).
    { destruct sfm as [[v|a]|]; repeat related_step. }
    intros width.
    destruct (negb (length x =? width)); [apply related_raise|].
    destruct (negb (impute_type self =? "col")%string);
      [apply related_raise|].
    destruct (count_true (map isnan x) =? 0); [repeat related_step|].
    apply related_bind with (R' := apart).
    { apply related_gets. intros s1 s2 (_ & H & _). exact H. }
    intros svi. destruct svi as [vis|]; [|apply related_raise].
    apply related_bind with (R' := apart).
    { apply related_gets. intros s1 s2 (_ & _ & H & _). exact H. }
    intros sciv. destruct sciv as [civ|]; [|apply related_raise].
    apply related_bind with (R' := apart); [repeat related_step|].
    intros x0.
    apply related_bind with (R' := aligned).
    { apply related_modify. intros s1 s2 (H1 & H2 & H3 & H4).
      repeat split; auto. }
    intros u. apply aligned_rounds. }
  destruct (Hrel st1 st2 Hsame) as (H1 & H2 & _). split; assumption.
Qed.

End RowSeeding.

(* ================================================================== *)
(** ** The samples, and the number of fits *)

Lemma n_fits_app {M} (a b : list (event M)) :
  n_fits (a ++ b) = n_fits a + n_fits b.
Proof. unfold n_fits. rewrite filter_app, length_app. reflexivity. Qed.

Lemma n_fits_no_fit {M} (evs : list (event M)) :
  Forall no_fit evs -> n_fits evs = 0.
Proof.
  unfold n_fits, no_fit. induction 1 as [|ev evs H _ IH]; [reflexivity|].
  simpl. rewrite H. exact IH.
Qed.

Lemma list_sum_indicator {A} (p : A -> bool) l :
  list_sum (map (fun a => if p a then 1 else 0) l) = length (filter p l).
Proof.
  induction l as [|a l IH]; [reflexivity|]. simpl.
  destruct (p a); simpl; rewrite IH; reflexivity.
Qed.

Lemma list_sum_constant {A} (k : nat) (l : list A) :
  list_sum (map (fun _ => k) l) = length l * k.
Proof.
  induction l as [|a l IH]; [reflexivity|]. simpl. rewrite IH. reflexivity.
Qed.

Section FitsFacts.

Context {S M : Type}.

Local Abbreviation silent :=
  (confined (S := S) (fun _ _ => True) (no_fit (M := M))).

Lemma any_preorder : preorder (fun _ _ : S => True).
Proof. split; auto. Qed.

Lemma fits_by_silent {A} (m : Mx S (event M) A) : silent m -> fits_by 0 m.
Proof.
  intros Hm st a st' _. apply n_fits_no_fit. apply (Hm st).
Qed.

Lemma fits_by_never {A} n (m : Mx S (event M) A) :
  never_returns m -> fits_by n m.
Proof. intros Hm st a st' H. exfalso. exact (Hm _ _ _ H). Qed.

(** The fits of a composed run are those of its first part and, for the
    value it returned, those of the second. *)
Lemma fits_by_bind {A B} n1 n2 (m : Mx S (event M) A)
    (f : A -> Mx S (event M) B) :
  fits_by n1 m ->
  (forall a, (exists st st1, returns m st a st1) -> fits_by n2 (f a)) ->
  fits_by (n1 + n2) (bind m f).
Proof.
  intros Hm Hf st b st2 H. apply returns_bind_events in H.
  destruct H as (a & st1 & H1 & H2 & ->). rewrite n_fits_app.
  rewrite (Hm _ _ _ H1). f_equal. eapply Hf; [eauto|exact H2].
Qed.

Lemma fits_by_bind_r {A B} n (m : Mx S (event M) A)
    (f : A -> Mx S (event M) B) :
  silent m -> (forall a, fits_by n (f a)) -> fits_by n (bind m f).
Proof.
  intros Hm Hf. change n with (0 + n).
  apply fits_by_bind; [apply fits_by_silent; exact Hm|].
  intros a _. apply Hf.
Qed.

Lemma fits_by_bind_l {A B} n (m : Mx S (event M) A)
    (f : A -> Mx S (event M) B) :
  fits_by n m -> (forall a, silent (f a)) -> fits_by n (bind m f).
Proof.
  intros Hm Hf. rewrite <- (Nat.add_0_r n).
  apply fits_by_bind; [exact Hm|].
  intros a _. apply fits_by_silent. apply Hf.
Qed.

Lemma fits_by_foldM {A B} (g : A -> nat) (body : B -> A -> Mx S (event M) B)
    l :
  (forall acc a, In a l -> fits_by (g a) (body acc a)) ->
  forall b0, fits_by (list_sum (map g l)) (foldM body l b0).
Proof.
  induction l as [|a l IH]; intros Hbody b0; cbn [foldM map list_sum].
  - apply fits_by_silent. apply confined_ret. apply any_preorder.
  - apply fits_by_bind.
    + apply Hbody. left. reflexivity.
    + intros acc _. apply IH. intros acc' a' Ha'. apply Hbody. right.
      exact Ha'.
Qed.

End FitsFacts.

Section Fits.

Context {F G M : Type}.
Context {NUM : Numerics F} {RND : RandomState F G} {REG : Regressor F G M}
        {SOL : SolverBase F}.

Local Hint Resolve any_preorder : core.

Local Abbreviation silent :=
  (confined (S := state F G M) (fun _ _ => True) (no_fit (M := M))).

Lemma silent_modify (f : state F G M -> state F G M) : silent (modify f).
Proof. apply confined_modify. auto. Qed.

Lemma silent_draw {A} (f : G -> option A * G) e : silent (draw f e).
Proof.
  intros st. unfold draw.
  destruct (f (rng st)) as [[a|] g]; simpl; split; auto.
Qed.

Lemma silent_model_predict brr X b : silent (model_predict brr X b).
Proof.
  unfold model_predict. repeat confined_step.
  - apply confined_emit; [auto|reflexivity].
  - apply silent_draw.
Qed.

Lemma silent_model_predict_dist brr X : silent (model_predict_dist brr X).
Proof.
  unfold model_predict_dist. repeat confined_step.
  apply confined_emit; [auto|reflexivity].
Qed.

Lemma silent_random_choice {A} (a : list A) n : silent (random_choice a n).
Proof. unfold random_choice. repeat confined_step. apply silent_draw. Qed.

Lemma silent_random_choice1 {A} (a : list A) : silent (random_choice1 a).
Proof. unfold random_choice1. repeat confined_step. apply silent_draw. Qed.

Lemma silent_store_column_init_value c v :
  silent (store_column_init_value c v).
Proof.
  unfold store_column_init_value. repeat confined_step.
  all: apply silent_modify.
Qed.

Lemma silent_store_fitted_model m c l : silent (store_fitted_model m c l).
Proof.
  unfold store_fitted_model. repeat confined_step. apply silent_modify.
Qed.

Lemma silent_other_columns (self : MICE F) n absC c :
  silent (other_columns self n absC c).
Proof.
  unfold other_columns. repeat confined_step. all: apply silent_draw.
Qed.

Lemma silent_pmm_values (self : MICE F) brr Xo mm om cvo :
  silent (pmm_values self brr Xo mm om cvo).
Proof.
  unfold pmm_values. repeat confined_step.
  all: first [apply silent_model_predict | apply silent_random_choice1].
Qed.

Lemma silent_col_values brr Xo mm : silent (col_values brr Xo mm).
Proof.
  unfold col_values. repeat confined_step.
  - apply silent_model_predict_dist.
  - apply silent_draw.
Qed.

Lemma silent_initialize (self : MICE F) X mask omask vis :
  silent (initialize self X mask omask vis).
Proof.
  unfold initialize. repeat confined_step.
  all: first [ apply silent_modify | apply silent_random_choice
             | apply silent_store_column_init_value ].
Qed.

Lemma silent_when_emit b (ev : event M) :
  no_fit ev -> silent (when b (emit ev)).
Proof.
  intros H. apply confined_when; [auto|]. intros _.
  apply confined_emit; [auto|exact H].
Qed.

Lemma fits_by_model_fit brr X y :
  fits_by (S := state F G M) 1 (model_fit brr X y).
Proof.
  intros st u st' [H _]. revert H. unfold model_fit, bind, gets. simpl.
  destruct (fit (heap st brr) X y) as [m'|]; simpl.
  - reflexivity.
  - intros H. discriminate H.
Qed.

(** A column step fits the model once when the column has a missing cell
    and not at all when it has none. *)
Lemma fits_by_impute_column (self : MICE F) mask omask absC ri W c :
  fits_by (S := state F G M) (if has_missing mask c then 1 else 0)
    (impute_column self mask omask absC (sum0 mask) ri W c).
Proof.
  unfold impute_column.
  destruct (c <? n_cols mask) eqn:Hc.
  2: { apply fits_by_never. apply never_returns_bind_l.
       intros st a st' H. exact (returns_raise H). }
  apply Nat.ltb_lt in Hc. rewrite (sum0_nth_error _ Hc).
  apply fits_by_bind_r; [repeat confined_step|]. intros u.
  apply fits_by_bind with (n1 := 0);
    [apply fits_by_silent; repeat confined_step|].
  intros n (s & s1 & Hn). apply (proj1 (returns_ret _ _ _ _)) in Hn.
  destruct Hn as [-> _]. unfold has_missing.
  destruct (0 <? missing_count mask c).
  - apply fits_by_bind_r; [apply silent_other_columns|]. intros oc.
    apply fits_by_bind_r; [repeat confined_step|]. intros Xo.
    apply fits_by_bind_l; [apply fits_by_model_fit|]. intros u1.
    repeat confined_step.
    all: first [ apply silent_store_fitted_model | apply silent_pmm_values
               | apply silent_col_values ].
  - apply fits_by_silent. repeat confined_step.
Qed.

Lemma fits_by_perform_imputation_round (self : MICE F) W mask omask vis ri :
  fits_by (S := state F G M) (length (filter (has_missing mask) vis))
    (perform_imputation_round self W mask omask vis ri).
Proof.
  unfold perform_imputation_round. rewrite <- list_sum_indicator.
  apply fits_by_foldM. intros acc a _. apply fits_by_impute_column.
Qed.

Lemma fits_by_imputation_round (self : MICE F) mask omask vis total acc m :
  fits_by (S := state F G M) (length (filter (has_missing mask) vis))
    (imputation_round self mask omask vis total acc m).
Proof.
  unfold imputation_round.
  apply fits_by_bind_r; [apply silent_when_emit; reflexivity|]. intros u.
  apply fits_by_bind_l; [apply fits_by_perform_imputation_round|].
  intros W. repeat confined_step.
Qed.

Lemma fits_by_multiple_imputations (self : MICE F) (X : matrix F) :
  fits_by (S := state F G M)
    ((n_burn_in self + n_imputations self)
     * length (filter (has_missing (isnan2 X)) (seq 0 (n_cols X))))
    (multiple_imputations self (Arr2 X)).
Proof.
  unfold multiple_imputations.
  apply fits_by_bind_r; [repeat confined_step|]. intros u1.
  apply fits_by_bind_r; [repeat confined_step|]. intros u2.
  apply fits_by_bind with (n1 := 0);
    [apply fits_by_silent; repeat confined_step|].
  intros vis (s & s1 & Hv). apply (proj1 (returns_lift_res _ _ _ _)) in Hv.
  destruct Hv as [Hv _]. apply get_visit_indices_ok_in in Hv. simpl in Hv.
  apply fits_by_bind_r; [apply silent_modify|]. intros u3.
  apply fits_by_bind_r; [apply silent_initialize|]. intros W0.
  apply fits_by_bind_l; [|intros acc; repeat confined_step].
  replace ((n_burn_in self + n_imputations self)
           * length (filter (has_missing (isnan2 X)) (seq 0 (n_cols X))))
    with (list_sum
            (map (fun _ : nat =>
                    length (filter (has_missing (isnan2 X)) vis))
               (seq 0 (n_burn_in self + n_imputations self)))).
  - apply fits_by_foldM. intros acc m _. apply fits_by_imputation_round.
  - rewrite list_sum_constant, length_seq. f_equal.
    rewrite <- !list_sum_indicator. apply Permutation_list_sum.
    apply Permutation_map. exact Hv.
Qed.

(** A run of [complete] that returns has fitted the model once per round
    and per column with a missing cell: the columns without a missing
    cell are never modelled, and the burn-in rounds cost as much as the
    sampled ones. *)
Theorem complete_fits_once_per_round_and_column (self : MICE F)
    (X : matrix F) (st : state F G M) Y st' :
  returns (complete self (Arr2 X)) st Y st' ->
  n_fits (events (complete self (Arr2 X) st)) =
    (n_burn_in self + n_imputations self)
    * length (filter (has_missing (isnan2 X)) (seq 0 (n_cols X))).
Proof.
  revert st Y st'.
  change (fits_by (S := state F G M)
            ((n_burn_in self + n_imputations self)
             * length (filter (has_missing (isnan2 X)) (seq 0 (n_cols X))))
            (complete self (Arr2 X))).
  unfold complete.
  apply fits_by_bind_r; [apply silent_when_emit; reflexivity|]. intros u.
  apply fits_by_bind_r; [apply silent_modify|]. intros u1.
  apply fits_by_bind_l; [apply fits_by_multiple_imputations|].
  intros r. repeat confined_step.
Qed.

(** What [multiple_imputations] returns: the mask of the missing cells of
    the input and [n_imputations] samples, each with one value per
    missing cell; it returns only for an input that the two checks of
    [Solver] accept. *)
Theorem multiple_imputations_contract (self : MICE F) (X : matrix F)
    (st : state F G M) r st' :
  returns (multiple_imputations self (Arr2 X)) st r st' ->
  snd r = isnan2 X /\
  length (fst r) = n_imputations self /\
  Forall (fun sample => length sample = length (nonzero2 (isnan2 X)))
    (fst r) /\
  check_input (Arr2 X) = true /\
  check_missing_value_mask (isnan_array (Arr2 X)) = true.
Proof.
  unfold multiple_imputations. intros H. returns_inv H.
  match goal with
  | H : returns (foldM _ _ _) _ _ _ |- _ =>
      apply imputation_rounds_trace in H;
      destruct H as (Ws & _ & Hlen & Hsamples)
  end.
  cbn [fst snd]. rewrite Hsamples, Nat.sub_0_r. cbn [app].
  split; [reflexivity|]. split.
  - rewrite length_map, length_skipn, Hlen. lia.
  - split; [|split; assumption].
    apply Forall_forall. intros sample Hs. apply in_map_iff in Hs.
    destruct Hs as (W & <- & _). unfold take2. apply length_map.
Qed.

End Fits.

(* ================================================================== *)
(** ** The row returned *)

Section RowFrame.

Context {F G M : Type}.
Context {NUM : Numerics F} {RND : RandomState F G} {REG : Regressor F G M}
        {SOL : SolverBase F}.

(** The row [complete_row] returns is its input, or its input with the
    missing entries assigned. *)
Lemma complete_row_inv (self : MICE F) (x : list F)
    (fitted_models_arg : option (ndarray loc)) (seed_arg : option Z)
    (st : state F G M) y st' :
  returns (complete_row self (Arr1 x) fitted_models_arg seed_arg) st y st' ->
  y = x \/ exists vals, y = put1 x (map isnan x) vals.
Proof.
  unfold complete_row. cbv zeta. intros H.
  apply returns_bind in H. destruct H as (sfm & s0 & _ & H).
  destruct (match fitted_models_arg with
            | Some fm => Some fm
            | None => sfm
            end) as [fm|]; [|exact (False_ind _ (returns_raise H))].
  apply returns_bind in H. destruct H as (width & s1 & _ & H).
  destruct (negb (length x =? width));
    [exact (False_ind _ (returns_raise H))|].
  destruct (negb (impute_type self =? "col")%string);
    [exact (False_ind _ (returns_raise H))|].
  destruct (count_true (map isnan x) =? 0).
  { returns_inv H. left. reflexivity. }
  apply returns_bind in H. destruct H as (svi & s2 & _ & H).
  destruct svi as [vis|]; [|exact (False_ind _ (returns_raise H))].
  apply returns_bind in H. destruct H as (sciv & s3 & _ & H).
  destruct sciv as [civ|]; [|exact (False_ind _ (returns_raise H))].
  apply returns_bind in H. destruct H as (x0 & s4 & _ & H).
  apply returns_bind in H. destruct H as (u & s5 & _ & H).
  apply returns_bind in H. destruct H as (acc & s6 & _ & H).
  apply returns_bind in H. destruct H as (vals & s7 & _ & H).
  apply (proj1 (returns_ret _ _ _ _)) in H. destruct H as [-> _].
  right. exists vals. reflexivity.
Qed.

(** The row [complete_row] returns has the length of its input and holds
    the input at every entry that is not missing. *)
Theorem complete_row_keeps_observed_entries (self : MICE F) (x : list F)
    (fitted_models_arg : option (ndarray loc)) (seed_arg : option Z)
    (st : state F G M) y st' :
  returns (complete_row self (Arr1 x) fitted_models_arg seed_arg) st y st' ->
  length y = length x /\
  forall i d, i < length x -> isnan (nth i x d) = false ->
              nth i y d = nth i x d.
Proof.
  intros H. apply complete_row_inv in H. destruct H as [->|(vals & ->)].
  - split; [reflexivity|]. intros; reflexivity.
  - split; [apply put1_length|]. intros i d Hi Hobs.
    apply put1_unselected.
    rewrite (nth_indep _ false (isnan d)) by (rewrite length_map; exact Hi).
    rewrite map_nth. exact Hobs.
Qed.

End RowFrame.

(* ================================================================== *)
(** ** The masked errors *)

Lemma take2_ext {A} (X X' : matrix A) (mask : matrix bool) :
  (forall i j, i < n_rows mask -> j < n_cols mask -> at2 mask i j = true ->
               at2 X' i j = at2 X i j) ->
  take2 X' mask = take2 X mask.
Proof.
  intros H. unfold take2. apply map_ext_in. intros [i j] Hin.
  apply nonzero2_in in Hin. destruct Hin as (Hi & Hj & Hm). simpl.
  apply H; assumption.
Qed.

Section MaskedErrors.

Context {F : Type}.
Context {NUM : Numerics F} {ELT : Elementwise F}.

Lemma select_ext (X X' : matrix F) (mask : matrix bool) :
  n_rows X' = n_rows X -> n_cols X' = n_cols X ->
  (forall i j, i < n_rows mask -> j < n_cols mask -> at2 mask i j = true ->
               at2 X' i j = at2 X i j) ->
  select X' mask = select X mask.
Proof.
  intros Hr Hc H. unfold select.
  assert (E : take2 X' mask = take2 X mask) by (apply take2_ext; exact H).
  rewrite Hr, Hc, E. reflexivity.
Qed.

(** Both errors read the selected cells only: two pairs of matrices of
    the same shapes that agree on the cells the mask selects have the same
    errors, whatever the other cells hold. *)
Theorem masked_errors_read_selected_cells
    (X_true X_pred X_true' X_pred' : matrix F) (mask : matrix bool) :
  n_rows X_true' = n_rows X_true -> n_cols X_true' = n_cols X_true ->
  n_rows X_pred' = n_rows X_pred -> n_cols X_pred' = n_cols X_pred ->
  (forall i j, i < n_rows mask -> j < n_cols mask -> at2 mask i j = true ->
               at2 X_true' i j = at2 X_true i j /\
               at2 X_pred' i j = at2 X_pred i j) ->
  masked_mae X_true' X_pred' mask = masked_mae X_true X_pred mask /\
  masked_mse X_true' X_pred' mask = masked_mse X_true X_pred mask.
Proof.
  intros Hr1 Hc1 Hr2 Hc2 H.
  assert (E : masked_diff X_true' X_pred' mask
              = masked_diff X_true X_pred mask).
  { assert (E1 : select X_true' mask = select X_true mask).
    { apply select_ext; [exact Hr1|exact Hc1|].
      intros i j Hi Hj Hm. apply (H i j Hi Hj Hm). }
    assert (E2 : select X_pred' mask = select X_pred mask).
    { apply select_ext; [exact Hr2|exact Hc2|].
      intros i j Hi Hj Hm. apply (H i j Hi Hj Hm). }
    unfold masked_diff. rewrite E1, E2. reflexivity. }
  unfold masked_mae, masked_mse. rewrite E. split; reflexivity.
Qed.

End MaskedErrors.

Section MaskedErrorsFloat.

#[local] Existing Instance Float64.numerics.
#[local] Existing Instance float_elementwise.

(** With a mask that selects no cell both errors are the mean of an
    empty array, which in binary64 is NaN: not zero, and no exception. *)
Theorem masked_errors_of_empty_selection (X_true X_pred : matrix float)
    (mask : matrix bool) :
  n_rows mask = n_rows X_true -> n_cols mask = n_cols X_true ->
  n_rows mask = n_rows X_pred -> n_cols mask = n_cols X_pred ->
  (forall i j, i < n_rows mask -> j < n_cols mask -> at2 mask i j = false) ->
  masked_mae X_true X_pred mask = Ok nan /\
  masked_mse X_true X_pred mask = Ok nan.
Proof.
  intros Hr1 Hc1 Hr2 Hc2 H.
  unfold masked_mae, masked_mse, masked_diff, select, take2.
  rewrite <- Hr1, <- Hc1, <- Hr2, <- Hc2, !Nat.eqb_refl.
  assert (E : nonzero2 mask = []) by (apply nonzero2_nil; exact H).
  rewrite E. split; reflexivity.
Qed.

End MaskedErrorsFloat.

(* ================================================================== *)
(** ** Stale attributes *)

Section StaleAttributes.

Context {F G M : Type}.
Context {NUM : Numerics F} {RND : RandomState F G} {REG : Regressor F G M}
        {SOL : SolverBase F}.

Variable self : MICE F.

Local Abbreviation bare :=
  (same_stream_and_model (F := F) (G := G) (M := M) (model self)).
Local Abbreviation with_models :=
  (fun st1 st2 : state F G M =>
     bare st1 st2 /\ fitted_models st1 = fitted_models st2).
Local Abbreviation with_order :=
  (fun st1 st2 : state F G M =>
     with_models st1 st2 /\ visit_indices st1 = visit_indices st2).
Local Abbreviation alike :=
  (start_alike (F := F) (G := G) (M := M) (model self)).

Lemma stale_initialize X mask omask vis :
  related with_order alike (initialize self X mask omask vis).
Proof.
  unfold initialize. apply related_bind with (R' := alike).
  { apply related_modify.
    intros st1 st2 (((H1 & H2) & H3) & H4). repeat split; auto. }
  intros u. repeat related_step.
  all: first [ apply related_random_choice
             | apply related_store_column_init_value ].
Qed.

Lemma stale_multiple_imputations X :
  related with_models alike (multiple_imputations self X).
Proof.
  unfold multiple_imputations.
  apply related_bind with (R' := with_models); [apply related_check|].
  intros u1.
  apply related_bind with (R' := with_models); [apply related_check|].
  intros u2. destruct X as [v|Xm]; [apply related_raise|].
  apply related_bind with (R' := with_models); [apply related_lift_res|].
  intros vis.
  apply related_bind with (R' := with_order).
  { apply related_modify. intros st1 st2 H. split; [exact H|reflexivity]. }
  intros u3.
  apply related_bind with (R' := alike); [apply stale_initialize|].
  intros W0. unfold imputation_round. repeat related_step.
  apply related_perform_imputation_round. reflexivity.
Qed.

(** What a previous training, or anything else, left in the attributes
    of the instance has no effect on [complete]: two calls on the same
    input, from states in which the random stream is at the same point
    and the model object is in the same state (or [fit] builds the model
    from the data alone), give the same result and make the same calls,
    whatever [fitted_models], [visit_indices] and [column_init_values]
    held in each. *)
Theorem complete_ignores_stale_attributes (X : ndarray F)
    (st1 st2 : state F G M) :
  rng st1 = rng st2 ->
  fit_memoryless \/ heap st1 (model self) = heap st2 (model self) ->
  res (complete self X st1) = res (complete self X st2) /\
  events (complete self X st1) = events (complete self X st2).
Proof.
  intros Hrng Hmodel.
  assert (Hrel : related bare alike (complete self X)).
  { unfold complete. destruct X as [v|Xm].
    - apply related_bind with (R' := bare); [|intros u; apply related_raise].
      apply related_when. apply related_emit.
    - apply related_bind with (R' := bare).
      { apply related_when. apply related_emit. }
      intros u.
      apply related_bind with (R' := with_models).
      { apply related_modify. intros s1 s2 H. split; [exact H|reflexivity]. }
      intros u1.
      apply related_bind with (R' := alike);
        [apply stale_multiple_imputations|].
      intros r. repeat related_step. }
  destruct (Hrel st1 st2) as (H1 & H2 & _); [split; assumption|].
  split; assumption.
Qed.

End StaleAttributes.

(* ================================================================== *)
(** ** The predictors of a column *)

Lemma firstn_seq_le a n k : k <= n -> firstn k (seq a n) = seq a k.
Proof.
  revert a n. induction k as [|k IH]; intros a n H; [reflexivity|].
  destruct n as [|n]; [lia|]. simpl. f_equal. apply IH. lia.
Qed.

Lemma skipn_seq_from a n k : skipn k (seq a n) = seq (a + k) (n - k).
Proof.
  revert a n. induction k as [|k IH]; intros a n.
  - rewrite Nat.add_0_r, Nat.sub_0_r. reflexivity.
  - destruct n as [|n]; [reflexivity|]. simpl. rewrite IH. f_equal. lia.
Qed.

Lemma strongly_sorted_seq a k : StronglySorted lt (seq a k).
Proof.
  revert a. induction k as [|k IH]; intros a; simpl; constructor.
  - apply IH.
  - apply Forall_forall. intros x Hx. apply in_seq in Hx. lia.
Qed.

Lemma strongly_sorted_app (l1 l2 : list nat) :
  StronglySorted lt l1 -> StronglySorted lt l2 ->
  (forall x y, In x l1 -> In y l2 -> x < y) ->
  StronglySorted lt (l1 ++ l2).
Proof.
  intros H1 H2 H. induction H1 as [|x l1 H1 IH Hall]; simpl; [exact H2|].
  constructor.
  - apply IH. intros a b Ha Hb. apply H; [right; exact Ha|exact Hb].
  - apply Forall_app. split; [exact Hall|].
    apply Forall_forall. intros y Hy. apply H; [left; reflexivity|exact Hy].
Qed.

Section Predictors.

Context {F G M : Type}.
Context {NUM : Numerics F} {RND : RandomState F G} {REG : Regressor F G M}
        {SOL : SolverBase F}.

(** When the matrix has no more columns than [n_nearest_columns] (or no
    cap is set), the predictors of a column are all the other columns,
    in ascending order and never the column itself; they are obtained
    without a draw and without a change of state. *)
Theorem other_columns_without_cap (self : MICE F) (n : nat)
    (absC : matrix F) (c : nat) (st : state F G M) :
  (forall cap, n_nearest_columns self = Some cap -> n <= cap) ->
  c < n ->
  exists l,
    other_columns self n absC c st = Out (Ok l) st [] /\
    (forall j, In j l <-> j < n /\ j <> c) /\
    length l = n - 1 /\
    StronglySorted lt l.
Proof.
  intros Hcap Hc.
  exists (firstn c (seq 0 n) ++ skipn (c + 1) (seq 0 n)). split.
  - unfold other_columns. destruct (n_nearest_columns self) as [cap|];
      [|reflexivity].
    assert (E : (n <=? cap) = true)
      by (apply Nat.leb_le; apply Hcap; reflexivity).
    rewrite E. reflexivity.
  - rewrite firstn_seq_le by lia. rewrite skipn_seq_from. split; [|split].
    + intros j. rewrite in_app_iff, !in_seq. lia.
    + rewrite length_app, !length_seq. lia.
    + apply strongly_sorted_app; try apply strongly_sorted_seq.
      intros x y Hx Hy. apply in_seq in Hx, Hy. lia.
Qed.

End Predictors.

(* ================================================================== *)
(** ** The engine on a small matrix *)

#[local] Existing Instance Float64.numerics.
#[local] Existing Instance Lcg.random_state.
#[local] Existing Instance MeanModel.regressor.
#[local] Existing Instance SolverSpec.solver.

Lemma returns_of_ok {S E A} (m : Mx S E A) st d :
  is_ok (res (m st)) = true ->
  returns m st (value_of (m st) d) (final (m st)).
Proof.
  unfold returns, value_of. destruct (res (m st)); [auto|discriminate].
Qed.

(** Two floats that compare as different are different. *)
Ltac float_neq H :=
  match type of H with
  | _ = ?y =>
      let H' := fresh in
      pose proof (f_equal (fun z => (PrimFloat.ltb z y || PrimFloat.ltb y z)%bool)
                    H) as H';
      vm_compute in H'; discriminate H'
  end.

Lemma get_visit_indices_spec_witness :
  In (visit_sequence Example.col2)
    ["roman"; "arabic"; "monotone"; "revmonotone"]%string /\
  exists vis,
    get_visit_indices Example.col2 (isnan2 Example.X) = Ok vis /\
    Permutation vis (seq 0 2).
Proof.
  assert (H : In (visit_sequence Example.col2)
                ["roman"; "arabic"; "monotone"; "revmonotone"]%string)
    by (simpl; auto).
  split; [exact H|].
  destruct (get_visit_indices_spec Example.col2 (isnan2 Example.X) H)
    as (vis & H1 & H2 & _).
  exists vis. split; [exact H1|exact H2].
Defined.

Lemma complete_mean_of_samples_witness :
  returns (complete Example.col2 (Arr2 Example.X)) Example.fresh
    (value_of (Example.complete_on Example.col2 Example.X) Example.X)
    (final (Example.complete_on Example.col2 Example.X)) /\
  exists Ws,
    length Ws = 3 /\ length (skipn 1 Ws) = 2 /\
    at2 (value_of (Example.complete_on Example.col2 Example.X) Example.X) 0 1
    = Float64.mean (map (fun W => at2 W 0 1) (skipn 1 Ws)).
Proof.
  assert (H : returns (complete Example.col2 (Arr2 Example.X)) Example.fresh
                (value_of (Example.complete_on Example.col2 Example.X)
                   Example.X)
                (final (Example.complete_on Example.col2 Example.X)))
    by (apply (returns_of_ok (complete Example.col2 (Arr2 Example.X))
                 Example.fresh Example.X); vm_compute; reflexivity).
  split; [exact H|].
  destruct (complete_mean_of_samples H) as (Ws & _ & H1 & H2 & _ & _ & H3).
  exists Ws. split; [exact H1|]. split; [exact H2|].
  apply (H3 0 1); simpl; lia.
Defined.

Lemma observed_cells_preserved_witness :
  returns (complete Example.col2 (Arr2 Example.X)) Example.fresh
    (value_of (Example.complete_on Example.col2 Example.X) Example.X)
    (final (Example.complete_on Example.col2 Example.X)) /\
  at2 (value_of (Example.complete_on Example.col2 Example.X) Example.X) 2 1
  = at2 Example.X 2 1.
Proof.
  assert (H : returns (complete Example.col2 (Arr2 Example.X)) Example.fresh
                (value_of (Example.complete_on Example.col2 Example.X)
                   Example.X)
                (final (Example.complete_on Example.col2 Example.X)))
    by (apply (returns_of_ok (complete Example.col2 (Arr2 Example.X))
                 Example.fresh Example.X); vm_compute; reflexivity).
  split; [exact H|].
  destruct (observed_cells_preserved H) as (Ws & _ & _ & H1).
  apply H1. reflexivity.
Defined.



Lemma seeded_runs_agree_witness :
  seed Example.col2 = Some 42%Z /\
  (fit_memoryless \/
   heap Example.fresh (model Example.col2) =
   heap (set_rng 7%Z Example.fresh) (model Example.col2)) /\
  res (seeded_run Example.col2 (Arr2 Example.X) Example.fresh) =
  res (seeded_run Example.col2 (Arr2 Example.X)
         (set_rng 7%Z Example.fresh)) /\
  events (seeded_run Example.col2 (Arr2 Example.X) Example.fresh) =
  events (seeded_run Example.col2 (Arr2 Example.X)
            (set_rng 7%Z Example.fresh)).
Proof.
  assert (H1 : seed Example.col2 = Some 42%Z) by reflexivity.
  assert (H2 : fit_memoryless \/
               heap Example.fresh (model Example.col2) =
               heap (set_rng 7%Z Example.fresh) (model Example.col2))
    by (right; reflexivity).
  split; [exact H1|]. split; [exact H2|].
  exact (seeded_runs_agree Example.col2 (Arr2 Example.X)
           Example.fresh (set_rng 7%Z Example.fresh) H1 H2).
Defined.

Lemma pmm_round_values_observed_witness :
  impute_type Example.pmm3 = "pmm"%string /\
  returns (complete Example.pmm3 (Arr2 Example.X)) Example.fresh
    (value_of (Example.complete_on Example.pmm3 Example.X) Example.X)
    (final (Example.complete_on Example.pmm3 Example.X)) /\
  exists Ws,
    forall W, In W Ws ->
    exists i', i' < 4 /\ isnan (at2 Example.X i' 1) = false /\
               at2 W 0 1 = at2 Example.X i' 1.
Proof.
  assert (H0 : impute_type Example.pmm3 = "pmm"%string) by reflexivity.
  assert (H : returns (complete Example.pmm3 (Arr2 Example.X)) Example.fresh
                (value_of (Example.complete_on Example.pmm3 Example.X)
                   Example.X)
                (final (Example.complete_on Example.pmm3 Example.X)))
    by (apply (returns_of_ok (complete Example.pmm3 (Arr2 Example.X))
                 Example.fresh Example.X); vm_compute; reflexivity).
  split; [exact H0|]. split; [exact H|].
  destruct (pmm_round_values_observed H0 H) as (Ws & _ & HWs).
  exists Ws. intros W HW.
  destruct (HWs W HW 0 1) as (i' & H1 & H2 & _ & H3);
    [simpl; lia|simpl; lia|reflexivity|].
  exists i'. split; [exact H1|]. split; [exact H2|].
  apply H3; reflexivity.
Defined.

Lemma complete_row_rejects_other_modes_witness :
  (impute_type Example.pmm3 =? "col")%string = false /\
  exists e,
    complete_row Example.pmm3 (Arr1 [1%float; nan]) None None Example.fresh
    = Out (Raise e) Example.fresh [].
Proof.
  assert (H : (impute_type Example.pmm3 =? "col")%string = false)
    by reflexivity.
  split; [exact H|].
  destruct (complete_row_rejects_other_modes Example.pmm3
              (Arr1 [1%float; nan]) None None Example.fresh H) as (e & He & _).
  exists e. exact He.
Defined.

(** C3 as stated fails on the code.  With impute_type "pmm" the matrix
    returned holds, at the missing cell (0, 1), the mean of three sampled
    values, which is no value observed in column 1; and with max_value = 5
    the first round leaves in that cell the clipped value 5, which is no
    value observed in column 1 either. *)
Lemma pmm_values_not_all_observed :
  (exists Y st',
     returns (complete Example.pmm3 (Arr2 Example.X)) Example.fresh Y st' /\
     isnan (at2 Example.X 0 1) = true /\
     forall i', i' < 4 -> isnan (at2 Example.X i' 1) = false ->
                at2 Y 0 1 <> at2 Example.X i' 1) /\
  (exists Ws st' W,
     returns (working_matrices Example.pmm_clipped Example.X) Example.fresh
       Ws st' /\
     nth_error Ws 0 = Some W /\
     forall i', i' < 4 -> isnan (at2 Example.X i' 1) = false ->
                at2 W 0 1 <> at2 Example.X i' 1).
Proof.
  split.
  - exists (value_of (Example.complete_on Example.pmm3 Example.X) Example.X),
           (final (Example.complete_on Example.pmm3 Example.X)).
    split.
    { apply (returns_of_ok (complete Example.pmm3 (Arr2 Example.X))
               Example.fresh Example.X); vm_compute; reflexivity. }
    split; [reflexivity|].
    intros i' Hi. destruct i' as [|[|[|[|i']]]]; [| | | |lia]; clear Hi;
      intros Hobs Heq.
    + vm_compute in Hobs. discriminate Hobs.
    + float_neq Heq.
    + float_neq Heq.
    + float_neq Heq.
  - exists (value_of (Example.trace_on Example.pmm_clipped Example.X) []),
           (final (Example.trace_on Example.pmm_clipped Example.X)),
           (nth 0 (value_of (Example.trace_on Example.pmm_clipped Example.X) [])
              Example.X).
    split.
    { apply (returns_of_ok (working_matrices Example.pmm_clipped Example.X)
               Example.fresh []); vm_compute; reflexivity. }
    split.
    { apply nth_error_nth'. vm_compute. lia. }
    intros i' Hi. destruct i' as [|[|[|[|i']]]]; [| | | |lia]; clear Hi;
      intros Hobs Heq.
    + vm_compute in Hobs. discriminate Hobs.
    + float_neq Heq.
    + float_neq Heq.
    + float_neq Heq.
Qed.

(** C9 as stated fails on the code.  An instance constructed with
    impute_type "pmm" and never trained holds no fitted models: the guard
    on the saved models fires first, and the exception is not the one of
    the impute-type guard. *)
Lemma complete_row_untrained_raises_no_models :
  (impute_type Example.pmm3 =? "col")%string = false /\
  complete_row Example.pmm3 (Arr1 [1%float; nan]) None None Example.fresh
  = Out (Raise (Exception "No saved fitted models!")) Example.fresh [] /\
  Exception "No saved fitted models!" <> impute_type_error.
Proof.
  split; [reflexivity|]. split; [reflexivity|]. discriminate.
Qed.

(** C2 at a failing input.  After [complete] with two rounds on a matrix
    with a missing cell in each column, every slot of [fitted_models] is
    the one reference [self.model]; the fits were, in call order, column 1
    (mean 20), column 0 (mean 2), column 1, column 0; the one model object
    holds the last of them, so the slot of round 0 and column 1 no longer
    holds what was fitted for it; and [complete_row] on a row missing
    column 1 replays every round with the model of column 0, imputing a
    value below 5 where column 1 was observed between 10 and 30. *)
Theorem fitted_models_slots_share_last_fit :
  is_ok (res (Example.complete_on Example.col1 Example.X)) = true /\
  match fitted_models (final (Example.complete_on Example.col1 Example.X)) with
  | Some (Arr2 a) =>
      (n_rows a, n_cols a) = (2, 2) /\
      map (fun m => map (fun c => at2 a m c) [0; 1]) [0; 1]
      = [[model Example.col1; model Example.col1];
         [model Example.col1; model Example.col1]]
  | _ => False
  end /\
  map (fun m => PrimFloat.eqb (MeanModel.mu m) 20)
    (Example.fits (events (Example.complete_on Example.col1 Example.X)))
  = [true; false; true; false] /\
  PrimFloat.eqb
    (MeanModel.mu
       (heap (final (Example.complete_on Example.col1 Example.X))
          (model Example.col1)))
    2 = true /\
  match res (Example.row_after Example.col1 Example.X [7%float; nan]) with
  | Ok [a; b] => PrimFloat.eqb a 7 = true /\ PrimFloat.ltb b 5 = true
  | _ => False
  end.
Proof.
  vm_compute. repeat split.
Qed.

(** C4 at a failing input.  With an impute_type that is neither "col" nor
    "pmm", [complete] passes every check made before the rounds, starts
    round 1, fits the model of the first column visited and only then
    stops, on an unbound name; the attributes set on the way stay set.
    On a matrix with no missing cell the same configuration is never
    rejected. *)
Theorem unknown_impute_type_raises_inside_round :
  res (Example.complete_on Example.bad_mode Example.X)
  = Raise (UnboundLocalError "imputed_values") /\
  match events (Example.complete_on Example.bad_mode Example.X) with
  | [EvPrint _; EvRound 1 2; EvFit 0 _] => True
  | _ => False
  end /\
  visit_indices (final (Example.complete_on Example.bad_mode Example.X))
  = Some [1; 0] /\
  is_ok (res (Example.complete_on Example.bad_mode Example.X_full)) = true.
Proof.
  vm_compute. repeat split.
Qed.

(* ================================================================== *)
(** ** More runs on small inputs *)

#[local] Existing Instance float_elementwise.

Lemma complete_rejects_unknown_visit_sequence_witness :
  check_input (Arr2 Example.X) = true /\
  check_missing_value_mask (isnan_array (Arr2 Example.X)) = true /\
  ~ In (visit_sequence Cases.bad_order)
      ["roman"; "arabic"; "monotone"; "revmonotone"]%string /\
  res (complete Cases.bad_order (Arr2 Example.X) Example.fresh)
  = Raise visit_order_error.
Proof.
  assert (H1 : check_input (Arr2 Example.X) = true) by reflexivity.
  assert (H2 : check_missing_value_mask (isnan_array (Arr2 Example.X))
               = true) by reflexivity.
  assert (H3 : ~ In (visit_sequence Cases.bad_order)
                   ["roman"; "arabic"; "monotone"; "revmonotone"]%string).
  { simpl. intros [H|[H|[H|[H|[]]]]]; discriminate H. }
  split; [exact H1|]. split; [exact H2|]. split; [exact H3|].
  rewrite (complete_rejects_unknown_visit_sequence Cases.bad_order Example.X
             Example.fresh H1 H2 H3).
  reflexivity.
Defined.

Lemma complete_rejects_unknown_fill_method_witness :
  check_input (Arr2 Example.X) = true /\
  check_missing_value_mask (isnan_array (Arr2 Example.X)) = true /\
  In (visit_sequence Cases.bad_fill)
    ["roman"; "arabic"; "monotone"; "revmonotone"]%string /\
  ~ In (fill_method Cases.bad_fill) ["mean"; "median"; "random"]%string /\
  0 < n_rows Example.X /\ 1 < n_cols Example.X /\
  isnan (at2 Example.X 0 1) = true /\
  res (complete Cases.bad_fill (Arr2 Example.X) Example.fresh)
  = Raise fill_method_error.
Proof.
  assert (H1 : check_input (Arr2 Example.X) = true) by reflexivity.
  assert (H2 : check_missing_value_mask (isnan_array (Arr2 Example.X))
               = true) by reflexivity.
  assert (H3 : In (visit_sequence Cases.bad_fill)
                 ["roman"; "arabic"; "monotone"; "revmonotone"]%string)
    by (simpl; auto).
  assert (H4 : ~ In (fill_method Cases.bad_fill)
                   ["mean"; "median"; "random"]%string).
  { simpl. intros [H|[H|[H|[]]]]; discriminate H. }
  assert (H5 : 0 < n_rows Example.X) by (simpl; lia).
  assert (H6 : 1 < n_cols Example.X) by (simpl; lia).
  assert (H7 : isnan (at2 Example.X 0 1) = true) by reflexivity.
  split; [exact H1|]. split; [exact H2|]. split; [exact H3|].
  split; [exact H4|]. split; [exact H5|]. split; [exact H6|].
  split; [exact H7|].
  destruct (complete_rejects_unknown_fill_method Cases.bad_fill Example.X
              Example.fresh H1 H2 H3 H4 H5 H6 H7) as (vis & _ & ->).
  reflexivity.
Defined.

Lemma random_fill_fails_on_two_missing_witness :
  fill_method Cases.random_fill = "random"%string /\
  1 < n_cols Cases.X2 /\
  2 <= missing_count (isnan2 Cases.X2) 1 /\
  forall Y st',
    ~ returns (complete Cases.random_fill (Arr2 Cases.X2)) Example.fresh Y st'.
Proof.
  assert (H1 : fill_method Cases.random_fill = "random"%string)
    by reflexivity.
  assert (H2 : 1 < n_cols Cases.X2) by (simpl; lia).
  assert (H3 : 2 <= missing_count (isnan2 Cases.X2) 1)
    by (vm_compute; lia).
  split; [exact H1|]. split; [exact H2|]. split; [exact H3|].
  intros Y st'.
  exact (random_fill_fails_on_two_missing H1 H2 H3 (st := Example.fresh)
           (a := Y) (st' := st')).
Defined.

Lemma unknown_impute_type_never_completes_witness :
  ~ In (impute_type Cases.bad_mode) ["pmm"; "col"]%string /\
  0 < n_burn_in Cases.bad_mode + n_imputations Cases.bad_mode /\
  0 < n_rows Example.X /\ 1 < n_cols Example.X /\
  isnan (at2 Example.X 0 1) = true /\
  forall Y st',
    ~ returns (complete Cases.bad_mode (Arr2 Example.X)) Example.fresh Y st'.
Proof.
  assert (H1 : ~ In (impute_type Cases.bad_mode) ["pmm"; "col"]%string).
  { simpl. intros [H|[H|[]]]; discriminate H. }
  assert (H2 : 0 < n_burn_in Cases.bad_mode + n_imputations Cases.bad_mode)
    by (simpl; lia).
  assert (H3 : 0 < n_rows Example.X) by (simpl; lia).
  assert (H4 : 1 < n_cols Example.X) by (simpl; lia).
  assert (H5 : isnan (at2 Example.X 0 1) = true) by reflexivity.
  split; [exact H1|]. split; [exact H2|]. split; [exact H3|].
  split; [exact H4|]. split; [exact H5|].
  intros Y st'.
  exact (unknown_impute_type_never_completes H1 H2 H3 H4 H5
           (st := Example.fresh) (a := Y) (st' := st')).
Defined.

Lemma pmm_without_neighbors_never_completes_witness :
  impute_type Cases.no_neighbors = "pmm"%string /\
  n_pmm_neighbors Cases.no_neighbors = 0 /\
  0 < n_burn_in Cases.no_neighbors + n_imputations Cases.no_neighbors /\
  0 < n_rows Example.X /\ 1 < n_cols Example.X /\
  isnan (at2 Example.X 0 1) = true /\
  forall Y st',
    ~ returns (complete Cases.no_neighbors (Arr2 Example.X)) Example.fresh
        Y st'.
Proof.
  assert (H0 : impute_type Cases.no_neighbors = "pmm"%string)
    by reflexivity.
  assert (H1 : n_pmm_neighbors Cases.no_neighbors = 0) by reflexivity.
  assert (H2 : 0 < n_burn_in Cases.no_neighbors
                   + n_imputations Cases.no_neighbors) by (simpl; lia).
  assert (H3 : 0 < n_rows Example.X) by (simpl; lia).
  assert (H4 : 1 < n_cols Example.X) by (simpl; lia).
  assert (H5 : isnan (at2 Example.X 0 1) = true) by reflexivity.
  split; [exact H0|]. split; [exact H1|]. split; [exact H2|].
  split; [exact H3|]. split; [exact H4|]. split; [exact H5|].
  intros Y st'.
  exact (pmm_without_neighbors_never_completes H0 H1 H2 H3 H4 H5
           (st := Example.fresh) (a := Y) (st' := st')).
Defined.

Lemma initialize_fills_with_statistic_witness :
  In (fill_method Cases.median_fill) ["mean"; "median"]%string /\
  returns (initialize Cases.median_fill Example.X (isnan2 Example.X)
             (invert (isnan2 Example.X)) [0; 1]) Example.fresh
    (value_of
       (initialize Cases.median_fill Example.X (isnan2 Example.X)
          (invert (isnan2 Example.X)) [0; 1] Example.fresh) Example.X)
    (final
       (initialize Cases.median_fill Example.X (isnan2 Example.X)
          (invert (isnan2 Example.X)) [0; 1] Example.fresh)) /\
  at2 (value_of
         (initialize Cases.median_fill Example.X (isnan2 Example.X)
            (invert (isnan2 Example.X)) [0; 1] Example.fresh) Example.X) 0 1
  = if isnan (at2 Example.X 0 1)
    then fill_statistic Cases.median_fill (observed_values Example.X 1)
    else at2 Example.X 0 1.
Proof.
  assert (H0 : In (fill_method Cases.median_fill) ["mean"; "median"]%string)
    by (simpl; auto).
  assert (H : returns
                (initialize Cases.median_fill Example.X (isnan2 Example.X)
                   (invert (isnan2 Example.X)) [0; 1]) Example.fresh
                (value_of
                   (initialize Cases.median_fill Example.X
                      (isnan2 Example.X) (invert (isnan2 Example.X)) [0; 1]
                      Example.fresh) Example.X)
                (final
                   (initialize Cases.median_fill Example.X
                      (isnan2 Example.X) (invert (isnan2 Example.X)) [0; 1]
                      Example.fresh)))
    by (apply (returns_of_ok
                 (initialize Cases.median_fill Example.X (isnan2 Example.X)
                    (invert (isnan2 Example.X)) [0; 1])
                 Example.fresh Example.X);
        vm_compute; reflexivity).
  assert (Hc : In 1 [0; 1]) by (simpl; auto).
  assert (Hi : 0 < n_rows Example.X) by (simpl; lia).
  split; [exact H0|]. split; [exact H|].
  destruct (initialize_fills_with_statistic H0 H) as (Hcells & _).
  exact (Hcells 1 0 Hc Hi).
Defined.

Lemma initialize_draws_nothing_witness :
  In (fill_method Example.col2) ["mean"; "median"]%string /\
  rng (final (initialize Example.col2 Example.X (isnan2 Example.X)
                (invert (isnan2 Example.X)) [1; 0] Example.fresh))
  = rng Example.fresh /\
  events (initialize Example.col2 Example.X (isnan2 Example.X)
            (invert (isnan2 Example.X)) [1; 0] Example.fresh) = [].
Proof.
  assert (H0 : In (fill_method Example.col2) ["mean"; "median"]%string)
    by (simpl; auto).
  split; [exact H0|].
  destruct (initialize_draws_nothing (G := Z) (M := MeanModel.t) Example.col2
              Example.X (isnan2 Example.X) (invert (isnan2 Example.X)) [1; 0]
              H0 Example.fresh) as ((_ & _ & Hrng & _) & Hev).
  split; [exact Hrng|].
  destruct (events (initialize Example.col2 Example.X (isnan2 Example.X)
                      (invert (isnan2 Example.X)) [1; 0] Example.fresh))
    as [|ev evs]; [reflexivity|].
  inversion Hev as [|? ? Hno _]. destruct Hno.
Defined.

Lemma complete_leaves_instance_trained_witness :
  returns (complete Example.col2 (Arr2 Example.X)) Example.fresh
    (value_of (Example.complete_on Example.col2 Example.X) Example.X)
    (final (Example.complete_on Example.col2 Example.X)) /\
  0 < n_burn_in Example.col2 + n_imputations Example.col2 /\
  exists a,
    fitted_models (final (Example.complete_on Example.col2 Example.X))
    = Some (Arr2 a) /\
    n_rows a = 3 /\ n_cols a = 2 /\ at2 a 0 1 = model Example.col2.
Proof.
  assert (H : returns (complete Example.col2 (Arr2 Example.X)) Example.fresh
                (value_of (Example.complete_on Example.col2 Example.X)
                   Example.X)
                (final (Example.complete_on Example.col2 Example.X)))
    by (apply (returns_of_ok (complete Example.col2 (Arr2 Example.X))
                 Example.fresh Example.X); vm_compute; reflexivity).
  assert (Hn : 0 < n_burn_in Example.col2 + n_imputations Example.col2)
    by (simpl; lia).
  split; [exact H|]. split; [exact Hn|].
  destruct (complete_leaves_instance_trained H Hn)
    as (_ & _ & a & H1 & H2 & H3 & H4).
  exists a. split; [exact H1|]. split; [exact H2|]. split; [exact H3|].
  apply H4.
Defined.

Lemma complete_records_initial_values_witness :
  In (fill_method Example.col2) ["mean"; "median"]%string /\
  returns (complete Example.col2 (Arr2 Example.X)) Example.fresh
    (value_of (Example.complete_on Example.col2 Example.X) Example.X)
    (final (Example.complete_on Example.col2 Example.X)) /\
  exists civ,
    column_init_values (final (Example.complete_on Example.col2 Example.X))
    = Some civ /\
    nth_error civ 1 = Some (Float64.mean (observed_values Example.X 1)).
Proof.
  assert (H0 : In (fill_method Example.col2) ["mean"; "median"]%string)
    by (simpl; auto).
  assert (H : returns (complete Example.col2 (Arr2 Example.X)) Example.fresh
                (value_of (Example.complete_on Example.col2 Example.X)
                   Example.X)
                (final (Example.complete_on Example.col2 Example.X)))
    by (apply (returns_of_ok (complete Example.col2 (Arr2 Example.X))
                 Example.fresh Example.X); vm_compute; reflexivity).
  split; [exact H0|]. split; [exact H|].
  destruct (complete_records_initial_values H0 H) as (civ & H1 & _ & H2).
  exists civ. split; [exact H1|]. apply (H2 1). simpl. lia.
Defined.

Lemma complete_row_after_complete_passes_guards_witness :
  returns (complete Example.col2 (Arr2 Example.X)) Example.fresh
    (value_of (Example.complete_on Example.col2 Example.X) Example.X)
    (final (Example.complete_on Example.col2 Example.X)) /\
  0 < n_burn_in Example.col2 + n_imputations Example.col2 /\
  impute_type Example.col2 = "col"%string /\
  length [7%float; nan] = n_cols Example.X /\
  match res (Example.row_after Example.col2 Example.X [7%float; nan]) with
  | Ok _ => True
  | Raise e => forall msg, e <> Exception msg
  end.
Proof.
  assert (H : returns (complete Example.col2 (Arr2 Example.X)) Example.fresh
                (value_of (Example.complete_on Example.col2 Example.X)
                   Example.X)
                (final (Example.complete_on Example.col2 Example.X)))
    by (apply (returns_of_ok (complete Example.col2 (Arr2 Example.X))
                 Example.fresh Example.X); vm_compute; reflexivity).
  assert (Hn : 0 < n_burn_in Example.col2 + n_imputations Example.col2)
    by (simpl; lia).
  assert (Hm : impute_type Example.col2 = "col"%string) by reflexivity.
  assert (Hl : length [7%float; nan] = n_cols Example.X) by reflexivity.
  split; [exact H|]. split; [exact Hn|]. split; [exact Hm|].
  split; [exact Hl|].
  exact (complete_row_after_complete_passes_guards [7%float; nan] None None
           H Hn Hm Hl).
Defined.

Lemma complete_row_seeded_agrees_witness :
  row_seed Example.col2 None = Some 42%Z /\
  same_instance (final (Example.complete_on Example.col2 Example.X))
    (set_rng 7%Z (final (Example.complete_on Example.col2 Example.X))) /\
  res (complete_row Example.col2 (Arr1 [7%float; nan]) None None
         (final (Example.complete_on Example.col2 Example.X))) =
  res (complete_row Example.col2 (Arr1 [7%float; nan]) None None
         (set_rng 7%Z (final (Example.complete_on Example.col2 Example.X)))).
Proof.
  assert (H1 : row_seed Example.col2 None = Some 42%Z) by reflexivity.
  assert (H2 : same_instance
                 (final (Example.complete_on Example.col2 Example.X))
                 (set_rng 7%Z
                    (final (Example.complete_on Example.col2 Example.X))))
    by apply same_instance_set_rng.
  split; [exact H1|]. split; [exact H2|].
  exact (proj1 (complete_row_seeded_agrees Example.col2
                  (Arr1 [7%float; nan]) None None H1 H2)).
Defined.

Lemma complete_fits_once_per_round_and_column_witness :
  returns (complete Example.col2 (Arr2 Example.X)) Example.fresh
    (value_of (Example.complete_on Example.col2 Example.X) Example.X)
    (final (Example.complete_on Example.col2 Example.X)) /\
  n_fits (events (complete Example.col2 (Arr2 Example.X) Example.fresh))
  = 3 * 2.
Proof.
  assert (H : returns (complete Example.col2 (Arr2 Example.X)) Example.fresh
                (value_of (Example.complete_on Example.col2 Example.X)
                   Example.X)
                (final (Example.complete_on Example.col2 Example.X)))
    by (apply (returns_of_ok (complete Example.col2 (Arr2 Example.X))
                 Example.fresh Example.X); vm_compute; reflexivity).
  split; [exact H|].
  exact (complete_fits_once_per_round_and_column H).
Defined.

Lemma multiple_imputations_contract_witness :
  returns (multiple_imputations Example.col2 (Arr2 Example.X))
    Cases.started
    (value_of
       (multiple_imputations Example.col2 (Arr2 Example.X) Cases.started)
       ([], isnan2 Example.X))
    (final
       (multiple_imputations Example.col2 (Arr2 Example.X) Cases.started)) /\
  length
    (fst (value_of
            (multiple_imputations Example.col2 (Arr2 Example.X)
               Cases.started)
            ([], isnan2 Example.X)))
  = n_imputations Example.col2.
Proof.
  assert (H : returns (multiple_imputations Example.col2 (Arr2 Example.X))
                Cases.started
                (value_of
                   (multiple_imputations Example.col2 (Arr2 Example.X)
                      Cases.started)
                   ([], isnan2 Example.X))
                (final
                   (multiple_imputations Example.col2 (Arr2 Example.X)
                      Cases.started)))
    by (apply (returns_of_ok
                 (multiple_imputations Example.col2 (Arr2 Example.X))
                 Cases.started ([], isnan2 Example.X));
        vm_compute; reflexivity).
  split; [exact H|].
  destruct (multiple_imputations_contract H) as (_ & H1 & _).
  exact H1.
Defined.

Lemma complete_row_keeps_observed_entries_witness :
  returns (complete_row Example.col2 (Arr1 [7%float; nan]) None None)
    (final (Example.complete_on Example.col2 Example.X))
    (value_of
       (complete_row Example.col2 (Arr1 [7%float; nan]) None None
          (final (Example.complete_on Example.col2 Example.X))) [])
    (final
       (complete_row Example.col2 (Arr1 [7%float; nan]) None None
          (final (Example.complete_on Example.col2 Example.X)))) /\
  length
    (value_of
       (complete_row Example.col2 (Arr1 [7%float; nan]) None None
          (final (Example.complete_on Example.col2 Example.X))) [])
  = length [7%float; nan] /\
  nth 0
    (value_of
       (complete_row Example.col2 (Arr1 [7%float; nan]) None None
          (final (Example.complete_on Example.col2 Example.X))) []) nan
  = nth 0 [7%float; nan] nan.
Proof.
  assert (H : returns
                (complete_row Example.col2 (Arr1 [7%float; nan]) None None)
                (final (Example.complete_on Example.col2 Example.X))
                (value_of
                   (complete_row Example.col2 (Arr1 [7%float; nan]) None None
                      (final (Example.complete_on Example.col2 Example.X)))
                   [])
                (final
                   (complete_row Example.col2 (Arr1 [7%float; nan]) None None
                      (final (Example.complete_on Example.col2 Example.X)))))
    by (apply (returns_of_ok
                 (complete_row Example.col2 (Arr1 [7%float; nan]) None None)
                 (final (Example.complete_on Example.col2 Example.X)) []);
        vm_compute; reflexivity).
  assert (Hlt : 0 < length [7%float; nan]) by (simpl; lia).
  assert (Hobs : isnan (nth 0 [7%float; nan] nan) = false) by reflexivity.
  split; [exact H|].
  destruct (complete_row_keeps_observed_entries H) as (H1 & H2).
  split; [exact H1|]. exact (H2 0 nan Hlt Hobs).
Defined.

Lemma masked_errors_read_selected_cells_witness :
  n_rows Cases.A' = n_rows Cases.A /\ n_cols Cases.A' = n_cols Cases.A /\
  n_rows Cases.B' = n_rows Cases.B /\ n_cols Cases.B' = n_cols Cases.B /\
  (forall i j, i < n_rows Cases.diagonal -> j < n_cols Cases.diagonal ->
               at2 Cases.diagonal i j = true ->
               at2 Cases.A' i j = at2 Cases.A i j /\
               at2 Cases.B' i j = at2 Cases.B i j) /\
  masked_mae Cases.A' Cases.B' Cases.diagonal
  = masked_mae Cases.A Cases.B Cases.diagonal /\
  masked_mse Cases.A' Cases.B' Cases.diagonal
  = masked_mse Cases.A Cases.B Cases.diagonal.
Proof.
  assert (H1 : n_rows Cases.A' = n_rows Cases.A) by reflexivity.
  assert (H2 : n_cols Cases.A' = n_cols Cases.A) by reflexivity.
  assert (H3 : n_rows Cases.B' = n_rows Cases.B) by reflexivity.
  assert (H4 : n_cols Cases.B' = n_cols Cases.B) by reflexivity.
  assert (H5 : forall i j,
            i < n_rows Cases.diagonal -> j < n_cols Cases.diagonal ->
            at2 Cases.diagonal i j = true ->
            at2 Cases.A' i j = at2 Cases.A i j /\
            at2 Cases.B' i j = at2 Cases.B i j).
  { intros [|[|i]] [|[|j]] Hi Hj Hm; simpl in Hi, Hj; try lia;
      try discriminate Hm; split; reflexivity. }
  split; [exact H1|]. split; [exact H2|]. split; [exact H3|].
  split; [exact H4|]. split; [exact H5|].
  exact (masked_errors_read_selected_cells Cases.A Cases.B Cases.A' Cases.B'
           Cases.diagonal H1 H2 H3 H4 H5).
Defined.

Lemma masked_errors_of_empty_selection_witness :
  n_rows Cases.nothing = n_rows Cases.A /\
  n_cols Cases.nothing = n_cols Cases.A /\
  n_rows Cases.nothing = n_rows Cases.B /\
  n_cols Cases.nothing = n_cols Cases.B /\
  (forall i j, i < n_rows Cases.nothing -> j < n_cols Cases.nothing ->
               at2 Cases.nothing i j = false) /\
  masked_mae Cases.A Cases.B Cases.nothing = Ok nan /\
  masked_mse Cases.A Cases.B Cases.nothing = Ok nan.
Proof.
  assert (H1 : n_rows Cases.nothing = n_rows Cases.A) by reflexivity.
  assert (H2 : n_cols Cases.nothing = n_cols Cases.A) by reflexivity.
  assert (H3 : n_rows Cases.nothing = n_rows Cases.B) by reflexivity.
  assert (H4 : n_cols Cases.nothing = n_cols Cases.B) by reflexivity.
  assert (H5 : forall i j,
            i < n_rows Cases.nothing -> j < n_cols Cases.nothing ->
            at2 Cases.nothing i j = false).
  { intros [|[|i]] [|[|j]] Hi Hj; simpl in Hi, Hj; try lia; reflexivity. }
  split; [exact H1|]. split; [exact H2|]. split; [exact H3|].
  split; [exact H4|]. split; [exact H5|].
  exact (masked_errors_of_empty_selection Cases.A Cases.B Cases.nothing
           H1 H2 H3 H4 H5).
Defined.

Lemma complete_ignores_stale_attributes_witness :
  rng Example.fresh = rng Cases.stale /\
  (fit_memoryless \/
   heap Example.fresh (model Example.col2)
   = heap Cases.stale (model Example.col2)) /\
  res (complete Example.col2 (Arr2 Example.X) Example.fresh) =
  res (complete Example.col2 (Arr2 Example.X) Cases.stale).
Proof.
  assert (H1 : rng Example.fresh = rng Cases.stale) by reflexivity.
  assert (H2 : fit_memoryless \/
               heap Example.fresh (model Example.col2)
               = heap Cases.stale (model Example.col2))
    by (right; reflexivity).
  split; [exact H1|]. split; [exact H2|].
  exact (proj1 (complete_ignores_stale_attributes Example.col2
                  (Arr2 Example.X) Example.fresh Cases.stale H1 H2)).
Defined.

Lemma other_columns_without_cap_witness :
  (forall cap, n_nearest_columns Example.col2 = Some cap -> 3 <= cap) /\
  1 < 3 /\
  exists l,
    other_columns Example.col2 3 Example.X 1 Example.fresh
    = Out (Ok l) Example.fresh [] /\
    length l = 2 /\ ~ In 1 l.
Proof.
  assert (H1 : forall cap,
            n_nearest_columns Example.col2 = Some cap -> 3 <= cap)
    by (intros cap H; discriminate H).
  assert (H2 : 1 < 3) by lia.
  split; [exact H1|]. split; [exact H2|].
  destruct (other_columns_without_cap Example.col2 Example.X
              Example.fresh H1 H2) as (l & H3 & H4 & H5 & _).
  exists l. split; [exact H3|]. split; [exact H5|].
  intros Hin. apply H4 in Hin. destruct Hin as [_ Hne]. apply Hne.
  reflexivity.
Defined.
